(** * HP-chess rules engine of [ChessScene.ts]

    A shallow embedding of the rules part of [src/game/scenes/ChessScene.ts]:
    the board, pseudo-move generation, check detection, the legality filter,
    combat resolution and the move commit, followed by the properties the
    specification states about them.

    Conventions.
    - JS numbers that index the board are integers here ([Z]).
    - The board is an array of row arrays, [list (list (option Piece))];
      [None] in a cell is JS [null].
    - Code on the simulation and commit path can fail: indexing a missing
      row raises a [TypeError]; this is the [TypeError] outcome of [res].
      A write at a column outside the row would, in JS, grow the row or add
      a property to it; such boards are not represented, and the write has
      outcome [OffGrid].  Every result stated with [Ok] is therefore a run of
      the source that stays on the 8x8 grid and raises nothing.
    - Move generation and check detection only read the board, at indices
      that are guarded by [inBounds], range over 0..7, or lie in the row of
      the piece whose moves are generated; on an 8x8 board ([wfBoard]) none
      of these reads can fail, and they are modelled by the total lookup
      [cell].  A statement made here for every list of rows speaks about
      the source on its 8x8 boards. *)

From stdpp Require Import base option list gmap strings.
From Stdlib Require Import ZArith Lia Ascii.

Local Open Scope Z_scope.

(** ** Data model *)

Inductive PieceColor := White | Black.
Inductive PieceType := Pawn | Rook | Knight | Bishop | Queen | King.

Record Piece := mkPiece {
  color : PieceColor;
  type : PieceType;
  moved : bool;
  hp : Z;
  maxHp : Z
}.

Record Square := mkSquare { row : Z; col : Z }.

Inductive Special := Castle | EnPassant.

(** [Move = Square & { special?, rookFromCol?, rookToCol? }] *)
Record Move := mkMove {
  sq : Square;
  special : option Special;
  rookFromCol : option Z;
  rookToCol : option Z
}.

Record LastMove := mkLastMove {
  lmFrom : Square;
  lmTo : Square;
  lmPiece : Piece;
  wasDoublePawnStep : bool
}.

Inductive GameState := Active | Checkmate | Stalemate.

Abbreviation Row := (list (option Piece)).
Abbreviation Board := (list (list (option Piece))).

#[global] Instance PieceColor_eq_dec : EqDecision PieceColor.
Proof. solve_decision. Defined.
#[global] Instance PieceType_eq_dec : EqDecision PieceType.
Proof. solve_decision. Defined.
#[global] Instance Piece_eq_dec : EqDecision Piece.
Proof. solve_decision. Defined.
#[global] Instance Square_eq_dec : EqDecision Square.
Proof. solve_decision. Defined.
#[global] Instance Special_eq_dec : EqDecision Special.
Proof. solve_decision. Defined.
#[global] Instance Move_eq_dec : EqDecision Move.
Proof. solve_decision. Defined.
#[global] Instance GameState_eq_dec : EqDecision GameState.
Proof. solve_decision. Defined.

(** ** Constants *)

Definition BACK_RANK : list PieceType :=
  [Rook; Knight; Bishop; Queen; King; Bishop; Knight; Rook].

Definition PIECE_HP (t : PieceType) : Z :=
  match t with
  | Pawn => 2 | Knight => 3 | Bishop => 3 | Rook => 4 | Queen => 5 | King => 7
  end.

Definition PIECE_DAMAGE (t : PieceType) : Z :=
  match t with
  | Pawn => 1 | Knight => 2 | Bishop => 2 | Rook => 3 | Queen => 3 | King => 2
  end.

Definition getPieceDamage (t : PieceType) : Z := PIECE_DAMAGE t.

Definition createPiece (c : PieceColor) (t : PieceType) : Piece :=
  {| color := c; type := t; moved := false; hp := PIECE_HP t; maxHp := PIECE_HP t |}.

Definition inBounds (r c : Z) : bool :=
  (0 <=? r) && (r <? 8) && (0 <=? c) && (c <? 8).

(** [color === 'w' ? 'b' : 'w'] *)
Definition enemyOf (c : PieceColor) : PieceColor :=
  match c with White => Black | Black => White end.

(** ** Reading the board *)

(** [board[r][c]] as JS evaluates it on an existing row: [None] is
    [undefined] (no such column), [Some None] is [null]. *)
Definition slot (b : Board) (r c : Z) : option (option Piece) :=
  if (0 <=? r) && (0 <=? c)
  then rw ← b !! Z.to_nat r; rw !! Z.to_nat c
  else None.

(** The piece on a square, if any: [null] and [undefined] are both falsy. *)
Definition cell (b : Board) (r c : Z) : option Piece :=
  default None (slot b r c).

Definition cellAt (b : Board) (s : Square) : option Piece :=
  cell b (row s) (col s).

Definition wfBoard (b : Board) : Prop :=
  length b = 8%nat ∧ Forall (λ rw, length rw = 8%nat) b.

(** The squares in the order of the nested [for row / for col] loops. *)
Definition allSquares : list Square :=
  r ← seqZ 0 8; c ← seqZ 0 8; [mkSquare r c].

Definition plainMove (r c : Z) : Move :=
  {| sq := mkSquare r c; special := None; rookFromCol := None; rookToCol := None |}.

(** ** Pseudo-move generation *)

(** The [while (inBounds ...)] walk along one direction.  A walk leaves the
    board after at most 7 steps; [rayWalk_fuel] shows that 8 is enough. *)
Fixpoint rayWalk (fuel : nat) (b : Board) (own : PieceColor)
    (nextRow nextCol dr dc : Z) : list Move :=
  match fuel with
  | O => []
  | S fuel' =>
      if inBounds nextRow nextCol then
        match cell b nextRow nextCol with
        | None =>
            plainMove nextRow nextCol
              :: rayWalk fuel' b own (nextRow + dr) (nextCol + dc) dr dc
        | Some target =>
            if decide (color target ≠ own) then [plainMove nextRow nextCol] else []
        end
      else []
  end.

Record CastleSide := mkSide {
  rookCol : Z;
  passCols : list Z;
  kingTargetCol : Z;
  rookTargetCol : Z
}.

Definition kingSide : CastleSide :=
  {| rookCol := 7; passCols := [5; 6]; kingTargetCol := 6; rookTargetCol := 5 |}.

Definition queenSide : CastleSide :=
  {| rookCol := 0; passCols := [1; 2; 3]; kingTargetCol := 2; rookTargetCol := 3 |}.

Definition castleSides : list CastleSide := [kingSide; queenSide].

Definition castleMove (r : Z) (side : CastleSide) : Move :=
  {| sq := mkSquare r (kingTargetCol side);
     special := Some Castle;
     rookFromCol := Some (rookCol side);
     rookToCol := Some (rookTargetCol side) |}.

Definition enPassantMove (r c : Z) : Move :=
  {| sq := mkSquare r c; special := Some EnPassant;
     rookFromCol := None; rookToCol := None |}.

Definition knightJumps : list (Z * Z) :=
  [(-2, -1); (-2, 1); (-1, -2); (-1, 2); (1, -2); (1, 2); (2, -1); (2, 1)].

Definition slideDirections (t : PieceType) : list (Z * Z) :=
  (if decide (t = Bishop ∨ t = Queen)
   then [(-1, -1); (-1, 1); (1, -1); (1, 1)] else [])
  ++ (if decide (t = Rook ∨ t = Queen)
      then [(-1, 0); (1, 0); (0, -1); (0, 1)] else []).

Section Generation.

(** [getPseudoMoves] calls [isKingInCheck] and [isSquareAttacked] (castling),
    which call [getPseudoMoves] back in attack-map mode.  The body is written
    over the two callees; the knot is tied below. *)
Variable isKingInCheck' : Board → PieceColor → bool.
Variable isSquareAttacked' : Board → Z → Z → PieceColor → bool.

(** The three parts of the pawn rule, in the order the source pushes their
    moves: advances, diagonal captures, en passant. *)
Definition pawnDirection (c : PieceColor) : Z :=
  if decide (c = White) then -1 else 1.

Definition pawnAdvances (b : Board) (r c : Z) (piece : Piece)
    (forAttackMap : bool) : list Move :=
  let direction := pawnDirection (color piece) in
  let startRow := if decide (color piece = White) then 6 else 1 in
  let oneForward := r + direction in
  if negb forAttackMap && inBounds oneForward c
     && bool_decide (cell b oneForward c = None)
  then
    plainMove oneForward c
      :: (let twoForward := r + direction * 2 in
          if bool_decide (r = startRow) && bool_decide (cell b twoForward c = None)
          then [plainMove twoForward c] else [])
  else [].

Definition pawnCaptures (b : Board) (r c : Z) (piece : Piece)
    (forAttackMap : bool) : list Move :=
  let direction := pawnDirection (color piece) in
  delta ← [-1; 1];
  let attackRow := r + direction in
  let attackCol := c + delta in
  if negb (inBounds attackRow attackCol) then []
  else if forAttackMap then [plainMove attackRow attackCol]
  else match cell b attackRow attackCol with
       | Some target =>
           if decide (color target ≠ color piece)
           then [plainMove attackRow attackCol] else []
       | None => []
       end.

Definition pawnEnPassant (lastMove : option LastMove) (b : Board) (r c : Z)
    (piece : Piece) (forAttackMap : bool) : list Move :=
  let direction := pawnDirection (color piece) in
  match lastMove with
  | Some lm =>
      if negb forAttackMap && wasDoublePawnStep lm then
        let enemyPawn := lmPiece lm in
        if bool_decide (type enemyPawn = Pawn)
           && bool_decide (color enemyPawn ≠ color piece)
           && bool_decide (row (lmTo lm) = r)
           && bool_decide (Z.abs (col (lmTo lm) - c) = 1)
        then
          let enPassantRow := r + direction in
          let enPassantCol := col (lmTo lm) in
          if inBounds enPassantRow enPassantCol
             && bool_decide (cell b enPassantRow enPassantCol = None)
          then [enPassantMove enPassantRow enPassantCol] else []
        else []
      else []
  | None => []
  end.

Definition pawnMoves (lastMove : option LastMove) (b : Board) (r c : Z)
    (piece : Piece) (forAttackMap : bool) : list Move :=
  pawnAdvances b r c piece forAttackMap
  ++ pawnCaptures b r c piece forAttackMap
  ++ pawnEnPassant lastMove b r c piece forAttackMap.

Definition knightMoves (b : Board) (r c : Z) (piece : Piece) : list Move :=
  j ← knightJumps;
  let nextRow := r + j.1 in
  let nextCol := c + j.2 in
  if negb (inBounds nextRow nextCol) then []
  else match cell b nextRow nextCol with
       | None => [plainMove nextRow nextCol]
       | Some target =>
           if decide (color target ≠ color piece)
           then [plainMove nextRow nextCol] else []
       end.

Definition sliderMoves (b : Board) (r c : Z) (piece : Piece) : list Move :=
  d ← slideDirections (type piece);
  rayWalk 8 b (color piece) (r + d.1) (c + d.2) d.1 d.2.

Definition kingSteps (b : Board) (r c : Z) (piece : Piece) : list Move :=
  dr ← [-1; 0; 1]; dc ← [-1; 0; 1];
  if bool_decide (dr = 0) && bool_decide (dc = 0) then []
  else
    let nextRow := r + dr in
    let nextCol := c + dc in
    if negb (inBounds nextRow nextCol) then []
    else match cell b nextRow nextCol with
         | None => [plainMove nextRow nextCol]
         | Some target =>
             if decide (color target ≠ color piece)
             then [plainMove nextRow nextCol] else []
         end.

(** One iteration of the loop over the two castling sides. *)
Definition castleFor (b : Board) (r : Z) (piece : Piece) (side : CastleSide)
    : list Move :=
  match cell b r (rookCol side) with
  | None => []
  | Some rook =>
      if bool_decide (type rook ≠ Rook) || bool_decide (color rook ≠ color piece)
         || moved rook
      then []
      else
        let blocked :=
          existsb (λ passCol, bool_decide (slot b r passCol ≠ Some None))
                  (passCols side) in
        if blocked then []
        else
          let enemy := enemyOf (color piece) in
          let dangerCols := if bool_decide (kingTargetCol side = 6)
                            then [5; 6] else [3; 2] in
          let underAttack :=
            existsb (λ dangerCol, isSquareAttacked' b r dangerCol enemy) dangerCols in
          if negb underAttack then [castleMove r side] else []
  end.

Definition kingMoves (b : Board) (r c : Z) (piece : Piece) (forAttackMap : bool)
    : list Move :=
  kingSteps b r c piece
  ++ (if negb forAttackMap && negb (moved piece)
         && negb (isKingInCheck' b (color piece))
      then side ← castleSides; castleFor b r piece side
      else []).

Definition pseudoMovesBody (lastMove : option LastMove) (b : Board) (r c : Z)
    (piece : Piece) (forAttackMap : bool) : list Move :=
  match type piece with
  | Pawn => pawnMoves lastMove b r c piece forAttackMap
  | Knight => knightMoves b r c piece
  | Bishop | Rook | Queen => sliderMoves b r c piece
  | King => kingMoves b r c piece forAttackMap
  end.

End Generation.

(** [getPseudoMoves(board, row, col, piece, true)]: in attack-map mode the
    generator reads neither [this.lastMove] nor the check tests. *)
Definition attackMap (b : Board) (r c : Z) (piece : Piece) : list Move :=
  pseudoMovesBody (λ _ _, false) (λ _ _ _ _, false) None b r c piece true.

Definition isSquareAttacked (b : Board) (targetRow targetCol : Z)
    (attackingColor : PieceColor) : bool :=
  existsb
    (λ s, match cell b (row s) (col s) with
          | None => false
          | Some attacker =>
              if decide (color attacker ≠ attackingColor) then false
              else existsb
                     (λ move, bool_decide (row (sq move) = targetRow)
                              && bool_decide (col (sq move) = targetCol))
                     (attackMap b (row s) (col s) attacker)
          end)
    allSquares.

Definition getKingSquare (b : Board) (c : PieceColor) : option Square :=
  find (λ s, match cell b (row s) (col s) with
             | Some piece => bool_decide (color piece = c) && bool_decide (type piece = King)
             | None => false
             end)
       allSquares.

Definition isKingInCheck (b : Board) (c : PieceColor) : bool :=
  match getKingSquare b c with
  | None => false
  | Some kingSquare =>
      isSquareAttacked b (row kingSquare) (col kingSquare) (enemyOf c)
  end.

(** [lastMove] is the scene's [this.lastMove], read by the pawn rule. *)
Definition getPseudoMoves (lastMove : option LastMove) (b : Board) (r c : Z)
    (piece : Piece) (forAttackMap : bool) : list Move :=
  pseudoMovesBody isKingInCheck isSquareAttacked lastMove b r c piece forAttackMap.

(** ** Initial position *)

Definition createInitialBoard : Board :=
  let back (c : PieceColor) : Row := (λ t, Some (createPiece c t)) <$> BACK_RANK in
  let pawns (c : PieceColor) : Row := replicate 8 (Some (createPiece c Pawn)) in
  let empty : Row := replicate 8 None in
  [back Black; pawns Black; empty; empty; empty; empty; pawns White; back White].

(** ** Outcomes of code that writes the board *)

Inductive res (A : Type) : Type :=
  | Ok (a : A)
  | TypeError
  | OffGrid.
Arguments Ok {A} a.
Arguments TypeError {A}.
Arguments OffGrid {A}.

#[global] Instance res_ret : MRet res := λ A a, Ok a.
#[global] Instance res_bind : MBind res := λ A B f m,
  match m with
  | Ok a => f a
  | TypeError => TypeError
  | OffGrid => OffGrid
  end.

(** [board[r][c]] as an expression: indexing a missing row throws. *)
Definition readCell (b : Board) (r c : Z) : res (option Piece) :=
  if 0 <=? r then
    match b !! Z.to_nat r with
    | None => TypeError
    | Some rw => Ok (if 0 <=? c then default None (rw !! Z.to_nat c) else None)
    end
  else TypeError.

(** [board[r][c] = v]. *)
Definition writeCell (b : Board) (r c : Z) (v : option Piece) : res Board :=
  if 0 <=? r then
    match b !! Z.to_nat r with
    | None => TypeError
    | Some rw =>
        if (0 <=? c) && (c <? Z.of_nat (length rw))
        then Ok (<[Z.to_nat r := <[Z.to_nat c := v]> rw]> b)
        else OffGrid
    end
  else TypeError.

(** [board.map((row) => row.map((piece) => (piece ? { ...piece } : null)))];
    on values, copying a piece field by field gives the piece back. *)
Definition copyPiece (p : Piece) : Piece :=
  {| color := color p; type := type p; moved := moved p; hp := hp p; maxHp := maxHp p |}.

Definition cloneBoard (b : Board) : Board :=
  (λ rw : Row, (λ piece, match piece with
                         | Some p => Some (copyPiece p)
                         | None => None
                         end) <$> rw) <$> b.

(** ** Combat resolution and relocation *)

Definition captureRowOf (c : PieceColor) (m : Move) : Z :=
  if decide (c = White) then row (sq m) + 1 else row (sq m) - 1.

Definition getDefenderSquareForMove (b : Board) (move : Move) (attacker : Piece)
    : res (option Square) :=
  if decide (special move = Some EnPassant) then
    let captureRow := captureRowOf (color attacker) move in
    if negb (inBounds captureRow (col (sq move))) then Ok None
    else
      defender ← readCell b captureRow (col (sq move));
      match defender with
      | Some d =>
          if decide (color d ≠ color attacker)
          then Ok (Some (mkSquare captureRow (col (sq move))))
          else Ok None
      | None => Ok None
      end
  else
    defender ← readCell b (row (sq move)) (col (sq move));
    match defender with
    | Some d =>
        if decide (color d ≠ color attacker)
        then Ok (Some (mkSquare (row (sq move)) (col (sq move))))
        else Ok None
    | None => Ok None
    end.

(** [{ ...piece, moved: true }] *)
Definition markMoved (p : Piece) : Piece :=
  {| color := color p; type := type p; moved := true; hp := hp p; maxHp := maxHp p |}.

(** The promotion step applied to the moved copy. *)
Definition promoteIfLastRank (movedPiece : Piece) (move : Move) : Piece :=
  if bool_decide (type movedPiece = Pawn)
     && (bool_decide (row (sq move) = 0) || bool_decide (row (sq move) = 7))
  then
    {| color := color movedPiece; type := Queen; moved := moved movedPiece;
       hp := Z.min (hp movedPiece) (PIECE_HP Queen); maxHp := PIECE_HP Queen |}
  else movedPiece.

(** Returns the board after the in-place writes together with the moved piece. *)
Definition movePieceWithPromotion (b : Board) (from : Square) (move : Move)
    : res (Board * Piece) :=
  piece ← readCell b (row from) (col from);
  match piece with
  | None => Ok (b, createPiece White Pawn)
  | Some piece =>
      b1 ← writeCell b (row from) (col from) None;
      b2 ← (if decide (special move = Some EnPassant)
            then writeCell b1 (captureRowOf (color piece) move) (col (sq move)) None
            else Ok b1);
      let movedPiece := promoteIfLastRank (markMoved piece) move in
      b3 ← writeCell b2 (row (sq move)) (col (sq move)) (Some movedPiece);
      b4 ← match special move, rookFromCol move, rookToCol move with
           | Some Castle, Some rookFrom, Some rookTo =>
               rook ← readCell b3 (row (sq move)) rookFrom;
               b' ← writeCell b3 (row (sq move)) rookFrom None;
               match rook with
               | Some rk => writeCell b' (row (sq move)) rookTo (Some (markMoved rk))
               | None => Ok b'
               end
           | _, _, _ => Ok b3
           end;
      Ok (b4, movedPiece)
  end.

(** [defender.hp = Math.max(0, defender.hp - damage)] *)
Definition damaged (defender : Piece) (damage : Z) : Piece :=
  {| color := color defender; type := type defender; moved := moved defender;
     hp := Z.max 0 (hp defender - damage); maxHp := maxHp defender |}.

Definition simulateResolvedBoard (b : Board) (from : Square) (move : Move)
    : res Board :=
  let nextBoard := cloneBoard b in
  attacker ← readCell nextBoard (row from) (col from);
  match attacker with
  | None => Ok nextBoard
  | Some attacker =>
      defenderSquare ← getDefenderSquareForMove b move attacker;
      defender ← match defenderSquare with
                 | Some ds => readCell nextBoard (row ds) (col ds)
                 | None => Ok None
                 end;
      match defenderSquare, defender with
      | Some ds, Some d =>
          if decide (color d ≠ color attacker) then
            let d' := damaged d (getPieceDamage (type attacker)) in
            b1 ← writeCell nextBoard (row ds) (col ds) (Some d');
            if hp d' <=? 0 then
              b2 ← writeCell b1 (row ds) (col ds) None;
              r ← movePieceWithPromotion b2 from move;
              Ok r.1
            else Ok b1
          else
            r ← movePieceWithPromotion nextBoard from move; Ok r.1
      | _, _ =>
          r ← movePieceWithPromotion nextBoard from move; Ok r.1
      end
  end.

(** ** Legality filter *)

Fixpoint filterLegal (b : Board) (from : Square) (own : PieceColor)
    (pseudoMoves : list Move) : res (list Move) :=
  match pseudoMoves with
  | [] => Ok []
  | move :: rest =>
      next ← simulateResolvedBoard b from move;
      kept ← filterLegal b from own rest;
      Ok (if negb (isKingInCheck next own) then move :: kept else kept)
  end.

Definition getLegalMoves (lastMove : option LastMove) (b : Board) (from : Square)
    : res (list Move) :=
  piece ← readCell b (row from) (col from);
  match piece with
  | None => Ok []
  | Some piece =>
      filterLegal b from (color piece)
        (getPseudoMoves lastMove b (row from) (col from) piece false)
  end.

(** The double loop of [hasAnyLegalMove] over the squares still to visit. *)
Fixpoint anyLegalFrom (lastMove : option LastMove) (b : Board) (c : PieceColor)
    (squares : list Square) : res bool :=
  match squares with
  | [] => Ok false
  | s :: rest =>
      match cellAt b s with
      | Some piece =>
          if decide (color piece = c) then
            legal ← getLegalMoves lastMove b s;
            if (0 <? length legal)%nat then Ok true
            else anyLegalFrom lastMove b c rest
          else anyLegalFrom lastMove b c rest
      | None => anyLegalFrom lastMove b c rest
      end
  end.

Definition hasAnyLegalMove (lastMove : option LastMove) (b : Board) (c : PieceColor)
    : res bool :=
  anyLegalFrom lastMove b c allSquares.

(** ** The scene state and the move commit *)

Record Scene := mkScene {
  board : Board;
  turn : PieceColor;
  gameState : GameState;
  selected : option Square;
  legalMoves : list Move;
  lastMove : option LastMove;
  isResolvingMove : bool
}.

Definition evaluateGameState (s : Scene) : res Scene :=
  canMove ← hasAnyLegalMove (lastMove s) (board s) (turn s);
  let st := if canMove : bool then Active
            else if isKingInCheck (board s) (turn s) then Checkmate else Stalemate in
  Ok {| board := board s; turn := turn s; gameState := st;
        selected := selected s; legalMoves := legalMoves s;
        lastMove := lastMove s; isResolvingMove := isResolvingMove s |}.

(** What the [try] block of [commitMove] computes before it stores the
    result: the next board, [nextPieceState], [lastMoveTo] and
    [wasDoublePawnStep].  The attack animation between the lethality test and
    the writes touches no rules state and is left out. *)
Record Resolution := mkResolution {
  nextBoard : Board;
  nextPieceState : Piece;
  lastMoveTo : Square;
  resDoubleStep : bool
}.

Definition isDoubleStep (originPiece : Piece) (from : Square) (move : Move) : bool :=
  bool_decide (type originPiece = Pawn)
  && bool_decide (Z.abs (row (sq move) - row from) = 2).

Definition resolveCommit (b : Board) (from : Square) (move : Move)
    (originPiece : Piece) : res Resolution :=
  let nextBoard := cloneBoard b in
  defenderSquare ← getDefenderSquareForMove b move originPiece;
  defender ← match defenderSquare with
             | Some ds => readCell b (row ds) (col ds)
             | None => Ok None
             end;
  let relocate (nb : Board) : res Resolution :=
    r ← movePieceWithPromotion nb from move;
    Ok {| nextBoard := r.1; nextPieceState := r.2;
          lastMoveTo := mkSquare (row (sq move)) (col (sq move));
          resDoubleStep := isDoubleStep originPiece from move |} in
  let stay (nb : Board) : res Resolution :=
    Ok {| nextBoard := nb; nextPieceState := copyPiece originPiece;
          lastMoveTo := mkSquare (row from) (col from);
          resDoubleStep := false |} in
  match defenderSquare, defender with
  | Some ds, Some d =>
      if decide (color d ≠ color originPiece) then
        let damage := getPieceDamage (type originPiece) in
        defenderOnBoard ← readCell nextBoard (row ds) (col ds);
        match defenderOnBoard with
        | Some dob =>
            let dob' := damaged dob damage in
            b1 ← writeCell nextBoard (row ds) (col ds) (Some dob');
            if hp dob' <=? 0 then
              b2 ← writeCell b1 (row ds) (col ds) None;
              relocate b2
            else stay b1
        | None => stay nextBoard
        end
      else relocate nextBoard
  | _, _ => relocate nextBoard
  end.

Definition commitMove (s : Scene) (from : Square) (move : Move) : res Scene :=
  if isResolvingMove s then Ok s
  else
    originPiece ← readCell (board s) (row from) (col from);
    match originPiece with
    | None => Ok s
    | Some originPiece =>
        r ← resolveCommit (board s) from move originPiece;
        s' ← evaluateGameState
               {| board := nextBoard r;
                  turn := enemyOf (turn s);
                  gameState := gameState s;
                  selected := None;
                  legalMoves := [];
                  lastMove := Some {| lmFrom := from; lmTo := lastMoveTo r;
                                      lmPiece := nextPieceState r;
                                      wasDoublePawnStep := resDoubleStep r |};
                  isResolvingMove := true |};
        Ok {| board := board s'; turn := turn s'; gameState := gameState s';
              selected := selected s'; legalMoves := legalMoves s';
              lastMove := lastMove s'; isResolvingMove := false |}
    end.

Definition resetGame : Scene :=
  {| board := createInitialBoard; turn := White; gameState := Active;
     selected := None; legalMoves := []; lastMove := None;
     isResolvingMove := false |}.


(** ** The board as objects on a heap

    In the source a board is an array of row arrays whose cells are [null]
    or references to mutable piece objects.  The value model above is enough
    wherever no object is reachable twice; what [cloneBoard] promises is
    exactly that, so for it the objects and references are modelled: a heap
    of objects addressed by location, allocation at the end of the heap. *)

Abbreviation loc := nat.

Inductive Obj :=
  | OPiece (p : Piece)
  | ORow (cells : list (option loc))
  | OGrid (rows : list loc).

Abbreviation Heap := (list Obj).

Definition alloc (h : Heap) (o : Obj) : Heap * loc := (h ++ [o], length h).

(** Dereferencing; a location of the wrong kind cannot arise from typed
    code and is reported as [TypeError]. *)
Definition pieceAt (h : Heap) (l : loc) : res Piece :=
  match h !! l with Some (OPiece p) => Ok p | _ => TypeError end.

Definition rowAt (h : Heap) (l : loc) : res (list (option loc)) :=
  match h !! l with Some (ORow cells) => Ok cells | _ => TypeError end.

Definition gridAt (h : Heap) (l : loc) : res (list loc) :=
  match h !! l with Some (OGrid rows) => Ok rows | _ => TypeError end.

(** [board[r][c]]: the reference stored in the cell. *)
Definition readRef (h : Heap) (bl : loc) (r c : Z) : res (option loc) :=
  rows ← gridAt h bl;
  if 0 <=? r then
    match rows !! Z.to_nat r with
    | None => TypeError
    | Some rl =>
        cells ← rowAt h rl;
        Ok (if 0 <=? c then default None (cells !! Z.to_nat c) else None)
    end
  else TypeError.

(** [board[r][c] = v] for a reference [v]. *)
Definition writeRef (h : Heap) (bl : loc) (r c : Z) (v : option loc) : res Heap :=
  rows ← gridAt h bl;
  if 0 <=? r then
    match rows !! Z.to_nat r with
    | None => TypeError
    | Some rl =>
        cells ← rowAt h rl;
        if (0 <=? c) && (c <? Z.of_nat (length cells))
        then Ok (<[rl := ORow (<[Z.to_nat c := v]> cells)]> h)
        else OffGrid
    end
  else TypeError.

(** The piece a cell refers to, if any. *)
Definition readPiece (h : Heap) (bl : loc) (r c : Z) : res (option Piece) :=
  ref ← readRef h bl r c;
  match ref with
  | None => Ok None
  | Some l => p ← pieceAt h l; Ok (Some p)
  end.

(** [row.map((piece) => (piece ? { ...piece } : null))] *)
Fixpoint cloneCells (h : Heap) (cells : list (option loc))
    : res (Heap * list (option loc)) :=
  match cells with
  | [] => Ok (h, [])
  | None :: rest => r ← cloneCells h rest; Ok (r.1, None :: r.2)
  | Some l :: rest =>
      p ← pieceAt h l;
      let a := alloc h (OPiece (copyPiece p)) in
      r ← cloneCells a.1 rest;
      Ok (r.1, Some a.2 :: r.2)
  end.

(** [board.map((row) => ...)] over the rows still to copy. *)
Fixpoint cloneRows (h : Heap) (rows : list loc) : res (Heap * list loc) :=
  match rows with
  | [] => Ok (h, [])
  | rl :: rest =>
      cells ← rowAt h rl;
      c ← cloneCells h cells;
      let a := alloc c.1 (ORow c.2) in
      r ← cloneRows a.1 rest;
      Ok (r.1, a.2 :: r.2)
  end.

Definition cloneBoardH (h : Heap) (bl : loc) : res (Heap * loc) :=
  rows ← gridAt h bl;
  r ← cloneRows h rows;
  Ok (alloc r.1 (OGrid r.2)).

Definition getDefenderSquareForMoveH (h : Heap) (bl : loc) (move : Move)
    (attacker : Piece) : res (option Square) :=
  if decide (special move = Some EnPassant) then
    let captureRow := captureRowOf (color attacker) move in
    if negb (inBounds captureRow (col (sq move))) then Ok None
    else
      defender ← readPiece h bl captureRow (col (sq move));
      match defender with
      | Some d =>
          if decide (color d ≠ color attacker)
          then Ok (Some (mkSquare captureRow (col (sq move))))
          else Ok None
      | None => Ok None
      end
  else
    defender ← readPiece h bl (row (sq move)) (col (sq move));
    match defender with
    | Some d =>
        if decide (color d ≠ color attacker)
        then Ok (Some (mkSquare (row (sq move)) (col (sq move))))
        else Ok None
    | None => Ok None
    end.

(** [movePieceWithPromotion] on the heap.  The copy [{ ...piece, moved: true }]
    is a new object; the promotion assignments change that new object before
    any cell refers to it, so it is allocated with its final fields.  The
    result is the heap and the location of the returned piece. *)
Definition movePieceWithPromotionH (h : Heap) (bl : loc) (from : Square)
    (move : Move) : res (Heap * loc) :=
  ref ← readRef h bl (row from) (col from);
  match ref with
  | None => Ok (alloc h (OPiece (createPiece White Pawn)))
  | Some pl =>
      piece ← pieceAt h pl;
      h1 ← writeRef h bl (row from) (col from) None;
      h2 ← (if decide (special move = Some EnPassant)
            then writeRef h1 bl (captureRowOf (color piece) move) (col (sq move)) None
            else Ok h1);
      let a := alloc h2 (OPiece (promoteIfLastRank (markMoved piece) move)) in
      h3 ← writeRef a.1 bl (row (sq move)) (col (sq move)) (Some a.2);
      h4 ← match special move, rookFromCol move, rookToCol move with
           | Some Castle, Some rookFrom, Some rookTo =>
               rookRef ← readRef h3 bl (row (sq move)) rookFrom;
               h' ← writeRef h3 bl (row (sq move)) rookFrom None;
               match rookRef with
               | Some rl =>
                   rk ← pieceAt h' rl;
                   let a' := alloc h' (OPiece (markMoved rk)) in
                   writeRef a'.1 bl (row (sq move)) rookTo (Some a'.2)
               | None => Ok h'
               end
           | _, _, _ => Ok h3
           end;
      Ok (h4, a.2)
  end.

(** [simulateResolvedBoard] on the heap: [bl] is the board passed in, the
    result is the heap afterwards and the location of the returned board. *)
Definition simulateResolvedBoardH (h : Heap) (bl : loc) (from : Square)
    (move : Move) : res (Heap * loc) :=
  c ← cloneBoardH h bl;
  let h1 := c.1 in
  let nextBoard := c.2 in
  attRef ← readRef h1 nextBoard (row from) (col from);
  match attRef with
  | None => Ok (h1, nextBoard)
  | Some al =>
      attacker ← pieceAt h1 al;
      defenderSquare ← getDefenderSquareForMoveH h1 bl move attacker;
      defRef ← match defenderSquare with
               | Some ds => readRef h1 nextBoard (row ds) (col ds)
               | None => Ok None
               end;
      match defenderSquare, defRef with
      | Some ds, Some dl =>
          defender ← pieceAt h1 dl;
          if decide (color defender ≠ color attacker) then
            let d' := damaged defender (getPieceDamage (type attacker)) in
            let h2 := <[dl := OPiece d']> h1 in
            if hp d' <=? 0 then
              h3 ← writeRef h2 nextBoard (row ds) (col ds) None;
              r ← movePieceWithPromotionH h3 nextBoard from move;
              Ok (r.1, nextBoard)
            else Ok (h2, nextBoard)
          else
            r ← movePieceWithPromotionH h1 nextBoard from move;
            Ok (r.1, nextBoard)
      | _, _ =>
          r ← movePieceWithPromotionH h1 nextBoard from move;
          Ok (r.1, nextBoard)
      end
  end.

(** A mutation made through a board reference, of the three kinds the
    simulation makes: clear a cell, store a newly created piece in a cell,
    assign fields of the piece a cell refers to. *)
Inductive Mutation :=
  | MClear (r c : Z)
  | MStoreNew (r c : Z) (p : Piece)
  | MAssign (r c : Z) (f : Piece → Piece).

Definition applyMutation (bl : loc) (h : Heap) (m : Mutation) : res Heap :=
  match m with
  | MClear r c => writeRef h bl r c None
  | MStoreNew r c p =>
      let a := alloc h (OPiece p) in writeRef a.1 bl r c (Some a.2)
  | MAssign r c f =>
      ref ← readRef h bl r c;
      match ref with
      | None => TypeError
      | Some l => p ← pieceAt h l; Ok (<[l := OPiece (f p)]> h)
      end
  end.

Fixpoint applyMutations (bl : loc) (h : Heap) (ms : list Mutation) : res Heap :=
  match ms with
  | [] => Ok h
  | m :: rest => h' ← applyMutation bl h m; applyMutations bl h' rest
  end.

(** The value a board reference stands for: every cell dereferenced. *)
Fixpoint absCells (h : Heap) (cells : list (option loc)) : res Row :=
  match cells with
  | [] => Ok []
  | None :: rest => r ← absCells h rest; Ok (None :: r)
  | Some l :: rest => p ← pieceAt h l; r ← absCells h rest; Ok (Some p :: r)
  end.

Fixpoint absRows (h : Heap) (rows : list loc) : res Board :=
  match rows with
  | [] => Ok []
  | rl :: rest =>
      cells ← rowAt h rl; rw ← absCells h cells; r ← absRows h rest; Ok (rw :: r)
  end.

Definition absBoard (h : Heap) (bl : loc) : res Board :=
  rows ← gridAt h bl; absRows h rows.

(** Building a heap board from a value, row by row. *)
Fixpoint allocCells (h : Heap) (rw : Row) : Heap * list (option loc) :=
  match rw with
  | [] => (h, [])
  | None :: rest => let r := allocCells h rest in (r.1, None :: r.2)
  | Some p :: rest =>
      let a := alloc h (OPiece p) in
      let r := allocCells a.1 rest in (r.1, Some a.2 :: r.2)
  end.

Fixpoint allocRows (h : Heap) (b : Board) : Heap * list loc :=
  match b with
  | [] => (h, [])
  | rw :: rest =>
      let c := allocCells h rw in
      let a := alloc c.1 (ORow c.2) in
      let r := allocRows a.1 rest in (r.1, a.2 :: r.2)
  end.

Definition allocBoard (h : Heap) (b : Board) : Heap * loc :=
  let r := allocRows h b in alloc r.1 (OGrid r.2).

(** Every object of [h0] is still there, unchanged, in [h]. *)
Definition extends (h0 h : Heap) : Prop :=
  ∀ l o, h0 !! l = Some o → h !! l = Some o.

(** Everything reachable from the board at [nb] was allocated at or after
    location [n]. *)
Definition ownedCells (n : nat) (cells : list (option loc)) : Prop :=
  ∀ l, Some l ∈ cells → (n ≤ l)%nat.

Definition owned (n : nat) (h : Heap) (nb : loc) : Prop :=
  (n ≤ nb)%nat
  ∧ ∃ rows, h !! nb = Some (OGrid rows)
      ∧ ∀ rl, rl ∈ rows →
          (n ≤ rl)%nat ∧ ∃ cells, h !! rl = Some (ORow cells) ∧ ownedCells n cells.

(** The board at [nb] shares no object with the heap [h0] it was cloned
    from, and [h0]'s objects are unchanged in [h]. *)
Definition separated (h0 h : Heap) (nb : loc) : Prop :=
  extends h0 h ∧ owned (length h0) h nb.

(** *** Relating heap boards to board values *)

(** A reference stands for an optional piece value. *)
Definition cellRepr (h : Heap) (ref : option loc) (o : option Piece) : Prop :=
  match ref with
  | None => o = None
  | Some l => ∃ p, h !! l = Some (OPiece p) ∧ o = Some p
  end.

Definition rowRepr (h : Heap) (rl : loc) (rw : Row) : Prop :=
  ∃ cells, h !! rl = Some (ORow cells) ∧ Forall2 (cellRepr h) cells rw.

(** The board object at [nb] stands for [b], and its rows are distinct
    objects. *)
Definition boardRepr (h : Heap) (nb : loc) (b : Board) : Prop :=
  ∃ rows, h !! nb = Some (OGrid rows) ∧ NoDup rows ∧ Forall2 (rowRepr h) rows b.

(** No piece object is referred to from two cells of the board at [nb]. *)
Definition refsUnique (h : Heap) (nb : loc) : Prop :=
  ∀ rows i i' rl rl' cells cells' j j' l,
    h !! nb = Some (OGrid rows) →
    rows !! i = Some rl → rows !! i' = Some rl' →
    h !! rl = Some (ORow cells) → h !! rl' = Some (ORow cells') →
    cells !! j = Some (Some l) → cells' !! j' = Some (Some l) →
    i = i' ∧ j = j'.

(** Two runs end alike: both with related results, or both with the same
    error. *)
Inductive resRel {A B : Type} (R : A → B → Prop) : res A → res B → Prop :=
  | resRel_Ok a b : R a b → resRel R (Ok a) (Ok b)
  | resRel_TypeError : resRel R TypeError TypeError
  | resRel_OffGrid : resRel R OffGrid OffGrid.

(** ** Auxiliary notions used in the statements *)

(** The square a move attacks, in the words of the specification: for en
    passant the square behind the destination, seen from the attacker's
    side; otherwise the destination itself. *)
Definition defenderSquareOf (attacker : Piece) (move : Move) : Square :=
  if decide (special move = Some EnPassant)
  then mkSquare (captureRowOf (color attacker) move) (col (sq move))
  else sq move.

(** A move of a piece of colour [c] whose every board write lands on the
    8x8 grid: the destination, the en-passant capture square, and the two
    rook columns of a castle. *)
Definition moveOnGrid (c : PieceColor) (m : Move) : bool :=
  inBounds (row (sq m)) (col (sq m))
  && (if decide (special m = Some EnPassant)
      then inBounds (captureRowOf c m) (col (sq m)) else true)
  && match special m, rookFromCol m, rookToCol m with
     | Some Castle, Some rookFrom, Some rookTo =>
         inBounds (row (sq m)) rookFrom && inBounds (row (sq m)) rookTo
     | _, _, _ => true
     end.

(** The invariant of the data model: [0 < hp <= maxHp] for every piece on
    the board. *)
Definition hpOk (p : Piece) : Prop := 0 < hp p ≤ maxHp p.

Definition boardHpOk (b : Board) : Prop :=
  ∀ r c p, cell b r c = Some p → hpOk p.

(** [s] holds a king of colour [c]. *)
Definition kingOn (b : Board) (c : PieceColor) (s : Square) : Prop :=
  ∃ p, cellAt b s = Some p ∧ color p = c ∧ type p = King.

(** Some piece of colour [by_] has [target] in its attack map, i.e. among
    the squares [getPseudoMoves] lists for it in attack-map mode. *)
Definition attackedBy (b : Board) (by_ : PieceColor) (target : Square) : Prop :=
  ∃ r c attacker move,
    cell b r c = Some attacker ∧ color attacker = by_
    ∧ move ∈ getPseudoMoves None b r c attacker true
    ∧ sq move = target.

(** How many squares a walk from [(r, c)] in direction [(dr, dc)] can still
    visit before it leaves the board. *)
Definition stepsToEdge (dr dc r c : Z) : Z :=
  if dr =? 1 then 8 - r
  else if dr =? -1 then r + 1
  else if dc =? 1 then 8 - c
  else c + 1.

(** Some piece of colour [c] has a non-empty legal-move list. *)
Definition canMove (lm : option LastMove) (b : Board) (c : PieceColor) : Prop :=
  ∃ s piece ms,
    cellAt b s = Some piece ∧ color piece = c
    ∧ getLegalMoves lm b s = Ok ms ∧ ms ≠ [].

(** The conditions under which castling towards the rook of [side] is
    offered to a king standing on column [kingCol] of row [r], in the words
    of the specification: not attack-map generation, king unmoved and not
    in check, an unmoved rook of the king's colour on the rook column, every
    square strictly between king and rook empty, and neither of the two
    squares the king passes through (the destination included) attacked by
    the opponent. *)
Definition castleOfferStated (b : Board) (r kingCol : Z) (king : Piece)
    (side : CastleSide) (forAttackMap : bool) : Prop :=
  let toward := if kingCol <? rookCol side then 1 else -1 in
  forAttackMap = false
  ∧ moved king = false
  ∧ isKingInCheck b (color king) = false
  ∧ (∃ rook, cell b r (rookCol side) = Some rook ∧ type rook = Rook
             ∧ color rook = color king ∧ moved rook = false)
  ∧ (∀ c, Z.min kingCol (rookCol side) < c < Z.max kingCol (rookCol side) →
          cell b r c = None)
  ∧ (∀ c, c = kingCol + toward ∨ c = kingCol + 2 * toward →
          ¬ attackedBy b (enemyOf (color king)) (mkSquare r c)).

(** ** Concrete positions *)

Definition emptyBoard : Board := replicate 8 (replicate 8 None).

Definition place (b : Board) (r c : Z) (p : Piece) : Board :=
  alter (λ rw : Row, <[Z.to_nat c := Some p]> rw) (Z.to_nat r) b.

(** The board holding exactly the listed pieces, each given as
    [(row, column, piece)]. *)
Definition boardOf (pieces : list (Z * Z * Piece)) : Board :=
  foldr (λ x b, place b x.1.1 x.1.2 x.2) emptyBoard pieces.

Definition sceneOf (b : Board) (side : PieceColor) (lm : option LastMove) : Scene :=
  {| board := b; turn := side; gameState := Active; selected := None;
     legalMoves := []; lastMove := lm; isResolvingMove := false |}.

Definition wfBoardb (b : Board) : bool :=
  (length b =? 8)%nat && forallb (λ rw : Row, (length rw =? 8)%nat) b.

(** Kings on e1 and e8; a white knight on c3 facing a black pawn on d5; a
    white pawn on g4 facing a black rook on h5. *)
Definition skirmishBoard : Board :=
  boardOf [ (7, 4, createPiece White King); (0, 4, createPiece Black King);
            (5, 2, createPiece White Knight); (3, 3, createPiece Black Pawn);
            (4, 6, createPiece White Pawn); (3, 7, createPiece Black Rook) ].

(** A white rook on e2 pinned to its king on e1 by the black rook on e8. *)
Definition pinBoard : Board :=
  boardOf [ (7, 4, createPiece White King); (0, 0, createPiece Black King);
            (6, 4, createPiece White Rook); (0, 4, createPiece Black Rook) ].

Definition boardHpOkb (b : Board) : bool :=
  forallb (forallb (λ o : option Piece,
                      match o with
                      | Some p => (0 <? hp p) && (hp p <=? maxHp p)
                      | None => true
                      end)) b.

(** The white king on e1 facing the black rook on e8 along the open file. *)
Definition openFileBoard : Board :=
  boardOf [ (7, 4, createPiece White King); (0, 0, createPiece Black King);
            (0, 4, createPiece Black Rook) ].

(** A white pawn on c7 next to a black bishop on d8 that is down to its last
    hit point. *)
Definition promotionBoard : Board :=
  boardOf [ (7, 4, createPiece White King); (0, 7, createPiece Black King);
            (1, 2, createPiece White Pawn);
            (0, 3, {| color := Black; type := Bishop; moved := true;
                      hp := 1; maxHp := 3 |}) ].

(** Black to move with a pawn still on d7; a white pawn stands on e5. *)
Definition enPassantBoard : Board :=
  boardOf [ (7, 4, createPiece White King); (0, 4, createPiece Black King);
            (3, 4, createPiece White Pawn); (1, 3, createPiece Black Pawn) ].

(** The scene after Black has answered d7-d5. *)
Definition enPassantScene : Scene :=
  match commitMove (sceneOf enPassantBoard Black None) (mkSquare 1 3) (plainMove 3 3) with
  | Ok s => s
  | _ => sceneOf enPassantBoard Black None
  end.

(** White to move: rook on a1, king on e1; the black king on h8 is shut in
    behind its pawns on f7, g7 and h7. *)
Definition backRankBoard : Board :=
  boardOf [ (7, 4, createPiece White King); (7, 0, createPiece White Rook);
            (0, 7, createPiece Black King); (1, 5, createPiece Black Pawn);
            (1, 6, createPiece Black Pawn); (1, 7, createPiece Black Pawn) ].

(** The scene after White has played Ra1-a8. *)
Definition backRankScene : Scene :=
  match commitMove (sceneOf backRankBoard White None) (mkSquare 7 0) (plainMove 0 0) with
  | Ok s => s
  | _ => sceneOf backRankBoard White None
  end.



(** [skirmishBoard] laid out on an empty heap. *)
Definition skirmishHeap : Heap * loc := allocBoard [] skirmishBoard.

(** The heap and the returned board after simulating the knight's capture
    on d5. *)
Definition skirmishSimHeap : Heap :=
  match simulateResolvedBoardH skirmishHeap.1 skirmishHeap.2 (mkSquare 5 2)
          (plainMove 3 3) with
  | Ok r => r.1
  | _ => []
  end.

Definition skirmishSimBoard : loc :=
  match simulateResolvedBoardH skirmishHeap.1 skirmishHeap.2 (mkSquare 5 2)
          (plainMove 3 3) with
  | Ok r => r.2
  | _ => 0%nat
  end.

(** The board the value model computes for the same capture. *)
Definition skirmishSimulated : Board :=
  match simulateResolvedBoard skirmishBoard (mkSquare 5 2) (plainMove 3 3) with
  | Ok b => b
  | _ => skirmishBoard
  end.

(** ** Where generated moves land *)

(** What stands on the destination of a move that is not special: nothing,
    or a piece of the other colour. *)
Definition landsFree (b : Board) (own : PieceColor) (m : Move) : Prop :=
  special m = None
  ∧ (cellAt b (sq m) = None
     ∨ ∃ t, cellAt b (sq m) = Some t ∧ color t ≠ own).

(** ** Pointer input

    [onPointerDown] turns the pointer position into a row and a column with
    two [Math.floor] calls and hands a pair that is on the board to
    [handleSquareClick].  That pair is the input here: two integers, or
    [None] when the quotients are not finite (a cell size of zero); a pair
    that is not on the board clears the selection either way.

    A click on a destination of the selected piece starts [commitMove].  When
    the move is an attack the commit suspends in its animation; until it
    resumes [isResolvingMove] is set and [onPointerDown] returns at once, and
    nothing else writes the rules state.  A pointer event that arrives in
    between is dropped, and the commit is taken to its end within the click
    that starts it: [play] runs the events that are not dropped this way.
    [render] only draws and is left out. *)

(** [this.selected = sel; this.legalMoves = moves] *)
Definition withSelection (s : Scene) (sel : option Square) (moves : list Move)
    : Scene :=
  {| board := board s; turn := turn s; gameState := gameState s;
     selected := sel; legalMoves := moves;
     lastMove := lastMove s; isResolvingMove := isResolvingMove s |}.

Definition handleSquareClick (s : Scene) (r c : Z) : res Scene :=
  clickedPiece ← readCell (board s) r c;
  let selectedMove :=
    match selected s with
    | Some _ =>
        find (λ move, bool_decide (row (sq move) = r)
                      && bool_decide (col (sq move) = c))
             (legalMoves s)
    | None => None
    end in
  match selected s, selectedMove with
  | Some sel, Some move => commitMove s sel move
  | _, _ =>
      match clickedPiece with
      | Some p =>
          if decide (color p = turn s) then
            moves ← getLegalMoves (lastMove s) (board s) (mkSquare r c);
            Ok (withSelection s (Some (mkSquare r c)) moves)
          else Ok (withSelection s None [])
      | None => Ok (withSelection s None [])
      end
  end.

Definition onPointerDown (s : Scene) (pointed : option (Z * Z)) : res Scene :=
  if negb (bool_decide (gameState s = Active)) || isResolvingMove s then Ok s
  else
    match pointed with
    | Some (r, c) =>
        if negb (inBounds r c) then Ok (withSelection s None [])
        else handleSquareClick s r c
    | None => Ok (withSelection s None [])
    end.

(** The scene after a sequence of pointer events. *)
Fixpoint play (s : Scene) (clicks : list (option (Z * Z))) : res Scene :=
  match clicks with
  | [] => Ok s
  | pointed :: rest => s' ← onPointerDown s pointed; play s' rest
  end.

(** *** What holds of every scene of a game *)

(** The selection shown is a piece of the side to move together with its
    legal moves. *)
Definition selectionOk (s : Scene) : Prop :=
  match selected s with
  | None => legalMoves s = []
  | Some sel =>
      ∃ p, cellAt (board s) sel = Some p ∧ color p = turn s
           ∧ getLegalMoves (lastMove s) (board s) sel = Ok (legalMoves s)
  end.

(** A piece on square [(r, c)]: hit points within the maximum of its kind,
    no pawn on the first or last row, a king at full health, and a piece that
    has not moved on the square where the initial position has it. *)
Definition pieceOk (r c : Z) (p : Piece) : Prop :=
  0 < hp p ≤ maxHp p
  ∧ maxHp p = PIECE_HP (type p)
  ∧ (type p = Pawn → 1 ≤ r ≤ 6)
  ∧ (type p = King → hp p = PIECE_HP King)
  ∧ (moved p = false →
     cell createInitialBoard r c = Some (createPiece (color p) (type p))).

Definition oneKing (b : Board) (c : PieceColor) : Prop :=
  ∃ k, kingOn b c k ∧ ∀ k', kingOn b c k' → k' = k.

(** The stored last move was made by the side that is not to move, and after
    a double pawn step the pawn stands where the record says. *)
Definition lastMoveOk (s : Scene) : Prop :=
  ∀ l, lastMove s = Some l →
    color (lmPiece l) = enemyOf (turn s)
    ∧ (wasDoublePawnStep l = true →
       cellAt (board s) (lmTo l) = Some (lmPiece l)).

(** The stored status is the one [evaluateGameState] computes. *)
Definition statusOk (s : Scene) : Prop :=
  ∃ x, hasAnyLegalMove (lastMove s) (board s) (turn s) = Ok x
       ∧ gameState s
         = if x then Active
           else if isKingInCheck (board s) (turn s) then Checkmate else Stalemate.

Record sceneOk (s : Scene) : Prop := mkSceneOk {
  ok_wf : wfBoard (board s);
  ok_idle : isResolvingMove s = false;
  ok_pieces : ∀ r c p, cell (board s) r c = Some p → pieceOk r c p;
  ok_kings : ∀ c, oneKing (board s) c;
  ok_safe : isKingInCheck (board s) (enemyOf (turn s)) = false;
  ok_last : lastMoveOk s;
  ok_status : statusOk s;
  ok_started : gameState s ≠ Active → lastMove s ≠ None;
  ok_selection : selectionOk s
}.

(** ** Piece textures

    [buildOutlinedMask] turns the mask of a piece into the 16x16 picture
    [createPieceTextures] paints: ['F'] on the cells of the shape, ['O'] on
    the cells around it, ['.'] elsewhere.  A string is the list of its
    characters; the masks are ASCII, and [toUpperCase] is modelled on ASCII
    characters. *)

Abbreviation Pixels := (list (list ascii)).

(** [ch.toUpperCase()] for an ASCII character. *)
Definition toUpperCase (ch : ascii) : ascii :=
  let n := nat_of_ascii ch in
  if (97 <=? n)%nat && (n <=? 122)%nat then ascii_of_nat (n - 32) else ch.

(** [s.padEnd(n, fill)] for a one-character [fill]. *)
Definition padEnd (n : nat) (fill : ascii) (s : list ascii) : list ascii :=
  s ++ replicate (n - length s) fill.

(** [(mask[row] ?? '').toUpperCase().replace(/[^X]/g, '.').padEnd(16, '.').slice(0, 16)] *)
Definition normalizeRow (mask : Pixels) (row : nat) : list ascii :=
  take 16
    (padEnd 16 "."
       ((λ ch, if Ascii.eqb ch "X" then "X" else ".")%char
          <$> (toUpperCase <$> default [] (mask !! row)))).

(** [grid[row][col]] for a grid of booleans, read as a condition. *)
Definition truthy (grid : list (list bool)) (row col : nat) : bool :=
  default false (grid !! row ≫= (.!! col)).

(** [grid[row][col] = v] *)
Definition setCell {A} (grid : list (list A)) (row col : nat) (v : A)
    : list (list A) :=
  alter (<[col := v]>) row grid.

(** [for (row = 0; row < 16; row++) for (col = 0; col < 16; col++)
      if (cond(row, col)) grid[row][col] = v] *)
Definition paintWhere {A} (cond : nat → nat → bool) (v : A)
    (grid : list (list A)) : list (list A) :=
  foldl (λ g row,
           foldl (λ g col, if cond row col then setCell g row col v else g)
                 g (seq 0 16))
        grid (seq 0 16).

(** The [touchingSolid] flag after the two loops over [dr] and [dc]; the
    loops stop at the first solid neighbour. *)
Definition touchingSolid (solid : list (list bool)) (row col : nat) : bool :=
  existsb (λ dr,
    existsb (λ dc,
      let nextRow := Z.of_nat row + dr in
      let nextCol := Z.of_nat col + dc in
      (0 <=? nextRow) && (nextRow <? 16) && (0 <=? nextCol) && (nextCol <? 16)
      && truthy solid (Z.to_nat nextRow) (Z.to_nat nextCol))
      [-1; 0; 1])
    [-1; 0; 1].

Definition buildOutlinedMask (mask : Pixels) : Pixels :=
  let normalized := normalizeRow mask <$> seq 0 16 in
  let solid := (λ row, (λ cell, Ascii.eqb cell "X"%char) <$> row) <$> normalized in
  let outlined := replicate 16 (replicate 16 "."%char) in
  let outlined := paintWhere (truthy solid) "F"%char outlined in
  let outlined :=
    paintWhere (λ row col, negb (truthy solid row col) && touchingSolid solid row col)
               "O"%char outlined in
  outlined.

(** The mask has a mark at [(row, col)]: an ['X'], in either case, within
    the first 16 rows and columns. *)
Definition marked (mask : Pixels) (row col : nat) : Prop :=
  (row < 16)%nat ∧ (col < 16)%nat
  ∧ ∃ ch, mask !! row ≫= (.!! col) = Some ch ∧ (ch = "X" ∨ ch = "x")%char.

Definition isAscii (ch : ascii) : Prop := (nat_of_ascii ch < 128)%nat.

#[global] Instance isAscii_dec ch : Decision (isAscii ch).
Proof. unfold isAscii. apply _. Defined.

(** The pawn's mask of [PIECE_MASKS]. *)
Definition pawnMask : Pixels :=
  String.list_ascii_of_string <$>
    [ "......XX......"; ".....XXXX....."; ".....XXXX....."; "......XX......";
      ".....XXXX....."; "....XXXXXX...."; "....XXXXXX...."; "...XXXXXXXX...";
      "...XXXXXXXX..."; "...XXXXXXXX..."; "..XXXXXXXXXX.."; "..XXXXXXXXXX..";
      "...XXXXXXXX..."; "....XXXXXX...."; "................"; "................" ].

(** A 16x16 grid. *)
Definition shape16 {A} (g : list (list A)) : Prop :=
  length g = 16%nat ∧ Forall (λ row, length row = 16%nat) g.

(** [marked] as a test. *)
Definition markedb (mask : Pixels) (row col : nat) : bool :=
  match mask !! row ≫= (.!! col) with
  | Some ch => Ascii.eqb (toUpperCase ch) "X"%char
  | None => false
  end.

(** ** Board layout and the status line

    Sizes and pointer positions are whole numbers of pixels; on these, as
    long as they stay below 2^53, the arithmetic of the source, done on JS
    numbers, is exact. *)

Inductive BoardMode := Desktop | Mobile.

Record Layout := mkLayout {
  boardX : Z;
  boardY : Z;
  boardSize : Z;
  cellSize : Z
}.

(** The geometry [layoutBoard] computes from [this.boardMode] and the size of
    the viewport, [this.scale.width] by [this.scale.height]. *)
Definition layoutBoard (boardMode : BoardMode) (width height : Z) : Layout :=
  let topSpace := 104 in
  let bottomSpace := 66 in
  let maxBoardByWidth := width - 40 in
  let maxBoardByHeight := height - topSpace - bottomSpace in
  let targetBoard := match boardMode with Desktop => 680 | Mobile => 440 end in
  let bounded :=
    Z.max 280 (Z.min targetBoard (Z.min maxBoardByWidth maxBoardByHeight)) in
  let cellSize := bounded / 8 in
  let boardSize := cellSize * 8 in
  {| boardX := (width - boardSize) / 2;
     boardY := (height - boardSize) / 2 + 12;
     boardSize := boardSize;
     cellSize := cellSize |}.

(** The row and column [onPointerDown] computes for a pointer at [(x, y)]:
    [Math.floor((y - boardY) / cellSize)] and the same for [x]; [None] when
    the cell size is zero and the quotients are not finite. *)
Definition pointerCell (l : Layout) (x y : Z) : option (Z * Z) :=
  if cellSize l =? 0 then None
  else Some ((y - boardY l) / cellSize l, (x - boardX l) / cellSize l).

(** The rectangle [drawBoard] fills for the square in [row] and [col]
    contains the pixel [(x, y)]. *)
Definition inSquareRect (l : Layout) (row col x y : Z) : Prop :=
  boardX l + col * cellSize l ≤ x < boardX l + col * cellSize l + cellSize l
  ∧ boardY l + row * cellSize l ≤ y < boardY l + row * cellSize l + cellSize l.

(** U+2022, the bullet of the status line, in UTF-8. *)
Definition bullet : string :=
  String (ascii_of_nat 226) (String (ascii_of_nat 128)
    (String (ascii_of_nat 162) EmptyString)).

Definition colorName (c : PieceColor) : string :=
  match c with White => "White" | Black => "Black" end.

(** The text [updateStatus] puts on the status line. *)
Definition statusText (s : Scene) : string :=
  let currentTurn := colorName (turn s) in
  match gameState s with
  | Checkmate =>
      let winner := colorName (enemyOf (turn s)) in
      "Checkmate " +:+ bullet +:+ " " +:+ winner +:+ " wins"
  | Stalemate => "Stalemate"
  | Active =>
      if isKingInCheck (board s) (turn s)
      then currentTurn +:+ " to move " +:+ bullet +:+ " Check"
      else currentTurn +:+ " to move"
  end.

(** *** Concrete games *)

(** Selecting the pawn on e2. *)
Definition selectClicks : list (option (Z * Z)) := [Some (6, 4)].

Definition selectScene : Scene :=
  match play resetGame selectClicks with Ok s => s | _ => resetGame end.

(** 1. e4: the selection followed by a click on e4. *)
Definition pawnClicks : list (option (Z * Z)) := [Some (6, 4); Some (4, 4)].

Definition pawnScene : Scene :=
  match play resetGame pawnClicks with Ok s => s | _ => resetGame end.

(** 1. e4 a6 2. e5 d5: the white pawn on e5 may take en passant on d6. *)
Definition enPassantClicks : list (option (Z * Z)) :=
  [Some (6, 4); Some (4, 4); Some (1, 0); Some (2, 0);
   Some (4, 4); Some (3, 4); Some (1, 3); Some (3, 3)].

Definition enPassantGame : Scene :=
  match play resetGame enPassantClicks with Ok s => s | _ => resetGame end.

(** 1. f3 e5 2. g4 Qh4: fool's mate. *)
Definition foolsMateClicks : list (option (Z * Z)) :=
  [Some (6, 5); Some (5, 5); Some (1, 4); Some (3, 4);
   Some (6, 6); Some (4, 6); Some (0, 3); Some (4, 7)].

Definition foolsMate : Scene :=
  match play resetGame foolsMateClicks with Ok s => s | _ => resetGame end.

(** 1. e4 e5 2. Ke2: the white king has left its square. *)
Definition kingWalkClicks : list (option (Z * Z)) :=
  [Some (6, 4); Some (4, 4); Some (1, 4); Some (3, 4); Some (7, 4); Some (6, 4)].

Definition kingWalk : Scene :=
  match play resetGame kingWalkClicks with Ok s => s | _ => resetGame end.

(** ... 2... d6 3. Ke1: the king is back on e1. *)
Definition kingBackClicks : list (option (Z * Z)) :=
  [Some (1, 3); Some (2, 3); Some (6, 4); Some (7, 4)].

Definition kingBack : Scene :=
  match play kingWalk kingBackClicks with Ok s => s | _ => resetGame end.
(** * Properties *)

(** ** The board as an array *)

Lemma bind_Ok {A B} (m : res A) (f : A → res B) (y : B) :
  m ≫= f = Ok y ↔ ∃ a, m = Ok a ∧ f a = Ok y.
Proof.
  split.
  - destruct m as [a| |]; simpl; try discriminate. intros H. by exists a.
  - intros (a & -> & H). exact H.
Qed.

(** Splits every hypothesis that a chain of steps succeeded into its steps. *)
Ltac inv_ok :=
  repeat match goal with
         | H : _ ≫= _ = Ok _ |- _ =>
             apply bind_Ok in H; destruct H as (? & ? & H)
         | H : Ok _ = Ok _ |- _ => injection H as H; try subst
         | H : TypeError = Ok _ |- _ => discriminate H
         | H : OffGrid = Ok _ |- _ => discriminate H
         | H : mret _ = Ok _ |- _ => injection H as H; try subst
         end.

Lemma copyPiece_id p : copyPiece p = p.
Proof. by destruct p. Qed.

Lemma cloneBoard_id b : cloneBoard b = b.
Proof.
  unfold cloneBoard. rewrite <- (list_fmap_id b) at 2.
  apply list_fmap_ext. intros _ rw _. rewrite <- (list_fmap_id rw) at 2.
  apply list_fmap_ext. intros _ [p|] _; simpl; [by rewrite copyPiece_id | done].
Qed.

Lemma inBounds_spec r c : inBounds r c = true ↔ 0 <= r < 8 ∧ 0 <= c < 8.
Proof. unfold inBounds. rewrite !andb_true_iff. lia. Qed.

Lemma readCell_Ok b r c x : readCell b r c = Ok x → x = cell b r c.
Proof.
  unfold readCell, cell, slot. destruct (0 <=? r) eqn:Hr; [|done].
  destruct (b !! Z.to_nat r) as [rw|] eqn:Hrow; [|done].
  intros [= <-]. simpl. by destruct (0 <=? c).
Qed.

Lemma wfBoard_row b r :
  wfBoard b → 0 <= r < 8 → ∃ rw, b !! Z.to_nat r = Some rw ∧ length rw = 8%nat.
Proof.
  intros [Hlen Hall] Hr.
  destruct (lookup_lt_is_Some_2 b (Z.to_nat r)) as [rw Hrw]; [lia|].
  exists rw. split; [done|]. by eapply (Forall_lookup_1 _ _ _ _ Hall Hrw).
Qed.

Lemma readCell_wf b r c :
  wfBoard b → 0 <= r < 8 → readCell b r c = Ok (cell b r c).
Proof.
  intros Hwf Hr. destruct (wfBoard_row b r Hwf Hr) as (rw & Hrw & _).
  unfold readCell, cell, slot. rewrite Hrw.
  replace (0 <=? r) with true by (symmetry; apply Z.leb_le; lia).
  simpl. by destruct (0 <=? c).
Qed.

(** A piece read from a well-formed board stands on one of its 64 squares. *)
Lemma cell_Some_inBounds b r c p :
  wfBoard b → cell b r c = Some p → inBounds r c = true.
Proof.
  intros [Hlen Hall]. unfold cell, slot.
  destruct (0 <=? r) eqn:Hr, (0 <=? c) eqn:Hc; simpl; try done.
  destruct (b !! Z.to_nat r) as [rw|] eqn:Hrw; simpl; [|done].
  destruct (rw !! Z.to_nat c) eqn:Hcl; simpl; [|done]. intros _.
  apply lookup_lt_Some in Hrw as Hlt.
  apply lookup_lt_Some in Hcl as Hlt'.
  rewrite (Forall_lookup_1 _ _ _ _ Hall Hrw) in Hlt'.
  apply inBounds_spec. apply Z.leb_le in Hr, Hc. lia.
Qed.

(** What a successful write leaves behind: the written cell holds the new
    value, every other cell is unchanged, and the shape is kept. *)
Lemma writeCell_slot b r c v b' r' c' :
  writeCell b r c v = Ok b' →
  slot b' r' c' = if decide (r' = r ∧ c' = c) then Some v else slot b r' c'.
Proof.
  unfold writeCell. destruct (0 <=? r) eqn:Hr; [|done].
  destruct (b !! Z.to_nat r) as [rw|] eqn:Hrow; [|done].
  destruct ((0 <=? c) && (c <? Z.of_nat (length rw))) eqn:Hc; [|done].
  intros [= <-]. apply andb_true_iff in Hc as [Hc1 Hc2].
  apply Z.leb_le in Hr, Hc1. apply Z.ltb_lt in Hc2.
  apply lookup_lt_Some in Hrow as Hlt.
  unfold slot. destruct ((0 <=? r') && (0 <=? c')) eqn:Hnn.
  - apply andb_true_iff in Hnn as [Hr' Hc']. apply Z.leb_le in Hr', Hc'.
    destruct (decide (Z.to_nat r' = Z.to_nat r)) as [Heq|Hne].
    + rewrite Heq, list_lookup_insert_eq by done. simpl.
      destruct (decide (Z.to_nat c' = Z.to_nat c)) as [Heqc|Hnec].
      * rewrite Heqc, list_lookup_insert_eq by lia.
        rewrite decide_True; [done | lia].
      * rewrite list_lookup_insert_ne by done.
        rewrite decide_False by lia. by rewrite Hrow.
    + rewrite list_lookup_insert_ne by done.
      rewrite decide_False; [done | lia].
  - rewrite decide_False; [done|].
    intros [-> ->]. apply andb_false_iff in Hnn as [H|H]; apply Z.leb_gt in H; lia.
Qed.

Lemma writeCell_cell b r c v b' r' c' :
  writeCell b r c v = Ok b' →
  cell b' r' c' = if decide (r' = r ∧ c' = c) then v else cell b r' c'.
Proof.
  intros H. unfold cell. rewrite (writeCell_slot _ _ _ _ _ r' c' H).
  by case_decide.
Qed.

Lemma writeCell_wf b r c v b' :
  writeCell b r c v = Ok b' → wfBoard b → wfBoard b'.
Proof.
  unfold writeCell. destruct (0 <=? r) eqn:Hr; [|done].
  destruct (b !! Z.to_nat r) as [rw|] eqn:Hrow; [|done].
  destruct ((0 <=? c) && (c <? Z.of_nat (length rw))) eqn:Hc; [|done].
  intros [= <-] [Hlen Hall]. split.
  - by rewrite length_insert.
  - apply Forall_insert; [done|]. rewrite length_insert.
    by eapply (Forall_lookup_1 _ _ _ _ Hall Hrow).
Qed.

Lemma writeCell_total b r c v :
  wfBoard b → inBounds r c = true → ∃ b', writeCell b r c v = Ok b'.
Proof.
  intros Hwf Hin. apply inBounds_spec in Hin as [Hr Hc].
  destruct (wfBoard_row b r Hwf Hr) as (rw & Hrw & Hl).
  unfold writeCell. rewrite Hrw, Hl.
  replace (0 <=? r) with true by (symmetry; apply Z.leb_le; lia).
  replace ((0 <=? c) && (c <? Z.of_nat 8)) with true; [eauto|].
  symmetry. apply andb_true_iff. split; [apply Z.leb_le | apply Z.ltb_lt]; lia.
Qed.

Lemma elem_of_allSquares s :
  s ∈ allSquares ↔ inBounds (row s) (col s) = true.
Proof.
  unfold allSquares. rewrite inBounds_spec. split.
  - intros H. apply list_elem_of_bind in H as (r & H & Hr).
    apply list_elem_of_bind in H as (c & H & Hc).
    apply list_elem_of_singleton in H as ->. simpl.
    apply elem_of_seqZ in Hr, Hc. lia.
  - intros [Hr Hc]. apply list_elem_of_bind. exists (row s). split.
    + apply list_elem_of_bind. exists (col s). split.
      * destruct s. simpl. apply list_elem_of_singleton. done.
      * apply elem_of_seqZ. lia.
    + apply elem_of_seqZ. lia.
Qed.

Lemma createInitialBoard_wf : wfBoard createInitialBoard.
Proof. split; [done|]. repeat constructor. Qed.

(** ** Simulation against commit *)

Lemma resolveCommit_board b from move p :
  readCell b (row from) (col from) = Ok (Some p) →
  simulateResolvedBoard b from move
  = (r ← resolveCommit b from move p; Ok (nextBoard r)).
Proof.
  intros Hread. unfold simulateResolvedBoard, resolveCommit.
  rewrite cloneBoard_id, Hread. simpl.
  destruct (getDefenderSquareForMove b move p) as [[ds|]| |]; simpl; try done.
  - destruct (readCell b (row ds) (col ds)) as [[d|]| |]; simpl; try done.
    + destruct (decide (color d ≠ color p)); simpl.
      * destruct (writeCell b (row ds) (col ds) _) as [b1| |]; simpl; try done.
        destruct (Z.max 0 (hp d - getPieceDamage (type p)) <=? 0); simpl; [|done].
        destruct (writeCell b1 (row ds) (col ds) None) as [b2| |]; simpl; try done.
        by destruct (movePieceWithPromotion b2 from move) as [[??]| |].
      * by destruct (movePieceWithPromotion b from move) as [[??]| |].
    + by destruct (movePieceWithPromotion b from move) as [[??]| |].
  - by destruct (movePieceWithPromotion b from move) as [[??]| |].
Qed.

Lemma evaluateGameState_frame s s' :
  evaluateGameState s = Ok s' →
  board s' = board s ∧ turn s' = turn s ∧ lastMove s' = lastMove s
  ∧ selected s' = selected s ∧ legalMoves s' = legalMoves s
  ∧ isResolvingMove s' = isResolvingMove s.
Proof. unfold evaluateGameState. intros H. inv_ok. by simpl. Qed.

(** The shape of a commit that went through: the resolution it stored. *)
Lemma commitMove_Ok s from move p s' :
  isResolvingMove s = false →
  readCell (board s) (row from) (col from) = Ok (Some p) →
  commitMove s from move = Ok s' →
  ∃ r, resolveCommit (board s) from move p = Ok r
       ∧ board s' = nextBoard r
       ∧ turn s' = enemyOf (turn s)
       ∧ lastMove s' = Some {| lmFrom := from; lmTo := lastMoveTo r;
                               lmPiece := nextPieceState r;
                               wasDoublePawnStep := resDoubleStep r |}
       ∧ isResolvingMove s' = false.
Proof.
  intros Hres Hread. unfold commitMove. rewrite Hres, Hread. simpl.
  intros H. inv_ok. exists x. split; [done|].
  match goal with H : evaluateGameState _ = Ok _ |- _ =>
    apply evaluateGameState_frame in H; simpl in H;
    destruct H as (-> & -> & -> & _) end.
  by simpl.
Qed.

(** C10. For a board whose origin square holds a piece, the legality
    filter's simulation and the commit path have the same outcome and, when
    they succeed, produce the same board, cell by cell and field by field;
    in particular the board a committed move stores is the simulated one. *)
Theorem C10_simulation_matches_commit :
  ∀ (b : Board) (from : Square) (move : Move) (p : Piece),
    readCell b (row from) (col from) = Ok (Some p) →
    simulateResolvedBoard b from move
    = (r ← resolveCommit b from move p; Ok (nextBoard r))
    ∧ ∀ s s', board s = b → isResolvingMove s = false →
              commitMove s from move = Ok s' →
              simulateResolvedBoard b from move = Ok (board s').
Proof.
  intros b from move p Hread. split; [by apply resolveCommit_board|].
  intros s s' <- Hres Hc.
  destruct (commitMove_Ok _ _ _ _ _ Hres Hread Hc) as (r & Hr & -> & _).
  by rewrite (resolveCommit_board _ _ _ _ Hread), Hr.
Qed.

Lemma C10_witness :
  readCell createInitialBoard 6 4 = Ok (Some (createPiece White Pawn))
  ∧ simulateResolvedBoard createInitialBoard (mkSquare 6 4) (plainMove 4 4)
    = (r ← resolveCommit createInitialBoard (mkSquare 6 4) (plainMove 4 4)
             (createPiece White Pawn);
       Ok (nextBoard r)).
Proof.
  split; [reflexivity|].
  apply (C10_simulation_matches_commit createInitialBoard (mkSquare 6 4)
           (plainMove 4 4) (createPiece White Pawn)).
  reflexivity.
Defined.

(** ** The simulation and commit paths stay on the grid *)

Lemma getDefenderSquareForMove_wf b move attacker :
  wfBoard b → inBounds (row (sq move)) (col (sq move)) = true →
  getDefenderSquareForMove b move attacker
  = Ok (match cellAt b (defenderSquareOf attacker move) with
        | Some d => if decide (color d ≠ color attacker)
                    then Some (defenderSquareOf attacker move) else None
        | None => None
        end).
Proof.
  intros Hwf Hin. unfold getDefenderSquareForMove, defenderSquareOf, cellAt.
  destruct (decide (special move = Some EnPassant)); simpl.
  - destruct (inBounds (captureRowOf _ _) _) eqn:Hcap; simpl.
    + apply inBounds_spec in Hcap as [Hr _]. rewrite readCell_wf by done. simpl.
      destruct (cell b _ _) as [d|]; [|done]. by destruct (decide _).
    + destruct (cell b _ _) as [d|] eqn:Hd; [|done].
      apply cell_Some_inBounds in Hd; [congruence | done].
  - apply inBounds_spec in Hin as [Hr _]. rewrite readCell_wf by done. simpl.
    destruct (sq move) as [tr tc]. simpl.
    destruct (cell b tr tc) as [d|]; [|done]. by destruct (decide _).
Qed.

Lemma moveOnGrid_target c m :
  moveOnGrid c m = true → inBounds (row (sq m)) (col (sq m)) = true.
Proof. unfold moveOnGrid. rewrite !andb_true_iff. tauto. Qed.

Lemma movePieceWithPromotion_total b from move :
  wfBoard b →
  0 <= row from < 8 →
  (∀ p, cellAt b from = Some p → moveOnGrid (color p) move = true) →
  ∃ r, movePieceWithPromotion b from move = Ok r ∧ wfBoard r.1.
Proof.
  intros Hwf Hfrom Hgrid. unfold movePieceWithPromotion.
  rewrite readCell_wf by done. simpl.
  destruct (cell b (row from) (col from)) as [p|] eqn:Hp; [|by eexists].
  specialize (Hgrid p Hp). unfold moveOnGrid in Hgrid.
  apply andb_true_iff in Hgrid as [Hgrid Hrook].
  apply andb_true_iff in Hgrid as [Htgt Hcap].
  destruct (writeCell_total b (row from) (col from) None Hwf) as [b1 Hb1];
    [by eapply cell_Some_inBounds|].
  rewrite Hb1. simpl. pose proof (writeCell_wf _ _ _ _ _ Hb1 Hwf) as Hwf1.
  assert (∃ b2, (if decide (special move = Some EnPassant)
                 then writeCell b1 (captureRowOf (color p) move) (col (sq move)) None
                 else Ok b1) = Ok b2 ∧ wfBoard b2) as (b2 & Hb2 & Hwf2).
  { destruct (decide _); [|by eexists].
    destruct (writeCell_total b1 _ _ None Hwf1 Hcap) as [b2 Hb2].
    exists b2. split; [done|]. by eapply writeCell_wf. }
  rewrite Hb2. simpl.
  destruct (writeCell_total b2 _ _ (Some (promoteIfLastRank (markMoved p) move))
              Hwf2 Htgt) as [b3 Hb3].
  rewrite Hb3. simpl. pose proof (writeCell_wf _ _ _ _ _ Hb3 Hwf2) as Hwf3.
  destruct (special move) as [[|]|]; try (by eexists).
  destruct (rookFromCol move) as [rf|]; try (by eexists).
  destruct (rookToCol move) as [rt|]; try (by eexists).
  apply andb_true_iff in Hrook as [Hrf Hrt].
  apply inBounds_spec in Htgt as Htgt'.
  rewrite readCell_wf by tauto. simpl.
  destruct (writeCell_total b3 _ _ None Hwf3 Hrf) as [b4 Hb4].
  rewrite Hb4. simpl. pose proof (writeCell_wf _ _ _ _ _ Hb4 Hwf3) as Hwf4.
  destruct (cell b3 _ rf) as [rk|]; [|by eexists].
  destruct (writeCell_total b4 _ _ (Some (markMoved rk)) Hwf4 Hrt) as [b5 Hb5].
  rewrite Hb5. simpl. eexists. split; [done|]. by eapply writeCell_wf.
Qed.

Lemma simulateResolvedBoard_total b from move :
  wfBoard b →
  0 <= row from < 8 →
  (∀ p, cellAt b from = Some p → moveOnGrid (color p) move = true) →
  ∃ b', simulateResolvedBoard b from move = Ok b' ∧ wfBoard b'.
Proof.
  intros Hwf Hfrom Hgrid. unfold simulateResolvedBoard.
  rewrite cloneBoard_id, readCell_wf by done. simpl.
  destruct (cell b (row from) (col from)) as [att|] eqn:Hatt; [|by eexists].
  pose proof (Hgrid att Hatt) as Hg.
  rewrite getDefenderSquareForMove_wf by eauto using moveOnGrid_target. simpl.
  set (ds := defenderSquareOf att move).
  assert (∃ r, movePieceWithPromotion b from move = Ok r ∧ wfBoard r.1)
    as (r0 & Hr0 & Hwf0) by (by apply movePieceWithPromotion_total).
  destruct (cellAt b ds) as [d|] eqn:Hd; simpl;
    [|rewrite Hr0; simpl; by eexists].
  pose proof (cell_Some_inBounds _ _ _ _ Hwf Hd) as Hin.
  destruct (decide (color d ≠ color att)) as [Hcol|Hcol]; simpl;
    [|rewrite Hr0; simpl; by eexists].
  apply inBounds_spec in Hin as Hin'.
  rewrite readCell_wf by tauto. simpl. fold (cellAt b ds). rewrite Hd.
  rewrite decide_True by done.
  destruct (writeCell_total b (row ds) (col ds)
              (Some (damaged d (getPieceDamage (type att)))) Hwf Hin) as [b1 Hb1].
  rewrite Hb1. simpl. pose proof (writeCell_wf _ _ _ _ _ Hb1 Hwf) as Hwf1.
  destruct (_ <=? 0); [|by eexists].
  destruct (writeCell_total b1 (row ds) (col ds) None Hwf1 Hin) as [b2 Hb2].
  rewrite Hb2. simpl. pose proof (writeCell_wf _ _ _ _ _ Hb2 Hwf1) as Hwf2.
  destruct (movePieceWithPromotion_total b2 from move Hwf2 Hfrom) as (r & Hr & Hwfr).
  { intros p Hp. apply Hgrid. rewrite <- Hp. unfold cellAt.
    rewrite (writeCell_cell _ _ _ _ _ (row from) (col from) Hb2).
    rewrite (writeCell_cell _ _ _ _ _ (row from) (col from) Hb1).
    case_decide as Heq; [|done].
    destruct Heq as [Hr Hc]. unfold cellAt in Hd. rewrite <- Hr, <- Hc, Hatt in Hd.
    congruence. }
  rewrite Hr. simpl. by eexists.
Qed.

(** ** Generated moves stay on the grid *)

Lemma moveOnGrid_plain c r' c' : moveOnGrid c (plainMove r' c') = inBounds r' c'.
Proof. unfold moveOnGrid. simpl. by rewrite !andb_true_r. Qed.

Lemma rayWalk_plain fuel b own r c dr dc m :
  m ∈ rayWalk fuel b own r c dr dc →
  ∃ r' c', m = plainMove r' c' ∧ inBounds r' c' = true.
Proof.
  revert r c. induction fuel as [|fuel IH]; intros r c; simpl.
  - by intros ?%elem_of_nil.
  - destruct (inBounds r c) eqn:Hin; [|by intros ?%elem_of_nil].
    destruct (cell b r c) as [t|].
    + destruct (decide _); [|by intros ?%elem_of_nil].
      intros ->%list_elem_of_singleton. eauto.
    + intros [->|H]%elem_of_cons; eauto.
Qed.

Lemma pawnAdvances_plain b r c p fam m :
  inBounds r c = true →
  m ∈ pawnAdvances b r c p fam →
  ∃ r' c', m = plainMove r' c' ∧ inBounds r' c' = true.
Proof.
  intros Hin%inBounds_spec. unfold pawnAdvances, pawnDirection.
  destruct (decide (color p = White)); intros H;
  (destruct (negb fam && inBounds _ c && _) eqn:Hg; [|by apply elem_of_nil in H]);
  (apply andb_true_iff in Hg as [Hg _]; apply andb_true_iff in Hg as [_ Hone]);
  (apply elem_of_cons in H as [->|H]; [eauto|]);
  (destruct (bool_decide (r = _) && _) eqn:Hs; [|by apply elem_of_nil in H]);
  apply list_elem_of_singleton in H as ->; do 2 eexists; (split; [done|]);
  apply andb_true_iff in Hs as [Hs%bool_decide_eq_true _];
  apply inBounds_spec; lia.
Qed.

Lemma pawnCaptures_plain b r c p fam m :
  m ∈ pawnCaptures b r c p fam →
  ∃ r' c', m = plainMove r' c' ∧ inBounds r' c' = true.
Proof.
  unfold pawnCaptures. rewrite list_elem_of_bind. intros (delta & H & _).
  destruct (negb (inBounds _ _)) eqn:Hg; [by apply elem_of_nil in H|].
  apply negb_false_iff in Hg.
  destruct fam.
  - apply list_elem_of_singleton in H as ->. eauto.
  - destruct (cell b _ _) as [t|]; [|by apply elem_of_nil in H].
    destruct (decide (color t ≠ _)); [|by apply elem_of_nil in H].
    apply list_elem_of_singleton in H as ->. eauto.
Qed.

(** When the pawn rule offers en passant, and which move it offers. *)
Lemma pawnEnPassant_elem lm b r c p fam m :
  m ∈ pawnEnPassant lm b r c p fam ↔
  fam = false
  ∧ ∃ l, lm = Some l ∧ wasDoublePawnStep l = true
         ∧ type (lmPiece l) = Pawn ∧ color (lmPiece l) ≠ color p
         ∧ row (lmTo l) = r ∧ Z.abs (col (lmTo l) - c) = 1
         ∧ inBounds (r + pawnDirection (color p)) (col (lmTo l)) = true
         ∧ cell b (r + pawnDirection (color p)) (col (lmTo l)) = None
         ∧ m = enPassantMove (r + pawnDirection (color p)) (col (lmTo l)).
Proof.
  unfold pawnEnPassant. split.
  - destruct lm as [l|]; [|by intros ?%elem_of_nil].
    destruct (negb fam && wasDoublePawnStep l) eqn:H1; [|by intros ?%elem_of_nil].
    destruct (_ && bool_decide (Z.abs _ = 1)) eqn:H2; [|by intros ?%elem_of_nil].
    destruct (inBounds _ _ && _) eqn:H3; [|by intros ?%elem_of_nil].
    intros ->%list_elem_of_singleton.
    apply andb_true_iff in H1 as [Hf%negb_true_iff Hw].
    apply andb_true_iff in H2 as [H2 Habs%bool_decide_eq_true].
    apply andb_true_iff in H2 as [H2 Hrow%bool_decide_eq_true].
    apply andb_true_iff in H2 as [Hty%bool_decide_eq_true Hcol%bool_decide_eq_true].
    apply andb_true_iff in H3 as [Hin Hempty%bool_decide_eq_true].
    split; [done|]. exists l. by repeat split.
  - intros (-> & l & -> & Hw & Hty & Hcol & Hrow & Habs & Hin & Hempty & ->).
    rewrite Hw, Hin. simpl.
    rewrite !bool_decide_eq_true_2 by done. simpl.
    apply list_elem_of_singleton. done.
Qed.

Lemma pawnMoves_onGrid lm b r c p fam m :
  inBounds r c = true →
  m ∈ pawnMoves lm b r c p fam → moveOnGrid (color p) m = true.
Proof.
  intros Hin. unfold pawnMoves. rewrite !elem_of_app.
  intros [H|[H|H]].
  - apply pawnAdvances_plain in H as (r' & c' & -> & H); [|done].
    by rewrite moveOnGrid_plain.
  - apply pawnCaptures_plain in H as (r' & c' & -> & H).
    by rewrite moveOnGrid_plain.
  - apply pawnEnPassant_elem in H as (_ & l & _ & _ & _ & _ & Hrow & _ & Hg & _ & ->).
    unfold moveOnGrid, enPassantMove, captureRowOf. simpl. rewrite Hg. simpl.
    rewrite andb_true_r. apply inBounds_spec.
    apply inBounds_spec in Hin, Hg. revert Hg.
    unfold pawnDirection. destruct (decide (color p = White)); lia.
Qed.

Lemma knightMoves_plain b r c p m :
  m ∈ knightMoves b r c p → ∃ r' c', m = plainMove r' c' ∧ inBounds r' c' = true.
Proof.
  unfold knightMoves. rewrite list_elem_of_bind. intros (j & H & _).
  destruct (negb (inBounds _ _)) eqn:Hg; [by apply elem_of_nil in H|].
  apply negb_false_iff in Hg.
  destruct (cell b _ _) as [t|].
  - destruct (decide (color t ≠ _)); [|by apply elem_of_nil in H].
    apply list_elem_of_singleton in H as ->. eauto.
  - apply list_elem_of_singleton in H as ->. eauto.
Qed.

Lemma sliderMoves_plain b r c p m :
  m ∈ sliderMoves b r c p → ∃ r' c', m = plainMove r' c' ∧ inBounds r' c' = true.
Proof.
  unfold sliderMoves. rewrite list_elem_of_bind. intros (d & H & _).
  by eapply rayWalk_plain.
Qed.

Lemma kingSteps_plain b r c p m :
  m ∈ kingSteps b r c p → ∃ r' c', m = plainMove r' c' ∧ inBounds r' c' = true.
Proof.
  unfold kingSteps. rewrite list_elem_of_bind. intros (dr & H & _).
  apply list_elem_of_bind in H as (dc & H & _).
  destruct (bool_decide (dr = 0) && _); [by apply elem_of_nil in H|].
  destruct (negb (inBounds _ _)) eqn:Hg; [by apply elem_of_nil in H|].
  apply negb_false_iff in Hg.
  destruct (cell b _ _) as [t|].
  - destruct (decide (color t ≠ _)); [|by apply elem_of_nil in H].
    apply list_elem_of_singleton in H as ->. eauto.
  - apply list_elem_of_singleton in H as ->. eauto.
Qed.

Lemma castleFor_elem att b r p side m :
  m ∈ castleFor att b r p side → m = castleMove r side.
Proof.
  unfold castleFor. destruct (cell b r _) as [rk|]; [|by intros ?%elem_of_nil].
  destruct (_ || moved rk); [by intros ?%elem_of_nil|].
  destruct (existsb _ (passCols side)); [by intros ?%elem_of_nil|].
  destruct (negb _); [|by intros ?%elem_of_nil].
  by intros ->%list_elem_of_singleton.
Qed.

Lemma kingMoves_shape chk att b r c p fam m :
  m ∈ kingMoves chk att b r c p fam →
  (∃ r' c', m = plainMove r' c' ∧ inBounds r' c' = true)
  ∨ (∃ side, side ∈ castleSides ∧ m = castleMove r side).
Proof.
  unfold kingMoves. rewrite elem_of_app. intros [H|H].
  - left. by eapply kingSteps_plain.
  - right. destruct (_ && negb (chk b (color p))); [|by apply elem_of_nil in H].
    apply list_elem_of_bind in H as (side & H & Hs).
    exists side. split; [done|]. by eapply castleFor_elem.
Qed.

Lemma castleMove_onGrid c r side :
  0 <= r < 8 → side ∈ castleSides → moveOnGrid c (castleMove r side) = true.
Proof.
  intros Hr Hs. unfold castleSides in Hs.
  apply elem_of_cons in Hs as [->|Hs];
    [|apply list_elem_of_singleton in Hs as ->];
    unfold moveOnGrid, castleMove; simpl;
    rewrite !andb_true_iff, !inBounds_spec; lia.
Qed.

Lemma getPseudoMoves_onGrid lm b r c p fam m :
  inBounds r c = true →
  m ∈ getPseudoMoves lm b r c p fam → moveOnGrid (color p) m = true.
Proof.
  intros Hin. unfold getPseudoMoves, pseudoMovesBody.
  destruct (type p).
  - by apply pawnMoves_onGrid.
  - intros (r' & c' & -> & H)%sliderMoves_plain. by rewrite moveOnGrid_plain.
  - intros (r' & c' & -> & H)%knightMoves_plain. by rewrite moveOnGrid_plain.
  - intros (r' & c' & -> & H)%sliderMoves_plain. by rewrite moveOnGrid_plain.
  - intros (r' & c' & -> & H)%sliderMoves_plain. by rewrite moveOnGrid_plain.
  - intros [(r' & c' & -> & H)|(side & Hs & ->)]%kingMoves_shape.
    + by rewrite moveOnGrid_plain.
    + apply castleMove_onGrid; [|done]. apply inBounds_spec in Hin. tauto.
Qed.

(** In attack-map mode the generator is [attackMap], whatever the last move. *)
Lemma getPseudoMoves_attackMap lm b r c p :
  getPseudoMoves lm b r c p true = attackMap b r c p.
Proof.
  unfold getPseudoMoves, attackMap, pseudoMovesBody.
  destruct (type p); try done.
  unfold pawnMoves, pawnEnPassant. simpl. by destruct lm.
Qed.

(** ** The legality filter and the status scan return *)

Lemma filterLegal_total b from own pseudo :
  wfBoard b → 0 <= row from < 8 →
  (∀ m p, m ∈ pseudo → cellAt b from = Some p → moveOnGrid (color p) m = true) →
  ∃ ms, filterLegal b from own pseudo = Ok ms.
Proof.
  intros Hwf Hfrom. induction pseudo as [|m rest IH]; intros Hgrid; simpl.
  - by eexists.
  - destruct (simulateResolvedBoard_total b from m Hwf Hfrom) as (b' & Hb' & _).
    { intros p Hp. eapply Hgrid; [left|done]. }
    rewrite Hb'. simpl.
    destruct IH as [ms Hms]. { intros m' p Hm' Hp. eapply Hgrid; [by right|done]. }
    rewrite Hms. simpl. by eexists.
Qed.

Lemma getLegalMoves_total lm b from :
  wfBoard b → 0 <= row from < 8 → ∃ ms, getLegalMoves lm b from = Ok ms.
Proof.
  intros Hwf Hfrom. unfold getLegalMoves. rewrite readCell_wf by done. simpl.
  destruct (cell b (row from) (col from)) as [p|] eqn:Hp; [|by eexists].
  apply filterLegal_total; [done..|].
  intros m p' Hm Hp'. unfold cellAt in Hp'. rewrite Hp in Hp'. injection Hp' as <-.
  eapply getPseudoMoves_onGrid; [|done]. by eapply cell_Some_inBounds.
Qed.

Lemma anyLegalFrom_total lm b c squares :
  wfBoard b → ∃ x, anyLegalFrom lm b c squares = Ok x.
Proof.
  intros Hwf. induction squares as [|s rest IH]; simpl; [by eexists|].
  destruct (cellAt b s) as [p|] eqn:Hp; [|done].
  destruct (decide (color p = c)); [|done].
  destruct (getLegalMoves_total lm b s Hwf) as [ms Hms].
  { apply cell_Some_inBounds in Hp; [|done]. apply inBounds_spec in Hp. tauto. }
  rewrite Hms. simpl. destruct (0 <? length ms)%nat; [by eexists | done].
Qed.

Lemma evaluateGameState_total s :
  wfBoard (board s) → ∃ s', evaluateGameState s = Ok s'.
Proof.
  intros Hwf. unfold evaluateGameState, hasAnyLegalMove.
  destruct (anyLegalFrom_total (lastMove s) (board s) (turn s) allSquares Hwf)
    as [x Hx].
  rewrite Hx. simpl. by eexists.
Qed.

Lemma resolveCommit_total b from move p :
  wfBoard b → cellAt b from = Some p → moveOnGrid (color p) move = true →
  ∃ r, resolveCommit b from move p = Ok r ∧ wfBoard (nextBoard r).
Proof.
  intros Hwf Hp Hgrid.
  pose proof (cell_Some_inBounds _ _ _ _ Hwf Hp) as Hin.
  apply inBounds_spec in Hin as [Hr _].
  destruct (simulateResolvedBoard_total b from move Hwf Hr) as (b' & Hb' & Hwf').
  { intros p' Hp'. rewrite Hp in Hp'. by injection Hp' as <-. }
  rewrite (resolveCommit_board b from move p) in Hb'.
  - apply bind_Ok in Hb' as (r & Hr' & [= <-]). by exists r.
  - rewrite readCell_wf by done. by rewrite <- Hp.
Qed.

(** A move whose writes stay on the grid is committed: on an 8x8 board the
    commit of such a move from an occupied square returns a new scene. *)
Lemma commitMove_total s from move p :
  wfBoard (board s) → cellAt (board s) from = Some p →
  moveOnGrid (color p) move = true →
  ∃ s', commitMove s from move = Ok s'.
Proof.
  intros Hwf Hp Hgrid. unfold commitMove.
  destruct (isResolvingMove s); [by eexists|].
  pose proof (cell_Some_inBounds _ _ _ _ Hwf Hp) as Hin.
  apply inBounds_spec in Hin as [Hr _].
  rewrite readCell_wf by done. unfold cellAt in Hp. rewrite Hp. simpl.
  destruct (resolveCommit_total _ from move p Hwf Hp Hgrid) as (r & Hres & Hwfr).
  rewrite Hres. simpl.
  match goal with |- context [evaluateGameState ?s0] =>
    destruct (evaluateGameState_total s0 Hwfr) as [s' Hs'] end.
  rewrite Hs'. simpl. by eexists.
Qed.

(** ** The ray walk terminates within its fuel *)

Lemma rayWalk_fuel_irrelevant n m b own r c dr dc :
  dr = 1 ∨ dr = -1 ∨ dc = 1 ∨ dc = -1 →
  (inBounds r c = true →
   stepsToEdge dr dc r c <= Z.of_nat n ∧ stepsToEdge dr dc r c <= Z.of_nat m) →
  rayWalk n b own r c dr dc = rayWalk m b own r c dr dc.
Proof.
  intros Hd. revert m r c. induction n as [|n IH]; intros [|m] r c Hfuel; simpl;
    try done.
  - destruct (inBounds r c) eqn:Hin; [|done].
    apply inBounds_spec in Hin. specialize (Hfuel eq_refl).
    unfold stepsToEdge in Hfuel.
    destruct (dr =? 1), (dr =? -1), (dc =? 1); lia.
  - destruct (inBounds r c) eqn:Hin; [|done].
    apply inBounds_spec in Hin. specialize (Hfuel eq_refl).
    unfold stepsToEdge in Hfuel.
    destruct (dr =? 1), (dr =? -1), (dc =? 1); lia.
  - destruct (inBounds r c) eqn:Hin; [|done].
    destruct (cell b r c); [done|]. f_equal. apply IH.
    intros Hin'. specialize (Hfuel eq_refl).
    apply inBounds_spec in Hin, Hin'. unfold stepsToEdge in *.
    destruct (dr =? 1) eqn:E1; [lia|].
    destruct (dr =? -1) eqn:E2; [lia|].
    apply Z.eqb_neq in E1, E2.
    destruct (dc =? 1) eqn:E3; [lia|]. apply Z.eqb_neq in E3. lia.
Qed.

(** Fuel 8 is enough: more fuel never changes what a walk returns. *)
Lemma rayWalk_fuel n b own r c dr dc :
  dr = 1 ∨ dr = -1 ∨ dc = 1 ∨ dc = -1 → (8 ≤ n)%nat →
  rayWalk n b own r c dr dc = rayWalk 8 b own r c dr dc.
Proof.
  intros Hd Hn. apply rayWalk_fuel_irrelevant; [done|].
  intros Hin%inBounds_spec. unfold stepsToEdge.
  destruct (dr =? 1) eqn:E1; [lia|].
  destruct (dr =? -1) eqn:E2; [lia|].
  apply Z.eqb_neq in E1, E2.
  destruct (dc =? 1) eqn:E3; [lia|]. apply Z.eqb_neq in E3. lia.
Qed.

Lemma slideDirections_step t d :
  d ∈ slideDirections t → d.1 = 1 ∨ d.1 = -1 ∨ d.2 = 1 ∨ d.2 = -1.
Proof.
  unfold slideDirections. rewrite elem_of_app.
  intros [H|H]; destruct (decide _); try (by apply elem_of_nil in H);
    repeat (apply elem_of_cons in H as [->|H]; [simpl; lia|]);
    by apply elem_of_nil in H.
Qed.

(** So the sliding rule does not depend on the fuel chosen for its walks. *)
Lemma sliderMoves_fuel n b r c p :
  (8 ≤ n)%nat →
  (d ← slideDirections (type p);
   rayWalk n b (color p) (r + d.1) (c + d.2) d.1 d.2)
  = sliderMoves b r c p.
Proof.
  intros Hn. unfold sliderMoves. apply Forall_bind_ext, Forall_forall.
  intros d Hd. apply rayWalk_fuel; [|done]. by eapply slideDirections_step.
Qed.

(** ** Check detection *)

Lemma getKingSquare_Some b c k :
  getKingSquare b c = Some k →
  kingOn b c k ∧ inBounds (row k) (col k) = true.
Proof.
  unfold getKingSquare. intros [Hin Hk]%find_some.
  apply list_elem_of_In, elem_of_allSquares in Hin. split; [|done].
  unfold kingOn, cellAt. destruct (cell b (row k) (col k)) as [p|]; [|done].
  apply andb_true_iff in Hk as [Hc%bool_decide_eq_true Ht%bool_decide_eq_true].
  by exists p.
Qed.

Lemma getKingSquare_None b c k :
  getKingSquare b c = None → inBounds (row k) (col k) = true → ¬ kingOn b c k.
Proof.
  unfold getKingSquare. intros Hnone Hin (p & Hp & Hc & Ht).
  apply elem_of_allSquares, list_elem_of_In in Hin.
  pose proof (find_none _ _ Hnone k Hin) as Hk. simpl in Hk.
  unfold cellAt in Hp. rewrite Hp in Hk.
  by rewrite !bool_decide_eq_true_2 in Hk.
Qed.

Lemma kingOn_inBounds b c k :
  wfBoard b → kingOn b c k → inBounds (row k) (col k) = true.
Proof. intros Hwf (p & Hp & _). by eapply cell_Some_inBounds. Qed.

(** On an 8x8 board the scan finds a king whenever there is one. *)
Lemma getKingSquare_finds b c k :
  wfBoard b → kingOn b c k → ∃ k', getKingSquare b c = Some k'.
Proof.
  intros Hwf Hk. destruct (getKingSquare b c) as [k'|] eqn:E; [by eexists|].
  exfalso. eapply getKingSquare_None; eauto using kingOn_inBounds.
Qed.

Lemma isSquareAttacked_true b tr tc by_ :
  wfBoard b →
  isSquareAttacked b tr tc by_ = true ↔ attackedBy b by_ (mkSquare tr tc).
Proof.
  intros Hwf. unfold isSquareAttacked, attackedBy. rewrite existsb_exists. split.
  - intros (s & _ & H). destruct (cell b (row s) (col s)) as [a|] eqn:Ha; [|done].
    destruct (decide (color a ≠ by_)) as [|Hc]; [done|].
    apply existsb_exists in H as (move & Hm & Ht).
    apply andb_true_iff in Ht as [Hr%bool_decide_eq_true Hc'%bool_decide_eq_true].
    exists (row s), (col s), a, move. split; [done|].
    split; [by destruct (decide (color a = by_)) |].
    rewrite getPseudoMoves_attackMap. split; [by apply list_elem_of_In|].
    destruct (sq move). simpl in *. congruence.
  - intros (r & c & a & move & Ha & Hc & Hm & Ht).
    exists (mkSquare r c). split.
    + apply list_elem_of_In, elem_of_allSquares. by eapply cell_Some_inBounds.
    + simpl. rewrite Ha. rewrite decide_False by (intros ?; congruence).
      apply existsb_exists. exists move.
      rewrite getPseudoMoves_attackMap in Hm. split; [by apply list_elem_of_In|].
      rewrite Ht. simpl. by rewrite !bool_decide_eq_true_2.
Qed.

(** ** What the legality filter keeps *)

Lemma filterLegal_elem b from own pseudo ms m :
  filterLegal b from own pseudo = Ok ms →
  m ∈ ms ↔
  m ∈ pseudo ∧ ∃ b', simulateResolvedBoard b from m = Ok b'
                     ∧ isKingInCheck b' own = false.
Proof.
  revert ms. induction pseudo as [|m0 rest IH]; intros ms; simpl.
  - intros [= <-]. split; [by intros ?%elem_of_nil | by intros [?%elem_of_nil _]].
  - intros H. inv_ok. rename x into b0, x0 into kept.
    specialize (IH kept ltac:(done)).
    destruct (isKingInCheck b0 own) eqn:Hchk; simpl.
    + rewrite IH, elem_of_cons. split; [tauto|].
      intros [[->|Hin] (b' & Hb' & Hc)]; [congruence | eauto].
    + rewrite !elem_of_cons, IH. split.
      * intros [->|[Hin Hb]]; [eauto | tauto].
      * intros [[->|Hin] Hb]; [by left | right; tauto].
Qed.

Lemma movePieceWithPromotion_wf b from move r :
  movePieceWithPromotion b from move = Ok r → wfBoard b → wfBoard r.1.
Proof.
  unfold movePieceWithPromotion. intros H Hwf. inv_ok.
  destruct x as [p|]; [|by inv_ok]. inv_ok. simpl.
  rename x into b1, x0 into b2, x1 into b3, x2 into b4.
  assert (wfBoard b1) as Hwf1 by (by eapply writeCell_wf).
  assert (wfBoard b2) as Hwf2.
  { destruct (decide _); [by eapply writeCell_wf | by inv_ok]. }
  assert (wfBoard b3) as Hwf3 by (by eapply writeCell_wf).
  destruct (special move) as [[|]|]; [|by inv_ok..].
  destruct (rookFromCol move); [|by inv_ok].
  destruct (rookToCol move); [|by inv_ok].
  inv_ok. assert (wfBoard x0) as Hwf4 by (by eapply writeCell_wf).
  destruct x as [rk|]; [by eapply writeCell_wf | by inv_ok].
Qed.

Lemma simulateResolvedBoard_wf b from move b' :
  simulateResolvedBoard b from move = Ok b' → wfBoard b → wfBoard b'.
Proof.
  unfold simulateResolvedBoard. rewrite cloneBoard_id. intros H Hwf. inv_ok.
  destruct x as [att|]; [|by inv_ok]. inv_ok.
  assert (∀ r, movePieceWithPromotion b from move = Ok r → wfBoard r.1) as Hmv
    by (intros; by eapply movePieceWithPromotion_wf).
  destruct x as [ds|]; [|inv_ok; by apply Hmv].
  destruct x0 as [d|]; [|inv_ok; by apply Hmv].
  destruct (decide _); [|inv_ok; by apply Hmv].
  inv_ok. assert (wfBoard x) by (by eapply writeCell_wf).
  destruct (_ <=? 0); [|by inv_ok]. inv_ok.
  eapply movePieceWithPromotion_wf; [done|]. by eapply writeCell_wf.
Qed.

(** C1. On an 8x8 board the legal-move computation for an occupied square
    returns, and every move it returns, simulated with the combat rules,
    gives a board on which the mover's king (the one king of that colour) is
    in no opposing piece's attack map. *)
Theorem C1_legal_moves_leave_king_safe :
  ∀ (lm : option LastMove) (b : Board) (from : Square) (p : Piece),
    wfBoard b → cellAt b from = Some p →
    ∃ ms, getLegalMoves lm b from = Ok ms
      ∧ ∀ move, move ∈ ms →
          ∃ b', simulateResolvedBoard b from move = Ok b'
            ∧ ∀ k, kingOn b' (color p) k →
                   (∀ k', kingOn b' (color p) k' → k' = k) →
                   ¬ attackedBy b' (enemyOf (color p)) k.
Proof.
  intros lm b from p Hwf Hp.
  pose proof (cell_Some_inBounds _ _ _ _ Hwf Hp) as Hin.
  apply inBounds_spec in Hin as [Hr _].
  destruct (getLegalMoves_total lm b from Hwf Hr) as [ms Hms].
  exists ms. split; [done|]. intros move Hmove.
  unfold getLegalMoves in Hms. rewrite readCell_wf in Hms by done.
  unfold cellAt in Hp. rewrite Hp in Hms. simpl in Hms.
  apply (filterLegal_elem _ _ _ _ _ move) in Hms.
  apply Hms in Hmove as (_ & b' & Hb' & Hchk).
  exists b'. split; [done|]. intros k Hk Huniq Hatt.
  pose proof (simulateResolvedBoard_wf _ _ _ _ Hb' Hwf) as Hwf'.
  unfold isKingInCheck in Hchk.
  destruct (getKingSquare b' (color p)) as [k0|] eqn:Hk0.
  - apply getKingSquare_Some in Hk0 as [Hk0 _]. apply Huniq in Hk0 as ->.
    destruct k as [kr kc]. simpl in Hchk.
    apply (isSquareAttacked_true _ _ _ _ Hwf') in Hatt. congruence.
  - eapply getKingSquare_None; eauto using kingOn_inBounds.
Qed.

(** ** The hit-point invariant *)

Lemma cell_Some_elem b r c p :
  cell b r c = Some p → ∃ rw, rw ∈ b ∧ Some p ∈ rw.
Proof.
  unfold cell, slot. destruct ((0 <=? r) && (0 <=? c)); [|done].
  destruct (b !! Z.to_nat r) as [rw|] eqn:Hrw; [|done]. simpl.
  destruct (rw !! Z.to_nat c) as [o|] eqn:Ho; [|done]. simpl. intros ->.
  exists rw. split; by eapply list_elem_of_lookup_2.
Qed.

Lemma boardHpOk_Forall b :
  Forall (Forall (λ o, ∀ p, o = Some p → hpOk p)) b → boardHpOk b.
Proof.
  intros Hall r c p (rw & Hrw & Hp)%cell_Some_elem.
  rewrite Forall_forall in Hall. specialize (Hall rw Hrw).
  rewrite Forall_forall in Hall. by apply (Hall (Some p)).
Qed.

Lemma createPiece_hpOk c t : hpOk (createPiece c t).
Proof. unfold hpOk. destruct t; simpl; lia. Qed.

Lemma createInitialBoard_hpOk : boardHpOk createInitialBoard.
Proof.
  apply boardHpOk_Forall. cbv [createInitialBoard BACK_RANK replicate fmap list_fmap].
  repeat (apply Forall_cons; split); try (by apply Forall_nil);
    try (intros p; first [discriminate | intros [= <-]; apply createPiece_hpOk]).
Qed.

Lemma writeCell_hpOk b r c v b' :
  writeCell b r c v = Ok b' → boardHpOk b →
  (∀ p, v = Some p → hpOk p) → boardHpOk b'.
Proof.
  intros Hw Hb Hv r' c' p. rewrite (writeCell_cell _ _ _ _ _ r' c' Hw).
  case_decide; [apply Hv | apply Hb].
Qed.

(** A cell written twice only shows the second value. *)
Lemma writeCell_twice_hpOk b r c v b1 b2 :
  writeCell b r c v = Ok b1 → writeCell b1 r c None = Ok b2 →
  boardHpOk b → boardHpOk b2.
Proof.
  intros H1 H2 Hb r' c' p.
  rewrite (writeCell_cell _ _ _ _ _ r' c' H2), (writeCell_cell _ _ _ _ _ r' c' H1).
  case_decide; [done | apply Hb].
Qed.

Lemma markMoved_hpOk p : hpOk p → hpOk (markMoved p).
Proof. done. Qed.

Lemma promoteIfLastRank_hpOk p move : hpOk p → hpOk (promoteIfLastRank p move).
Proof.
  unfold promoteIfLastRank, hpOk. destruct (_ && _); [simpl|done]. lia.
Qed.

Lemma damaged_hpOk d damage :
  hpOk d → 0 <= damage → ¬ (hp (damaged d damage) <= 0) → hpOk (damaged d damage).
Proof. unfold hpOk, damaged. simpl. lia. Qed.

Lemma movePieceWithPromotion_hpOk b from move r :
  movePieceWithPromotion b from move = Ok r → boardHpOk b →
  boardHpOk r.1 ∧ hpOk r.2.
Proof.
  unfold movePieceWithPromotion. intros H Hb. inv_ok.
  destruct x as [p|]; [|inv_ok; split; [done | apply createPiece_hpOk]].
  inv_ok. simpl. rename x into b1, x0 into b2, x1 into b3, x2 into b4.
  assert (hpOk p) as Hp.
  { match goal with H : readCell _ _ _ = Ok _ |- _ =>
      apply readCell_Ok in H; symmetry in H; by apply Hb in H end. }
  assert (hpOk (promoteIfLastRank (markMoved p) move)) as Hmp
    by (by apply promoteIfLastRank_hpOk, markMoved_hpOk).
  split; [|done].
  assert (boardHpOk b1) as Hb1 by (eapply writeCell_hpOk; [done..|discriminate]).
  assert (boardHpOk b2) as Hb2.
  { destruct (decide _); [|by inv_ok].
    eapply writeCell_hpOk; [done..|discriminate]. }
  assert (boardHpOk b3) as Hb3.
  { eapply writeCell_hpOk; [done..|]. by intros ? [= <-]. }
  destruct (special move) as [[|]|]; [|by inv_ok..].
  destruct (rookFromCol move); [|by inv_ok].
  destruct (rookToCol move); [|by inv_ok].
  inv_ok. assert (boardHpOk x0) as Hb4
    by (eapply writeCell_hpOk; [done..|discriminate]).
  destruct x as [rk|]; [|by inv_ok].
  eapply writeCell_hpOk; [done..|]. intros ? [= <-]. apply markMoved_hpOk.
  match goal with H : readCell _ _ _ = Ok _ |- _ =>
    apply readCell_Ok in H; symmetry in H; by apply Hb3 in H end.
Qed.

Lemma getPieceDamage_nonneg t : 0 <= getPieceDamage t.
Proof. destruct t; simpl; lia. Qed.

Lemma simulateResolvedBoard_hpOk b from move b' :
  simulateResolvedBoard b from move = Ok b' → boardHpOk b → boardHpOk b'.
Proof.
  unfold simulateResolvedBoard. rewrite cloneBoard_id. intros H Hb. inv_ok.
  destruct x as [att|]; [|by inv_ok]. inv_ok.
  assert (∀ r, movePieceWithPromotion b from move = Ok r → boardHpOk r.1) as Hmv
    by (intros r Hr; by apply (movePieceWithPromotion_hpOk _ _ _ _ Hr)).
  destruct x as [ds|]; [|inv_ok; by apply Hmv].
  destruct x0 as [d|]; [|inv_ok; by apply Hmv].
  destruct (decide _); [|inv_ok; by apply Hmv].
  inv_ok. rename x into b1.
  destruct (hp _ <=? 0) eqn:Hlethal.
  - inv_ok. eapply movePieceWithPromotion_hpOk; [done|].
    match goal with
    | H1 : writeCell b _ _ _ = Ok ?b1, H2 : writeCell ?b1 _ _ None = Ok _ |- _ =>
        exact (writeCell_twice_hpOk _ _ _ _ _ _ H1 H2 Hb)
    end.
  - inv_ok. eapply writeCell_hpOk; [done..|]. intros ? [= <-].
    apply damaged_hpOk; [|apply getPieceDamage_nonneg|by apply Z.leb_gt in Hlethal; lia].
    match goal with H : readCell _ (row ds) _ = Ok _ |- _ =>
      apply readCell_Ok in H; symmetry in H; by apply Hb in H end.
Qed.

(** ** The three outcomes of a committed move *)

Lemma getDefenderSquareForMove_defender b move attacker d :
  wfBoard b →
  cellAt b (defenderSquareOf attacker move) = Some d →
  getDefenderSquareForMove b move attacker
  = Ok (if decide (color d ≠ color attacker)
        then Some (defenderSquareOf attacker move) else None).
Proof.
  intros Hwf Hd. pose proof (cell_Some_inBounds _ _ _ _ Hwf Hd) as Hin.
  revert Hd Hin. unfold getDefenderSquareForMove, defenderSquareOf, cellAt.
  destruct (decide (special move = Some EnPassant)); simpl; intros Hd Hin.
  - rewrite Hin. simpl. apply inBounds_spec in Hin as [Hr _].
    rewrite readCell_wf by done. simpl. rewrite Hd. by destruct (decide _).
  - apply inBounds_spec in Hin as [Hr _]. rewrite readCell_wf by done. simpl.
    rewrite Hd. destruct (sq move). by destruct (decide _).
Qed.

(** The resolution record of a relocation. *)
Lemma resolveCommit_unfold b from move p :
  wfBoard b → inBounds (row (sq move)) (col (sq move)) = true →
  let ds := defenderSquareOf p move in
  let relocate (nb : Board) :=
    r ← movePieceWithPromotion nb from move;
    Ok {| nextBoard := r.1; nextPieceState := r.2; lastMoveTo := sq move;
          resDoubleStep := isDoubleStep p from move |} in
  resolveCommit b from move p
  = match cellAt b ds with
    | Some d =>
        if decide (color d ≠ color p) then
          let d' := damaged d (getPieceDamage (type p)) in
          b1 ← writeCell b (row ds) (col ds) (Some d');
          if hp d' <=? 0
          then b2 ← writeCell b1 (row ds) (col ds) None; relocate b2
          else Ok {| nextBoard := b1; nextPieceState := p; lastMoveTo := from;
                     resDoubleStep := false |}
        else relocate b
    | None => relocate b
    end.
Proof.
  intros Hwf Hin ds relocate. unfold resolveCommit.
  rewrite getDefenderSquareForMove_wf, cloneBoard_id by done.
  subst relocate. simpl. change (defenderSquareOf p move) with ds. clearbody ds.
  assert (sq move = mkSquare (row (sq move)) (col (sq move))) as Hsq
    by (by destruct (sq move)).
  destruct (cellAt b ds) as [d|] eqn:Hd; simpl; [|by rewrite <- Hsq].
  destruct (decide (color d ≠ color p)) as [Hc|Hc]; simpl; [|by rewrite <- Hsq].
  pose proof (cell_Some_inBounds _ _ _ _ Hwf Hd) as [Hr _]%inBounds_spec.
  unfold cellAt in Hd.
  rewrite !readCell_wf by done. simpl. rewrite Hd.
  rewrite decide_True by done. simpl.
  destruct (writeCell b (row ds) (col ds) _) as [b1| |]; simpl; try done.
  destruct (_ <=? 0).
  - by rewrite <- Hsq.
  - rewrite copyPiece_id. by destruct from.
Qed.

(** An attack the defender survives: only the defender's hit points change. *)
Lemma resolveCommit_nonlethal b from move p d :
  wfBoard b →
  cellAt b (defenderSquareOf p move) = Some d → color d ≠ color p →
  getPieceDamage (type p) < hp d →
  let ds := defenderSquareOf p move in
  ∃ b1, writeCell b (row ds) (col ds) (Some (damaged d (getPieceDamage (type p))))
        = Ok b1
    ∧ resolveCommit b from move p
      = Ok {| nextBoard := b1; nextPieceState := p; lastMoveTo := from;
              resDoubleStep := false |}.
Proof.
  intros Hwf Hd Hc Hhp ds. unfold resolveCommit.
  rewrite (getDefenderSquareForMove_defender _ _ _ d), cloneBoard_id by done.
  rewrite decide_True by done. fold ds in Hd |- *. clearbody ds. simpl.
  pose proof (cell_Some_inBounds _ _ _ _ Hwf Hd) as Hin.
  apply inBounds_spec in Hin as Hin'. unfold cellAt in Hd.
  rewrite !readCell_wf by tauto. simpl. rewrite Hd.
  rewrite decide_True by done. simpl.
  destruct (writeCell_total b (row ds) (col ds)
              (Some (damaged d (getPieceDamage (type p)))) Hwf Hin) as [b1 Hb1].
  exists b1. split; [done|]. rewrite Hb1. simpl.
  replace (Z.max 0 (hp d - getPieceDamage (type p)) <=? 0) with false
    by (symmetry; apply Z.leb_gt; lia).
  rewrite copyPiece_id. by destruct from.
Qed.

(** C2. Committing a move whose defender square holds an enemy piece with
    more hit points than the attacker's damage: the commit goes through, the
    defender stays on its square with exactly that damage subtracted, the
    attacker stays on its origin square unchanged (kind and moved flag
    included), every other cell of the board is unchanged, the same squares
    are occupied as before, and the stored last move ends on the origin
    square with [wasDoublePawnStep = false]. *)
Theorem C2_non_lethal_attack :
  ∀ (s : Scene) (from : Square) (move : Move) (att d : Piece),
    wfBoard (board s) → isResolvingMove s = false →
    cellAt (board s) from = Some att →
    cellAt (board s) (defenderSquareOf att move) = Some d →
    color d ≠ color att →
    getPieceDamage (type att) < hp d →
    let ds := defenderSquareOf att move in
    ∃ s', commitMove s from move = Ok s'
      ∧ cellAt (board s') ds
        = Some {| color := color d; type := type d; moved := moved d;
                  hp := hp d - getPieceDamage (type att); maxHp := maxHp d |}
      ∧ cellAt (board s') from = Some att
      ∧ (∀ r c, mkSquare r c ≠ ds → cell (board s') r c = cell (board s) r c)
      ∧ (∀ r c, is_Some (cell (board s') r c) ↔ is_Some (cell (board s) r c))
      ∧ lastMove s' = Some {| lmFrom := from; lmTo := from; lmPiece := att;
                              wasDoublePawnStep := false |}.
Proof.
  intros s from move att d Hwf Hres Hatt Hd Hc Hhp ds.
  destruct (resolveCommit_nonlethal _ from move att d Hwf Hd Hc Hhp)
    as (b1 & Hb1 & Hrc). fold ds in Hb1, Hd. clearbody ds.
  pose proof (cell_Some_inBounds _ _ _ _ Hwf Hatt) as [Hr _]%inBounds_spec.
  assert (readCell (board s) (row from) (col from) = Ok (Some att)) as Hread
    by (rewrite readCell_wf by done; by rewrite <- Hatt).
  assert (wfBoard b1) as Hwf1 by (by eapply writeCell_wf).
  assert (∃ s', commitMove s from move = Ok s') as [s' Hs'].
  { unfold commitMove. rewrite Hres, Hread. simpl. rewrite Hrc. simpl.
    match goal with |- context [evaluateGameState ?s0] =>
      destruct (evaluateGameState_total s0 Hwf1) as [s1 Hs1] end.
    rewrite Hs1. simpl. by eexists. }
  exists s'. split; [done|].
  destruct (commitMove_Ok _ _ _ _ _ Hres Hread Hs') as (r & Hr' & Hb & _ & Hlm & _).
  rewrite Hrc in Hr'. injection Hr' as <-. simpl in Hb, Hlm.
  assert (∀ r c, cell (board s') r c
                 = if decide (r = row ds ∧ c = col ds)
                   then Some (damaged d (getPieceDamage (type att)))
                   else cell (board s) r c) as Hcell
    by (intros r c; rewrite Hb; by apply writeCell_cell).
  assert (damaged d (getPieceDamage (type att))
          = {| color := color d; type := type d; moved := moved d;
               hp := hp d - getPieceDamage (type att); maxHp := maxHp d |}) as Hdm
    by (unfold damaged; f_equal; lia).
  repeat split.
  - unfold cellAt. rewrite Hcell, decide_True by done. by rewrite Hdm.
  - unfold cellAt. rewrite Hcell. case_decide as Heq; [|done].
    destruct Heq as [Heq1 Heq2]. unfold cellAt in Hd, Hatt.
    rewrite <- Heq1, <- Heq2, Hatt in Hd. congruence.
  - intros r c Hne. rewrite Hcell. case_decide as Heq; [|done].
    destruct Heq as [-> ->]. by destruct ds.
  - rewrite Hcell. case_decide as Heq; [|done]. destruct Heq as [-> ->].
    intros _. unfold cellAt in Hd. by rewrite Hd.
  - rewrite Hcell. case_decide as Heq; [|done]. by eexists.
  - done.
Qed.

(** ** Relocation, cell by cell *)

(** A move that is not a castle: the origin is vacated, an en-passant move
    also vacates the capture square, and the destination receives the moved
    (possibly promoted) piece. *)
Lemma movePieceWithPromotion_cells b from move p r :
  movePieceWithPromotion b from move = Ok r →
  cellAt b from = Some p →
  special move ≠ Some Castle →
  r.2 = promoteIfLastRank (markMoved p) move
  ∧ ∀ r' c',
      cell r.1 r' c'
      = if decide (r' = row (sq move) ∧ c' = col (sq move)) then Some r.2
        else if decide (special move = Some EnPassant
                        ∧ r' = captureRowOf (color p) move
                        ∧ c' = col (sq move)) then None
        else if decide (r' = row from ∧ c' = col from) then None
        else cell b r' c'.
Proof.
  unfold movePieceWithPromotion. intros H Hp Hnc.
  apply bind_Ok in H as (x & Hx & H). apply readCell_Ok in Hx.
  unfold cellAt in Hp. rewrite Hp in Hx. subst x.
  apply bind_Ok in H as (b1 & Hb1 & H).
  apply bind_Ok in H as (b2 & Hb2 & H).
  apply bind_Ok in H as (b3 & Hb3 & H).
  apply bind_Ok in H as (b4 & Hb4 & [= <-]). simpl.
  assert (b4 = b3) as ->.
  { destruct (special move) as [[|]|]; [by destruct Hnc| |]; congruence. }
  split; [done|]. intros r' c'.
  rewrite (writeCell_cell _ _ _ _ _ r' c' Hb3).
  destruct (decide (r' = row (sq move) ∧ _)) as [Ht|Ht]; [done|].
  destruct (decide (special move = Some EnPassant)) as [Hep|Hep].
  - rewrite (writeCell_cell _ _ _ _ _ r' c' Hb2).
    destruct (decide (r' = captureRowOf _ _ ∧ _)) as [Hcap|Hcap].
    + by rewrite decide_True by tauto.
    + rewrite decide_False by tauto.
      by rewrite (writeCell_cell _ _ _ _ _ r' c' Hb1).
  - injection Hb2 as <-. rewrite decide_False by tauto.
    by rewrite (writeCell_cell _ _ _ _ _ r' c' Hb1).
Qed.

Lemma commitMove_hpOk s from move s' :
  commitMove s from move = Ok s' → boardHpOk (board s) → boardHpOk (board s').
Proof.
  unfold commitMove. intros H Hb.
  destruct (isResolvingMove s) eqn:Hres; [by inv_ok|].
  apply bind_Ok in H as ([p|] & Hread & H); [|by inv_ok].
  assert (commitMove s from move = Ok s') as Hc.
  { unfold commitMove. by rewrite Hres, Hread. }
  destruct (commitMove_Ok _ _ _ _ _ Hres Hread Hc) as (r & Hr & -> & _).
  eapply (simulateResolvedBoard_hpOk (board s) from move); [|done].
  by rewrite (resolveCommit_board _ _ _ _ Hread), Hr.
Qed.

(** A lethal attack by a move that is not a castle: the defender's square
    is vacated (en passant) or taken by the attacker. *)
Lemma commitMove_lethal s from move att d :
  wfBoard (board s) → isResolvingMove s = false →
  cellAt (board s) from = Some att →
  cellAt (board s) (defenderSquareOf att move) = Some d →
  color d ≠ color att →
  hp d - getPieceDamage (type att) <= 0 →
  moveOnGrid (color att) move = true →
  special move ≠ Some Castle →
  ∃ s', commitMove s from move = Ok s'
    ∧ cellAt (board s') (defenderSquareOf att move)
      = (if decide (special move = Some EnPassant) then None
         else Some (promoteIfLastRank (markMoved att) move))
    ∧ cellAt (board s') (sq move) = Some (promoteIfLastRank (markMoved att) move)
    ∧ (sq move ≠ from → cellAt (board s') from = None)
    ∧ lastMove s' = Some {| lmFrom := from; lmTo := sq move;
                            lmPiece := promoteIfLastRank (markMoved att) move;
                            wasDoublePawnStep := isDoubleStep att from move |}.
Proof.
  intros Hwf Hres Hatt Hd Hc Hhp Hgrid Hnc.
  destruct (commitMove_total s from move att Hwf Hatt Hgrid) as [s' Hs'].
  exists s'. split; [done|].
  pose proof (cell_Some_inBounds _ _ _ _ Hwf Hatt) as [Hr _]%inBounds_spec.
  assert (readCell (board s) (row from) (col from) = Ok (Some att)) as Hread
    by (rewrite readCell_wf by done; by rewrite <- Hatt).
  destruct (commitMove_Ok _ _ _ _ _ Hres Hread Hs') as (r & Hr' & Hb & _ & Hlm & _).
  rewrite resolveCommit_unfold in Hr' by eauto using moveOnGrid_target.
  simpl in Hr'. rewrite Hd, decide_True in Hr' by done.
  apply bind_Ok in Hr' as (b1 & Hb1 & Hr').
  replace (Z.max 0 (hp d - getPieceDamage (type att)) <=? 0) with true in Hr'
    by (symmetry; apply Z.leb_le; lia).
  apply bind_Ok in Hr' as (b2 & Hb2 & Hr').
  apply bind_Ok in Hr' as (mv & Hmv & [= <-]). simpl in Hb, Hlm.
  set (ds := defenderSquareOf att move) in *.
  assert (ds ≠ from) as Hne.
  { intros ->. rewrite Hatt in Hd. congruence. }
  assert (cellAt b2 from = Some att) as Hatt2.
  { unfold cellAt. rewrite (writeCell_cell _ _ _ _ _ _ _ Hb2),
      (writeCell_cell _ _ _ _ _ _ _ Hb1).
    case_decide as Heq; [|done]. destruct Heq as [Heq1 Heq2].
    destruct ds, from. simpl in *. congruence. }
  destruct (movePieceWithPromotion_cells _ _ _ _ _ Hmv Hatt2 Hnc) as [Hmp Hcells].
  rewrite Hlm, Hb, Hmp. unfold cellAt. rewrite !Hcells, Hmp.
  split; [|split; [by rewrite decide_True by done | split; [|done]]].
  - subst ds. unfold defenderSquareOf.
    destruct (decide (special move = Some EnPassant)) as [Hep|Hep]; simpl.
    + rewrite decide_False by (unfold captureRowOf; destruct (decide _); lia).
      by rewrite decide_True by done.
    + by rewrite decide_True by done.
  - intros Hne'.
    rewrite decide_False by (intros [??]; apply Hne'; destruct (sq move), from;
                             simpl in *; congruence).
    destruct (decide (_ ∧ _ ∧ _)); [done|]. by rewrite decide_True by done.
Qed.

Lemma wfBoardb_true b : wfBoardb b = true → wfBoard b.
Proof.
  unfold wfBoardb, wfBoard. intros [Hl Hf]%andb_true_iff. split.
  - by apply Nat.eqb_eq.
  - apply Forall_forall. intros rw Hrw%list_elem_of_In.
    rewrite forallb_forall in Hf. by apply Nat.eqb_eq, Hf.
Qed.

Lemma boardHpOkb_true b : boardHpOkb b = true → boardHpOk b.
Proof.
  unfold boardHpOkb. intros Hb. apply boardHpOk_Forall.
  rewrite forallb_forall in Hb. apply Forall_forall. intros rw Hrw%list_elem_of_In.
  specialize (Hb rw Hrw). rewrite forallb_forall in Hb.
  apply Forall_forall. intros o Ho%list_elem_of_In p ->.
  specialize (Hb _ Ho). simpl in Hb.
  apply andb_true_iff in Hb as [H1%Z.ltb_lt H2%Z.leb_le]. by split.
Qed.

(** C3. The hit-point invariant [0 < hp <= maxHp] holds for every piece of
    the initial position and is kept by every committed move and by every
    simulation; and when the attacker's damage brings the defender to zero
    hit points or below, the commit goes through and the defender's square
    is left empty (en passant) or holds the relocated attacker. *)
Theorem C3_hit_points_invariant :
  boardHpOk createInitialBoard
  ∧ (∀ s from move s',
       boardHpOk (board s) → commitMove s from move = Ok s' →
       boardHpOk (board s'))
  ∧ (∀ b from move b',
       boardHpOk b → simulateResolvedBoard b from move = Ok b' → boardHpOk b')
  ∧ (∀ s from move att d,
       wfBoard (board s) → isResolvingMove s = false →
       cellAt (board s) from = Some att →
       cellAt (board s) (defenderSquareOf att move) = Some d →
       color d ≠ color att →
       hp d - getPieceDamage (type att) <= 0 →
       moveOnGrid (color att) move = true →
       special move ≠ Some Castle →
       ∃ s', commitMove s from move = Ok s'
         ∧ cellAt (board s') (defenderSquareOf att move)
           = if decide (special move = Some EnPassant) then None
             else Some (promoteIfLastRank (markMoved att) move)).
Proof.
  split; [apply createInitialBoard_hpOk|].
  split; [intros s from move s' Hb Hc; by eapply commitMove_hpOk|].
  split; [intros b from move b' Hb Hs; by eapply simulateResolvedBoard_hpOk|].
  intros s from move att d Hwf Hres Hatt Hd Hc Hhp Hgrid Hnc.
  destruct (commitMove_lethal s from move att d) as (s' & Hs' & Hds & _); try done.
  by exists s'.
Qed.

(** The knight on c3 takes the pawn on d5 (2 damage against 2 hit points). *)
Lemma C3_witness :
  ∃ s', commitMove (sceneOf skirmishBoard White None) (mkSquare 5 2) (plainMove 3 3)
        = Ok s'
    ∧ cellAt (board s') (mkSquare 3 3)
      = Some {| color := White; type := Knight; moved := true; hp := 3; maxHp := 3 |}
    ∧ boardHpOk (board s').
Proof.
  destruct C3_hit_points_invariant as (_ & Hcommit & _ & Hlethal).
  destruct (Hlethal (sceneOf skirmishBoard White None) (mkSquare 5 2)
              (plainMove 3 3) (createPiece White Knight) (createPiece Black Pawn))
    as (s' & Hs' & Hcell);
    [apply wfBoardb_true; reflexivity | reflexivity | reflexivity | reflexivity
    | discriminate | simpl; lia | reflexivity | discriminate |].
  exists s'. split; [done|]. split; [exact Hcell|].
  apply (Hcommit (sceneOf skirmishBoard White None) (mkSquare 5 2) (plainMove 3 3));
    [|done].
  apply boardHpOkb_true. reflexivity.
Defined.

(** The pawn on g4 hits the rook on h5 (1 damage against 4 hit points). *)
Lemma C2_witness :
  ∃ s', commitMove (sceneOf skirmishBoard White None) (mkSquare 4 6) (plainMove 3 7)
        = Ok s'
    ∧ cellAt (board s') (mkSquare 3 7)
      = Some {| color := Black; type := Rook; moved := false; hp := 3; maxHp := 4 |}
    ∧ cellAt (board s') (mkSquare 4 6) = Some (createPiece White Pawn)
    ∧ lastMove s'
      = Some {| lmFrom := mkSquare 4 6; lmTo := mkSquare 4 6;
                lmPiece := createPiece White Pawn; wasDoublePawnStep := false |}.
Proof.
  destruct (C2_non_lethal_attack (sceneOf skirmishBoard White None) (mkSquare 4 6)
              (plainMove 3 7) (createPiece White Pawn) (createPiece Black Rook))
    as (s' & Hs' & Hd & Ha & _ & _ & Hlm);
    [apply wfBoardb_true; reflexivity | reflexivity | reflexivity | reflexivity
    | discriminate | simpl; lia |].
  exists s'. split; [done|]. split; [exact Hd|]. split; [exact Ha | exact Hlm].
Defined.

(** The pinned rook on e2: every move kept for it leaves e1 unattacked. *)
Lemma C1_witness :
  ∃ ms, getLegalMoves None pinBoard (mkSquare 6 4) = Ok ms
    ∧ ∀ move, move ∈ ms →
        ∃ b', simulateResolvedBoard pinBoard (mkSquare 6 4) move = Ok b'
          ∧ ∀ k, kingOn b' White k →
                 (∀ k', kingOn b' White k' → k' = k) →
                 ¬ attackedBy b' Black k.
Proof.
  apply (C1_legal_moves_leave_king_safe None pinBoard (mkSquare 6 4)
           (createPiece White Rook));
    [apply wfBoardb_true; reflexivity | reflexivity].
Defined.

(** C8. On an 8x8 board the in-check test for a colour with no king on the
    board answers [false]; when there is a king of that colour, the test
    locates one and answers [true] exactly when that king's square is in the
    attack map of some opposing piece; for the one king of a colour this is
    that king. *)
Theorem C8_in_check_test :
  ∀ (b : Board) (c : PieceColor),
    wfBoard b →
    ((∀ k, ¬ kingOn b c k) → isKingInCheck b c = false)
    ∧ ((∃ k, kingOn b c k) →
       ∃ k, getKingSquare b c = Some k ∧ kingOn b c k
            ∧ (isKingInCheck b c = true ↔ attackedBy b (enemyOf c) k))
    ∧ (∀ k, kingOn b c k → (∀ k', kingOn b c k' → k' = k) →
            (isKingInCheck b c = true ↔ attackedBy b (enemyOf c) k)).
Proof.
  intros b c Hwf.
  assert (∀ k, getKingSquare b c = Some k →
               (isKingInCheck b c = true ↔ attackedBy b (enemyOf c) k)) as Hiff.
  { intros [kr kc] Hk. unfold isKingInCheck. rewrite Hk. simpl.
    by apply isSquareAttacked_true. }
  split; [|split].
  - intros Hnone. unfold isKingInCheck.
    destruct (getKingSquare b c) as [k|] eqn:Hk; [|done].
    apply getKingSquare_Some in Hk as [Hk _]. by apply Hnone in Hk.
  - intros [k0 Hk0]. destruct (getKingSquare_finds b c k0 Hwf Hk0) as [k Hk].
    exists k. split; [done|]. split; [|by apply Hiff].
    by apply getKingSquare_Some in Hk as [Hk _].
  - intros k Hk Huniq. destruct (getKingSquare_finds b c k Hwf Hk) as [k1 Hk1].
    apply getKingSquare_Some in Hk1 as Hk1'. destruct Hk1' as [Hk1' _].
    apply Huniq in Hk1' as ->. by apply Hiff.
Qed.

(** The white king on the open e-file is found on e1 and reported in check. *)
Lemma C8_witness :
  ∃ k, getKingSquare openFileBoard White = Some k ∧ kingOn openFileBoard White k
       ∧ (isKingInCheck openFileBoard White = true
          ↔ attackedBy openFileBoard (enemyOf White) k).
Proof.
  destruct (C8_in_check_test openFileBoard White) as (_ & H & _);
    [apply wfBoardb_true; reflexivity|].
  apply H. exists (mkSquare 7 4). exists (createPiece White King).
  split; [reflexivity|]. split; reflexivity.
Defined.

(** ** Reading after writing *)

Lemma readCell_alt b r c :
  readCell b r c
  = if decide (0 <= r < Z.of_nat (length b)) then Ok (cell b r c) else TypeError.
Proof.
  unfold readCell, cell, slot. destruct (0 <=? r) eqn:Hr.
  - apply Z.leb_le in Hr. destruct (b !! Z.to_nat r) as [rw|] eqn:Hrw.
    + apply lookup_lt_Some in Hrw as Hlt. rewrite decide_True by lia.
      simpl. by destruct (0 <=? c).
    + apply lookup_ge_None in Hrw. by rewrite decide_False by lia.
  - apply Z.leb_gt in Hr. by rewrite decide_False by lia.
Qed.

Lemma writeCell_length b r c v b' :
  writeCell b r c v = Ok b' → length b' = length b.
Proof.
  unfold writeCell. destruct (0 <=? r); [|done].
  destruct (b !! Z.to_nat r) as [rw|]; [|done].
  destruct (_ && _); [|done]. intros [= <-]. by rewrite length_insert.
Qed.

(** Reading after a write. *)
Lemma writeCell_readCell b r c v b' r' c' :
  writeCell b r c v = Ok b' →
  readCell b' r' c' = if decide (r' = r ∧ c' = c) then Ok v else readCell b r' c'.
Proof.
  intros Hw. rewrite !readCell_alt, (writeCell_length _ _ _ _ _ Hw).
  rewrite (writeCell_cell _ _ _ _ _ r' c' Hw).
  destruct (decide (r' = r ∧ c' = c)) as [[-> ->]|Hne]; [|done].
  rewrite decide_True; [done|].
  unfold writeCell in Hw. destruct (0 <=? r) eqn:Hr; [|done].
  destruct (b !! Z.to_nat r) as [rw|] eqn:Hrw; [|done].
  apply Z.leb_le in Hr. apply lookup_lt_Some in Hrw. lia.
Qed.

Lemma movePieceWithPromotion_piece b from move p r :
  movePieceWithPromotion b from move = Ok r →
  readCell b (row from) (col from) = Ok (Some p) →
  r.2 = promoteIfLastRank (markMoved p) move.
Proof.
  unfold movePieceWithPromotion. intros H Hread. rewrite Hread in H. simpl in H.
  apply bind_Ok in H as (b1 & Hb1 & H).
  apply bind_Ok in H as (b2 & Hb2 & H).
  apply bind_Ok in H as (b3 & Hb3 & H).
  by apply bind_Ok in H as (b4 & Hb4 & [= <-]).
Qed.

(** ** Moves that complete *)

(** A move onto a defender square without an enemy piece is a plain
    relocation. *)
Lemma commitMove_plain s from move att :
  wfBoard (board s) → isResolvingMove s = false →
  cellAt (board s) from = Some att →
  (∀ d, cellAt (board s) (defenderSquareOf att move) = Some d →
        color d = color att) →
  moveOnGrid (color att) move = true →
  special move ≠ Some Castle →
  ∃ s', commitMove s from move = Ok s'
    ∧ cellAt (board s') (sq move) = Some (promoteIfLastRank (markMoved att) move)
    ∧ (sq move ≠ from → cellAt (board s') from = None)
    ∧ lastMove s' = Some {| lmFrom := from; lmTo := sq move;
                            lmPiece := promoteIfLastRank (markMoved att) move;
                            wasDoublePawnStep := isDoubleStep att from move |}.
Proof.
  intros Hwf Hres Hatt Hfriend Hgrid Hnc.
  destruct (commitMove_total s from move att Hwf Hatt Hgrid) as [s' Hs'].
  exists s'. split; [done|].
  pose proof (cell_Some_inBounds _ _ _ _ Hwf Hatt) as [Hr _]%inBounds_spec.
  assert (readCell (board s) (row from) (col from) = Ok (Some att)) as Hread
    by (rewrite readCell_wf by done; by rewrite <- Hatt).
  destruct (commitMove_Ok _ _ _ _ _ Hres Hread Hs') as (r & Hr' & Hb & _ & Hlm & _).
  rewrite resolveCommit_unfold in Hr' by eauto using moveOnGrid_target.
  simpl in Hr'.
  assert (∃ mv, movePieceWithPromotion (board s) from move = Ok mv
                ∧ r = {| nextBoard := mv.1; nextPieceState := mv.2;
                         lastMoveTo := sq move;
                         resDoubleStep := isDoubleStep att from move |})
    as (mv & Hmv & ->).
  { destruct (cellAt (board s) (defenderSquareOf att move)) as [d|] eqn:Hd.
    - rewrite decide_False in Hr' by (intros Hne; by apply Hne, Hfriend).
      apply bind_Ok in Hr' as (mv & Hmv & [= <-]). by exists mv.
    - apply bind_Ok in Hr' as (mv & Hmv & [= <-]). by exists mv. }
  simpl in Hb, Hlm.
  destruct (movePieceWithPromotion_cells _ _ _ _ _ Hmv Hatt Hnc) as [Hmp Hcells].
  rewrite Hlm, Hb, Hmp. unfold cellAt. rewrite !Hcells, Hmp.
  split; [by rewrite decide_True by done | split; [|done]].
  intros Hne.
  rewrite decide_False by (intros [??]; apply Hne; destruct (sq move), from;
                           simpl in *; congruence).
  destruct (decide (_ ∧ _ ∧ _)); [done|]. by rewrite decide_True by done.
Qed.

(** Plain relocation and lethal combat alike put the moved piece on the
    destination. *)
Lemma commitMove_completes s from move att :
  wfBoard (board s) → isResolvingMove s = false →
  cellAt (board s) from = Some att →
  (∀ d, cellAt (board s) (defenderSquareOf att move) = Some d →
        color d ≠ color att → hp d - getPieceDamage (type att) <= 0) →
  moveOnGrid (color att) move = true →
  special move ≠ Some Castle →
  ∃ s', commitMove s from move = Ok s'
    ∧ cellAt (board s') (sq move) = Some (promoteIfLastRank (markMoved att) move)
    ∧ lastMove s' = Some {| lmFrom := from; lmTo := sq move;
                            lmPiece := promoteIfLastRank (markMoved att) move;
                            wasDoublePawnStep := isDoubleStep att from move |}.
Proof.
  intros Hwf Hres Hatt Hdone Hgrid Hnc.
  destruct (cellAt (board s) (defenderSquareOf att move)) as [d|] eqn:Hd.
  - destruct (decide (color d = color att)) as [Hc|Hc].
    + destruct (commitMove_plain s from move att) as (s' & H1 & H2 & _ & H3);
        try done.
      { intros d' Hd'. rewrite Hd in Hd'. by injection Hd' as <-. }
      by exists s'.
    + destruct (commitMove_lethal s from move att d) as (s' & H1 & _ & H2 & _ & H3);
        try done.
      { by apply Hdone. }
      by exists s'.
  - destruct (commitMove_plain s from move att) as (s' & H1 & H2 & _ & H3);
      try done.
    { intros d' Hd'. by rewrite Hd in Hd'. }
    by exists s'.
Qed.

(** What a completed move records as the moved piece, castle or not. *)
Lemma commitMove_completes_piece s from move att s' :
  wfBoard (board s) → isResolvingMove s = false →
  cellAt (board s) from = Some att →
  (∀ d, cellAt (board s) (defenderSquareOf att move) = Some d →
        color d ≠ color att → hp d - getPieceDamage (type att) <= 0) →
  inBounds (row (sq move)) (col (sq move)) = true →
  commitMove s from move = Ok s' →
  lastMove s' = Some {| lmFrom := from; lmTo := sq move;
                        lmPiece := promoteIfLastRank (markMoved att) move;
                        wasDoublePawnStep := isDoubleStep att from move |}.
Proof.
  intros Hwf Hres Hatt Hdone Hin Hs'.
  pose proof (cell_Some_inBounds _ _ _ _ Hwf Hatt) as [Hr _]%inBounds_spec.
  assert (readCell (board s) (row from) (col from) = Ok (Some att)) as Hread
    by (rewrite readCell_wf by done; by rewrite <- Hatt).
  destruct (commitMove_Ok _ _ _ _ _ Hres Hread Hs') as (r & Hr' & _ & _ & Hlm & _).
  rewrite Hlm. rewrite resolveCommit_unfold in Hr' by done. simpl in Hr'.
  assert (∀ nb, readCell nb (row from) (col from) = Ok (Some att) →
            (mv ← movePieceWithPromotion nb from move;
             Ok {| nextBoard := mv.1; nextPieceState := mv.2;
                   lastMoveTo := sq move;
                   resDoubleStep := isDoubleStep att from move |}) = Ok r →
            lastMoveTo r = sq move
            ∧ nextPieceState r = promoteIfLastRank (markMoved att) move
            ∧ resDoubleStep r = isDoubleStep att from move) as Hrel.
  { intros nb Hnb Hmv. apply bind_Ok in Hmv as (mv & Hmv & [= <-]). simpl.
    repeat split. by eapply movePieceWithPromotion_piece. }
  assert (lastMoveTo r = sq move
          ∧ nextPieceState r = promoteIfLastRank (markMoved att) move
          ∧ resDoubleStep r = isDoubleStep att from move) as (-> & -> & ->);
    [|done].
  destruct (cellAt (board s) (defenderSquareOf att move)) as [d|] eqn:Hd;
    [|by eapply Hrel].
  destruct (decide (color d ≠ color att)) as [Hc|Hc]; [|by eapply Hrel].
  apply bind_Ok in Hr' as (b1 & Hb1 & Hr').
  replace (Z.max 0 (hp d - getPieceDamage (type att)) <=? 0) with true in Hr'
    by (symmetry; apply Z.leb_le; specialize (Hdone d eq_refl Hc); lia).
  apply bind_Ok in Hr' as (b2 & Hb2 & Hr').
  eapply (Hrel b2); [|done].
  assert (¬ (row from = row (defenderSquareOf att move)
             ∧ col from = col (defenderSquareOf att move))) as Hne.
  { intros [E1 E2]. unfold cellAt in Hd, Hatt. rewrite <- E1, <- E2, Hatt in Hd.
    congruence. }
  rewrite (writeCell_readCell _ _ _ _ _ _ _ Hb2), decide_False by done.
  by rewrite (writeCell_readCell _ _ _ _ _ _ _ Hb1), decide_False by done.
Qed.

(** C4. A pawn whose committed move completes (a plain relocation, or
    combat that kills the defender) on its farthest rank, row 0 for White
    and row 7 for Black, is recorded as a queen with the queen's maximum of
    5 and with [min (previous hp) 5] hit points, which is never more than it
    had; that queen is the piece on the destination (for every move but one
    tagged as a castle, which no pawn is offered). *)
Theorem C4_promotion :
  ∀ (s : Scene) (from : Square) (move : Move) (pawn : Piece),
    wfBoard (board s) → isResolvingMove s = false →
    cellAt (board s) from = Some pawn →
    type pawn = Pawn →
    row (sq move) = (if decide (color pawn = White) then 0 else 7) →
    (∀ d, cellAt (board s) (defenderSquareOf pawn move) = Some d →
          color d ≠ color pawn → hp d - getPieceDamage (type pawn) <= 0) →
    moveOnGrid (color pawn) move = true →
    ∃ s' q, commitMove s from move = Ok s'
      ∧ (lmPiece <$> lastMove s') = Some q
      ∧ (special move ≠ Some Castle → cellAt (board s') (sq move) = Some q)
      ∧ type q = Queen ∧ color q = color pawn
      ∧ maxHp q = PIECE_HP Queen ∧ PIECE_HP Queen = 5
      ∧ hp q = Z.min (hp pawn) 5
      ∧ hp q <= hp pawn.
Proof.
  intros s from move pawn Hwf Hres Hp Ht Hrow Hdone Hgrid.
  destruct (commitMove_total s from move pawn Hwf Hp Hgrid) as [s' Hs'].
  exists s', (promoteIfLastRank (markMoved pawn) move).
  split; [done|]. split.
  { erewrite commitMove_completes_piece; eauto using moveOnGrid_target. }
  split.
  { intros Hnc.
    destruct (commitMove_completes s from move pawn) as (s'' & Hs'' & Hcell & _);
      try done.
    rewrite Hs' in Hs''. by injection Hs'' as <-. }
  unfold promoteIfLastRank. simpl. rewrite Ht. simpl.
  replace (bool_decide (row (sq move) = 0) || bool_decide (row (sq move) = 7))
    with true.
  - simpl. repeat split; lia.
  - symmetry. apply orb_true_iff. rewrite !bool_decide_eq_true.
    destruct (decide (color pawn = White)); lia.
Qed.

(** The pawn on c7 kills the weakened bishop on d8 and promotes there. *)
Lemma C4_witness :
  ∃ s' q, commitMove (sceneOf promotionBoard White None) (mkSquare 1 2)
            (plainMove 0 3) = Ok s'
    ∧ (lmPiece <$> lastMove s') = Some q
    ∧ (special (plainMove 0 3) ≠ Some Castle →
       cellAt (board s') (mkSquare 0 3) = Some q)
    ∧ type q = Queen ∧ color q = White
    ∧ maxHp q = PIECE_HP Queen ∧ PIECE_HP Queen = 5
    ∧ hp q = Z.min 2 5
    ∧ hp q <= 2.
Proof.
  apply (C4_promotion (sceneOf promotionBoard White None) (mkSquare 1 2)
           (plainMove 0 3) (createPiece White Pawn));
    [apply wfBoardb_true; reflexivity | reflexivity | reflexivity | reflexivity
    | reflexivity | | reflexivity].
  intros d Hd _. vm_compute in Hd. injection Hd as <-. simpl. lia.
Defined.

(** ** En passant *)

Lemma pawnAdvances_special b r c p fam m :
  m ∈ pawnAdvances b r c p fam → special m = None.
Proof.
  unfold pawnAdvances. intros H.
  destruct (negb fam && inBounds _ c && _); [|by apply elem_of_nil in H].
  apply elem_of_cons in H as [->|H]; [done|].
  destruct (bool_decide (r = _) && _); [|by apply elem_of_nil in H].
  by apply list_elem_of_singleton in H as ->.
Qed.

Lemma pawnCaptures_special b r c p fam m :
  m ∈ pawnCaptures b r c p fam → special m = None.
Proof. by intros (r' & c' & -> & _)%pawnCaptures_plain. Qed.

Lemma getPseudoMoves_enPassant lm b r c p fam m :
  type p = Pawn →
  (m ∈ getPseudoMoves lm b r c p fam ∧ special m = Some EnPassant)
  ↔ m ∈ pawnEnPassant lm b r c p fam.
Proof.
  intros Ht. unfold getPseudoMoves, pseudoMovesBody. rewrite Ht.
  unfold pawnMoves. rewrite !elem_of_app. split.
  - intros [[H|[H|H]] Hs]; [| |done].
    + apply pawnAdvances_special in H. congruence.
    + apply pawnCaptures_special in H. congruence.
  - intros H. split; [tauto|].
    by apply pawnEnPassant_elem in H as (_ & l & _ & _ & _ & _ & _ & _ & _ & _ & ->).
Qed.

(** A resolution that records a double pawn step relocated a pawn by two
    rows, onto the destination of the move. *)
Lemma resolveCommit_doubleStep b from move p r :
  readCell b (row from) (col from) = Ok (Some p) →
  resolveCommit b from move p = Ok r →
  resDoubleStep r = true →
  type p = Pawn ∧ Z.abs (row (sq move) - row from) = 2
  ∧ lastMoveTo r = sq move
  ∧ nextPieceState r = promoteIfLastRank (markMoved p) move.
Proof.
  intros Hread. unfold resolveCommit. rewrite cloneBoard_id. intros H Hdbl.
  apply bind_Ok in H as (ods & Hods & H).
  apply bind_Ok in H as (od & Hod & H).
  assert (sq move = mkSquare (row (sq move)) (col (sq move))) as Hsq
    by (by destruct (sq move)).
  assert (∀ nb r0, readCell nb (row from) (col from) = Ok (Some p) →
            (mv ← movePieceWithPromotion nb from move;
             Ok {| nextBoard := mv.1; nextPieceState := mv.2;
                   lastMoveTo := mkSquare (row (sq move)) (col (sq move));
                   resDoubleStep := isDoubleStep p from move |}) = Ok r0 →
            resDoubleStep r0 = true →
            type p = Pawn ∧ Z.abs (row (sq move) - row from) = 2
            ∧ lastMoveTo r0 = sq move
            ∧ nextPieceState r0 = promoteIfLastRank (markMoved p) move) as Hrel.
  { intros nb r0 Hnb Hr0 Hd0. apply bind_Ok in Hr0 as (mv & Hmv & [= <-]).
    simpl in *. unfold isDoubleStep in Hd0.
    apply andb_true_iff in Hd0 as [Ht%bool_decide_eq_true Ha%bool_decide_eq_true].
    repeat split; try done. by eapply movePieceWithPromotion_piece. }
  destruct ods as [ds|]; [|by eapply Hrel].
  destruct od as [d|]; [|by eapply Hrel].
  destruct (decide (color d ≠ color p)) as [Hc|Hc]; [|by eapply Hrel].
  apply bind_Ok in H as (odob & Hdob & H).
  destruct odob as [dob|]; [|injection H as <-; by simpl in Hdbl].
  apply bind_Ok in H as (b1 & Hb1 & H).
  destruct (hp _ <=? 0); [|injection H as <-; by simpl in Hdbl].
  apply bind_Ok in H as (b2 & Hb2 & H).
  eapply (Hrel b2); [|done..].
  (* the defender's square is not the origin: the two pieces differ in colour *)
  pose proof Hread as Hfrom.
  apply readCell_Ok in Hod, Hread.
  assert (¬ (row from = row ds ∧ col from = col ds)) as Hne.
  { intros [E1 E2]. rewrite E1, E2, <- Hod in Hread. congruence. }
  rewrite (writeCell_readCell _ _ _ _ _ _ _ Hb2), decide_False by done.
  rewrite (writeCell_readCell _ _ _ _ _ _ _ Hb1), decide_False by done.
  by rewrite Hfrom.
Qed.

(** C6. A pawn is offered an en-passant move exactly when generation is
    not in attack-map mode and the stored last move is a double pawn step of
    an opposing pawn that ended on the pawn's own row, one column away, with
    the square diagonally ahead (behind that pawn) an empty square of the
    board; the move offered goes to that square.  Since every committed move
    replaces the stored last move, an en-passant offer in the scene a commit
    produces means that this very commit was such a double step. *)
Theorem C6_en_passant :
  (∀ (lm : option LastMove) (b : Board) (r c : Z) (pawn : Piece)
     (forAttackMap : bool) (m : Move),
     type pawn = Pawn →
     (m ∈ getPseudoMoves lm b r c pawn forAttackMap ∧ special m = Some EnPassant)
     ↔ (forAttackMap = false
        ∧ ∃ l, lm = Some l ∧ wasDoublePawnStep l = true
               ∧ type (lmPiece l) = Pawn ∧ color (lmPiece l) ≠ color pawn
               ∧ row (lmTo l) = r ∧ Z.abs (col (lmTo l) - c) = 1
               ∧ inBounds (r + pawnDirection (color pawn)) (col (lmTo l)) = true
               ∧ cell b (r + pawnDirection (color pawn)) (col (lmTo l)) = None
               ∧ m = enPassantMove (r + pawnDirection (color pawn)) (col (lmTo l))))
  ∧ (∀ (s s' : Scene) (from : Square) (move : Move) (origin : Piece)
       (r c : Z) (pawn : Piece) (m : Move),
       isResolvingMove s = false →
       readCell (board s) (row from) (col from) = Ok (Some origin) →
       commitMove s from move = Ok s' →
       type pawn = Pawn →
       m ∈ getPseudoMoves (lastMove s') (board s') r c pawn false →
       special m = Some EnPassant →
       type origin = Pawn ∧ color origin ≠ color pawn
       ∧ Z.abs (row (sq move) - row from) = 2
       ∧ lastMove s' = Some {| lmFrom := from; lmTo := sq move;
                               lmPiece := markMoved origin;
                               wasDoublePawnStep := true |}
       ∧ row (sq move) = r ∧ Z.abs (col (sq move) - c) = 1).
Proof.
  split.
  - intros lm b r c pawn fam m Ht.
    by rewrite getPseudoMoves_enPassant, pawnEnPassant_elem.
  - intros s s' from move origin r c pawn m Hres Hread Hc Ht Hm Hs.
    destruct (commitMove_Ok _ _ _ _ _ Hres Hread Hc) as (res & Hr & _ & _ & Hlm & _).
    assert (m ∈ pawnEnPassant (lastMove s') (board s') r c pawn false) as Hep
      by (by apply getPseudoMoves_enPassant).
    apply pawnEnPassant_elem in Hep
      as (_ & l & Hl & Hdbl & Hty & Hcol & Hrow & Habs & _).
    rewrite Hlm in Hl. injection Hl as <-. simpl in *.
    destruct (resolveCommit_doubleStep _ _ _ _ _ Hread Hr Hdbl)
      as (Hto & Hstep & Hlast & Hnext).
    rewrite Hlast, Hnext in *. rewrite Hlm, Hdbl.
    assert (promoteIfLastRank (markMoved origin) move = markMoved origin) as Hnp.
    { unfold promoteIfLastRank in *. destruct (_ && _); [done|done]. }
    rewrite Hnp in *. by repeat split.
Qed.

Lemma enPassantScene_commit :
  commitMove (sceneOf enPassantBoard Black None) (mkSquare 1 3) (plainMove 3 3)
  = Ok enPassantScene.
Proof. by vm_compute. Qed.

(** After d7-d5 the white pawn on e5 is offered e5xd6 en passant, and the
    offer traces back to that double step. *)
Lemma C6_witness :
  type (createPiece Black Pawn) = Pawn
  ∧ color (createPiece Black Pawn) ≠ color (createPiece White Pawn)
  ∧ Z.abs (row (sq (plainMove 3 3)) - row (mkSquare 1 3)) = 2
  ∧ lastMove enPassantScene
    = Some {| lmFrom := mkSquare 1 3; lmTo := sq (plainMove 3 3);
              lmPiece := markMoved (createPiece Black Pawn);
              wasDoublePawnStep := true |}
  ∧ row (sq (plainMove 3 3)) = 3 ∧ Z.abs (col (sq (plainMove 3 3)) - 4) = 1.
Proof.
  destruct C6_en_passant as [_ H].
  apply (H (sceneOf enPassantBoard Black None) enPassantScene (mkSquare 1 3)
           (plainMove 3 3) (createPiece Black Pawn) 3 4 (createPiece White Pawn)
           (enPassantMove 2 3));
    [reflexivity | reflexivity | exact enPassantScene_commit | reflexivity
    | | reflexivity].
  apply (bool_decide_unpack _). by vm_compute.
Defined.

(** ** Game status *)

Lemma anyLegalFrom_true lm b c squares :
  anyLegalFrom lm b c squares = Ok true →
  ∃ s piece ms, s ∈ squares ∧ cellAt b s = Some piece ∧ color piece = c
                ∧ getLegalMoves lm b s = Ok ms ∧ ms ≠ [].
Proof.
  induction squares as [|s rest IH]; simpl; [done|]. intros H.
  assert (anyLegalFrom lm b c rest = Ok true →
          ∃ s0 piece ms, s0 ∈ s :: rest ∧ cellAt b s0 = Some piece
                         ∧ color piece = c
                         ∧ getLegalMoves lm b s0 = Ok ms ∧ ms ≠ []) as Hrest.
  { intros (s0 & piece & ms & Hin & Hrest)%IH. exists s0, piece, ms.
    split; [by right | done]. }
  destruct (cellAt b s) as [piece|] eqn:Hp; [|by apply Hrest].
  destruct (decide (color piece = c)) as [Hc|Hc]; [|by apply Hrest].
  apply bind_Ok in H as (ms & Hms & H).
  destruct (0 <? length ms)%nat eqn:Hlen; [|by apply Hrest].
  exists s, piece, ms. split; [by left|]. repeat split; try done.
  intros ->. by simpl in Hlen.
Qed.

Lemma anyLegalFrom_false lm b c squares s piece ms :
  anyLegalFrom lm b c squares = Ok false →
  s ∈ squares → cellAt b s = Some piece → color piece = c →
  getLegalMoves lm b s = Ok ms → ms = [].
Proof.
  induction squares as [|s0 rest IH]; simpl; [by intros _ ?%elem_of_nil|].
  intros H Hin Hp Hc Hms. apply elem_of_cons in Hin as [->|Hin].
  - rewrite Hp, decide_True, Hms in H by done. simpl in H.
    destruct ms; [done|]. by simpl in H.
  - apply IH; try done.
    destruct (cellAt b s0) as [p0|]; [|done].
    destruct (decide (color p0 = c)); [|done].
    apply bind_Ok in H as (ms0 & _ & H). by destruct (0 <? length ms0)%nat.
Qed.

(** The scan answers [true] exactly when some piece of the colour can move. *)
Lemma hasAnyLegalMove_spec lm b c x :
  wfBoard b → hasAnyLegalMove lm b c = Ok x → (x = true ↔ canMove lm b c).
Proof.
  intros Hwf Hx. unfold hasAnyLegalMove in Hx. split.
  - intros ->. apply anyLegalFrom_true in Hx as (s & piece & ms & _ & H).
    by exists s, piece, ms.
  - intros (s & piece & ms & Hp & Hc & Hms & Hne).
    destruct x; [done|]. exfalso. apply Hne.
    eapply anyLegalFrom_false; try done.
    apply elem_of_allSquares. by eapply cell_Some_inBounds.
Qed.

Lemma commitMove_wf s from move p s' :
  isResolvingMove s = false →
  readCell (board s) (row from) (col from) = Ok (Some p) →
  commitMove s from move = Ok s' → wfBoard (board s) → wfBoard (board s').
Proof.
  intros Hres Hread Hc Hwf.
  destruct (commitMove_Ok _ _ _ _ _ Hres Hread Hc) as (r & Hr & -> & _).
  eapply (simulateResolvedBoard_wf (board s) from move); [|done].
  by rewrite (resolveCommit_board _ _ _ _ Hread), Hr.
Qed.

Lemma commitMove_gameState s from move p s' :
  isResolvingMove s = false →
  readCell (board s) (row from) (col from) = Ok (Some p) →
  commitMove s from move = Ok s' →
  ∃ x, hasAnyLegalMove (lastMove s') (board s') (turn s') = Ok x
       ∧ gameState s'
         = if x then Active
           else if isKingInCheck (board s') (turn s') then Checkmate else Stalemate.
Proof.
  intros Hres Hread. unfold commitMove. rewrite Hres, Hread. simpl. intros H.
  apply bind_Ok in H as (r & Hr & H).
  apply bind_Ok in H as (s1 & Hs1 & [= <-]). simpl.
  unfold evaluateGameState in Hs1. simpl in Hs1.
  apply bind_Ok in Hs1 as (x & Hx & [= <-]). simpl. by exists x.
Qed.

(** C7. A committed move hands the turn to the other colour and leaves the
    status recomputed for that colour on the new board: [Active] exactly
    when some piece of that colour has a non-empty legal-move list, and
    otherwise [Checkmate] exactly when that colour's king is in check and
    [Stalemate] exactly when it is not. *)
Theorem C7_status_after_commit :
  ∀ (s s' : Scene) (from : Square) (move : Move) (p : Piece),
    wfBoard (board s) → isResolvingMove s = false →
    cellAt (board s) from = Some p →
    commitMove s from move = Ok s' →
    let side := turn s' in
    let movable := canMove (lastMove s') (board s') side in
    side = enemyOf (turn s)
    ∧ (gameState s' = Active ↔ movable)
    ∧ (gameState s' = Checkmate
       ↔ ¬ movable ∧ isKingInCheck (board s') side = true)
    ∧ (gameState s' = Stalemate
       ↔ ¬ movable ∧ isKingInCheck (board s') side = false).
Proof.
  intros s s' from move p Hwf Hres Hp Hc side movable.
  pose proof (cell_Some_inBounds _ _ _ _ Hwf Hp) as [Hr _]%inBounds_spec.
  assert (readCell (board s) (row from) (col from) = Ok (Some p)) as Hread
    by (rewrite readCell_wf by done; by rewrite <- Hp).
  destruct (commitMove_Ok _ _ _ _ _ Hres Hread Hc) as (_ & _ & _ & Hturn & _).
  pose proof (commitMove_wf _ _ _ _ _ Hres Hread Hc Hwf) as Hwf'.
  destruct (commitMove_gameState _ _ _ _ _ Hres Hread Hc) as (x & Hx & Hst).
  pose proof (hasAnyLegalMove_spec _ _ _ _ Hwf' Hx) as Hspec.
  fold side in Hst, Hspec, Hturn. fold movable in Hspec.
  split; [done|]. rewrite Hst.
  destruct x.
  - assert movable as Hm by (by apply Hspec).
    repeat split; try done; intuition congruence.
  - assert (¬ movable) as Hm by (intros Hm%Hspec; done).
    destruct (isKingInCheck (board s') side);
      repeat split; try done; intuition congruence.
Qed.

Lemma backRankScene_commit :
  commitMove (sceneOf backRankBoard White None) (mkSquare 7 0) (plainMove 0 0)
  = Ok backRankScene.
Proof. by vm_compute. Qed.

Example backRankScene_checkmate :
  turn backRankScene = Black ∧ gameState backRankScene = Checkmate.
Proof. by vm_compute. Qed.

(** After Ra8 it is Black's turn, and the status stored is the recomputed one. *)
Lemma C7_witness :
  turn backRankScene = enemyOf White
  ∧ (gameState backRankScene = Active
     ↔ canMove (lastMove backRankScene) (board backRankScene) (turn backRankScene))
  ∧ (gameState backRankScene = Checkmate
     ↔ ¬ canMove (lastMove backRankScene) (board backRankScene) (turn backRankScene)
       ∧ isKingInCheck (board backRankScene) (turn backRankScene) = true)
  ∧ (gameState backRankScene = Stalemate
     ↔ ¬ canMove (lastMove backRankScene) (board backRankScene) (turn backRankScene)
       ∧ isKingInCheck (board backRankScene) (turn backRankScene) = false).
Proof.
  apply (C7_status_after_commit (sceneOf backRankBoard White None) backRankScene
           (mkSquare 7 0) (plainMove 0 0) (createPiece White Rook));
    [apply wfBoardb_true; reflexivity | reflexivity | reflexivity
    | exact backRankScene_commit].
Defined.

(** ** Castling *)

Lemma existsb_false {A} (f : A → bool) (l : list A) :
  existsb f l = false ↔ ∀ x, x ∈ l → f x = false.
Proof.
  induction l as [|a l IH]; simpl.
  - split; [by intros _ x ?%elem_of_nil | done].
  - rewrite orb_false_iff, IH. split.
    + intros [Ha Hl] x [->|Hx]%elem_of_cons; auto.
    + intros H. split; [apply H; by left | intros x Hx; apply H; by right].
Qed.

Lemma slot_wf b r c :
  wfBoard b → inBounds r c = true → slot b r c = Some (cell b r c).
Proof.
  intros Hwf [Hr Hc]%inBounds_spec.
  destruct (wfBoard_row b r Hwf Hr) as (rw & Hrw & Hlen).
  unfold cell, slot.
  replace ((0 <=? r) && (0 <=? c)) with true
    by (symmetry; apply andb_true_iff; split; apply Z.leb_le; lia).
  rewrite Hrw. simpl.
  destruct (lookup_lt_is_Some_2 rw (Z.to_nat c)) as [o Ho]; [lia|].
  by rewrite Ho.
Qed.

Lemma castleFor_iff att b r p side :
  castleMove r side ∈ castleFor att b r p side ↔
  (∃ rook, cell b r (rookCol side) = Some rook ∧ type rook = Rook
           ∧ color rook = color p ∧ moved rook = false)
  ∧ (∀ passCol, passCol ∈ passCols side → slot b r passCol = Some None)
  ∧ (∀ dangerCol,
       dangerCol ∈ (if bool_decide (kingTargetCol side = 6) then [5; 6] else [3; 2]) →
       att b r dangerCol (enemyOf (color p)) = false).
Proof.
  unfold castleFor. destruct (cell b r (rookCol side)) as [rk|] eqn:Hrk.
  - destruct (bool_decide (type rk ≠ Rook) || bool_decide (color rk ≠ color p)
              || moved rk) eqn:Hbad.
    + split; [by intros ?%elem_of_nil|].
      intros ((rook & [= <-] & Ht & Hc & Hm) & _).
      rewrite Hm, !bool_decide_eq_false_2 in Hbad by (intros ?; done). done.
    + apply orb_false_iff in Hbad as [Hbad Hm].
      apply orb_false_iff in Hbad as [Ht%bool_decide_eq_false Hc%bool_decide_eq_false].
      assert (∃ rook, Some rk = Some rook ∧ type rook = Rook
                      ∧ color rook = color p ∧ moved rook = false) as Hrook.
      { exists rk. repeat split; [|by destruct (decide (color rk = color p))|done].
        by destruct (decide (type rk = Rook)). }
      destruct (existsb _ (passCols side)) eqn:Hblocked.
      * split; [by intros ?%elem_of_nil|]. intros (_ & Hpass & _).
        apply existsb_exists in Hblocked as (pc & Hpc & Hne).
        apply bool_decide_eq_true in Hne. exfalso.
        apply Hne, Hpass. by apply list_elem_of_In.
      * rewrite existsb_false in Hblocked.
        assert (∀ passCol, passCol ∈ passCols side → slot b r passCol = Some None)
          as Hpass.
        { intros pc Hpc. specialize (Hblocked pc Hpc).
          apply bool_decide_eq_false in Hblocked.
          by destruct (decide (slot b r pc = Some None)). }
        destruct (existsb _ (if bool_decide _ then _ else _)) eqn:Hdanger; simpl.
        -- split; [by intros ?%elem_of_nil|]. intros (_ & _ & Hsafe).
           apply existsb_exists in Hdanger as (dc & Hdc & Hatt).
           rewrite Hsafe in Hatt; [done | by apply list_elem_of_In].
        -- rewrite existsb_false in Hdanger. split; [done|].
           intros _. by apply list_elem_of_singleton.
  - split; [by intros ?%elem_of_nil|]. by intros ((rook & ? & _) & _).
Qed.

Lemma castleMove_side_inj r side side' :
  side ∈ castleSides → side' ∈ castleSides →
  castleMove r side = castleMove r side' → side = side'.
Proof.
  unfold castleSides. intros Hs Hs'.
  apply elem_of_cons in Hs as [->|Hs];
    [|apply list_elem_of_singleton in Hs as ->];
    (apply elem_of_cons in Hs' as [->|Hs'];
     [|apply list_elem_of_singleton in Hs' as ->]); done.
Qed.

Lemma kingMoves_castle_iff chk att b r c p fam side :
  side ∈ castleSides →
  castleMove r side ∈ kingMoves chk att b r c p fam ↔
  fam = false ∧ moved p = false ∧ chk b (color p) = false
  ∧ castleMove r side ∈ castleFor att b r p side.
Proof.
  intros Hside. unfold kingMoves. rewrite elem_of_app. split.
  - intros [H|H]; [by apply kingSteps_plain in H as (? & ? & ? & _)|].
    destruct (negb fam && negb (moved p) && negb (chk b (color p))) eqn:Hg;
      [|by apply elem_of_nil in H].
    apply andb_true_iff in Hg as [Hg Hchk%negb_true_iff].
    apply andb_true_iff in Hg as [Hfam%negb_true_iff Hmoved%negb_true_iff].
    apply list_elem_of_bind in H as (side' & H & Hside').
    pose proof (castleFor_elem _ _ _ _ _ _ H) as Heq.
    apply castleMove_side_inj in Heq as ->; done.
  - intros (-> & Hm & Hchk & H). right. rewrite Hm, Hchk. cbn [negb andb].
    apply list_elem_of_bind. by exists side.
Qed.

Lemma castleSides_cases side :
  side ∈ castleSides → side = kingSide ∨ side = queenSide.
Proof.
  unfold castleSides. intros [->|H]%elem_of_cons; [by left|].
  apply list_elem_of_singleton in H as ->. by right.
Qed.

(** For a king on the e-file the generator's tables are the conditions of
    the specification. *)
Lemma getPseudoMoves_castle_iff lm b r king fam side :
  wfBoard b → 0 <= r < 8 → type king = King → side ∈ castleSides →
  castleMove r side ∈ getPseudoMoves lm b r 4 king fam
  ↔ castleOfferStated b r 4 king side fam.
Proof.
  intros Hwf Hr Hk Hside. unfold getPseudoMoves, pseudoMovesBody. rewrite Hk.
  rewrite kingMoves_castle_iff, castleFor_iff by done.
  unfold castleOfferStated.
  assert (∀ c, 0 <= c < 8 →
               (slot b r c = Some None ↔ cell b r c = None)) as Hslot.
  { intros c Hc. rewrite slot_wf by (try done; apply inBounds_spec; lia).
    split; [by intros [= ->] | by intros ->]. }
  assert (∀ c, isSquareAttacked b r c (enemyOf (color king)) = false
               ↔ ¬ attackedBy b (enemyOf (color king)) (mkSquare r c)) as Hatt.
  { intros c. rewrite <- (isSquareAttacked_true b r c _ Hwf).
    by destruct (isSquareAttacked b r c _). }
  destruct (castleSides_cases side Hside) as [-> | ->]; simpl.
  - split.
    + intros (Hf & Hm & Hc & Hrook & Hpass & Hsafe). repeat split; try done.
      * intros c Hc'. apply Hslot; [lia|]. apply Hpass.
        assert (c = 5 ∨ c = 6) as [-> | ->] by lia;
          [by left | right; by left].
      * intros c Hc'. apply Hatt, Hsafe.
        destruct Hc' as [-> | ->]; [by left | right; by left].
    + intros (Hf & Hm & Hc & Hrook & Hpass & Hsafe). repeat split; try done.
      * intros pc Hpc. apply Hslot.
        -- repeat (apply elem_of_cons in Hpc as [->|Hpc]; [lia|]).
           by apply elem_of_nil in Hpc.
        -- apply Hpass.
           repeat (apply elem_of_cons in Hpc as [->|Hpc]; [lia|]).
           by apply elem_of_nil in Hpc.
      * intros dc Hdc. apply Hatt, Hsafe.
        repeat (apply elem_of_cons in Hdc as [->|Hdc]; [lia|]).
        by apply elem_of_nil in Hdc.
  - split.
    + intros (Hf & Hm & Hc & Hrook & Hpass & Hsafe). repeat split; try done.
      * intros c Hc'. apply Hslot; [lia|]. apply Hpass.
        assert (c = 1 ∨ c = 2 ∨ c = 3) as [-> | [-> | ->]] by lia;
          [by left | right; by left | right; right; by left].
      * intros c Hc'. apply Hatt, Hsafe.
        destruct Hc' as [-> | ->]; [by left | right; by left].
    + intros (Hf & Hm & Hc & Hrook & Hpass & Hsafe). repeat split; try done.
      * intros pc Hpc. apply Hslot.
        -- repeat (apply elem_of_cons in Hpc as [->|Hpc]; [lia|]).
           by apply elem_of_nil in Hpc.
        -- apply Hpass.
           repeat (apply elem_of_cons in Hpc as [->|Hpc]; [lia|]).
           by apply elem_of_nil in Hpc.
      * intros dc Hdc. apply Hatt, Hsafe.
        repeat (apply elem_of_cons in Hdc as [->|Hdc]; [lia|]).
        by apply elem_of_nil in Hdc.
Qed.

Lemma promoteIfLastRank_not_pawn p move :
  type p ≠ Pawn → promoteIfLastRank p move = p.
Proof.
  intros Ht. unfold promoteIfLastRank. by rewrite bool_decide_eq_false_2.
Qed.

(** Relocation by a castle move of a king on the e-file. *)
Lemma movePieceWithPromotion_castle b r king rook side :
  wfBoard b → 0 <= r < 8 → side ∈ castleSides →
  cell b r 4 = Some king → type king = King →
  cell b r (rookCol side) = Some rook →
  ∃ b', movePieceWithPromotion b (mkSquare r 4) (castleMove r side)
        = Ok (b', markMoved king)
    ∧ ∀ r' c',
        cell b' r' c'
        = if decide (r' = r ∧ c' = rookTargetCol side) then Some (markMoved rook)
          else if decide (r' = r ∧ c' = rookCol side) then None
          else if decide (r' = r ∧ c' = kingTargetCol side) then Some (markMoved king)
          else if decide (r' = r ∧ c' = 4) then None
          else cell b r' c'.
Proof.
  intros Hwf Hr Hside Hking Hk Hrook.
  destruct (movePieceWithPromotion_total b (mkSquare r 4) (castleMove r side) Hwf)
    as ([b' mp] & Hres & _); [done| |].
  { intros p _. by apply castleMove_onGrid. }
  exists b'. pose proof Hres as Hres'. unfold movePieceWithPromotion in Hres.
  rewrite readCell_wf in Hres by done. simpl in Hres. rewrite Hking in Hres.
  simpl in Hres.
  rewrite promoteIfLastRank_not_pawn in Hres by (simpl; congruence).
  apply bind_Ok in Hres as (b1 & Hb1 & Hres). simpl in Hres.
  apply bind_Ok in Hres as (b3 & Hb3 & Hres).
  apply bind_Ok in Hres as (b4 & Hb4 & [= <- <-]).
  split; [done|].
  apply bind_Ok in Hb4 as (x & Hx & Hb4).
  apply bind_Ok in Hb4 as (b5 & Hb5 & Hb4).
  apply readCell_Ok in Hx.
  rewrite (writeCell_cell _ _ _ _ _ _ _ Hb3),
    (writeCell_cell _ _ _ _ _ _ _ Hb1) in Hx.
  assert (x = Some rook) as ->.
  { destruct (castleSides_cases side Hside) as [-> | ->]; simpl in *;
      rewrite !decide_False in Hx by lia; congruence. }
  intros r' c'.
  rewrite (writeCell_cell _ _ _ _ _ r' c' Hb4),
    (writeCell_cell _ _ _ _ _ r' c' Hb5),
    (writeCell_cell _ _ _ _ _ r' c' Hb3),
    (writeCell_cell _ _ _ _ _ r' c' Hb1).
  done.
Qed.





(** ** Cloning on the heap *)

Lemma extends_refl h : extends h h.
Proof. by intros l o. Qed.

Lemma extends_trans h0 h1 h2 : extends h0 h1 → extends h1 h2 → extends h0 h2.
Proof. intros H1 H2 l o Hl. by apply H2, H1. Qed.

Lemma extends_length h0 h : extends h0 h → (length h0 ≤ length h)%nat.
Proof.
  intros Hext. destruct (decide (length h0 ≤ length h)%nat) as [|Hlt]; [done|].
  destruct (lookup_lt_is_Some_2 h0 (length h)) as [o Ho]; [lia|].
  apply Hext, lookup_lt_Some in Ho. lia.
Qed.

Lemma extends_alloc h o : extends h (alloc h o).1.
Proof. intros l o' Hl. simpl. by apply lookup_app_l_Some. Qed.

Lemma extends_insert h0 h l o :
  (length h0 ≤ l)%nat → extends h0 h → extends h0 (<[l := o]> h).
Proof.
  intros Hl Hext l' o' Hl'. apply lookup_lt_Some in Hl' as Hlt.
  rewrite list_lookup_insert_ne by lia. by apply Hext.
Qed.

Lemma alloc_lookup h o : (alloc h o).1 !! (alloc h o).2 = Some o.
Proof. simpl. by rewrite lookup_app_r, Nat.sub_diag by lia. Qed.

Lemma pieceAt_Ok h l p : pieceAt h l = Ok p ↔ h !! l = Some (OPiece p).
Proof.
  unfold pieceAt. destruct (h !! l) as [[]|]; split; try done; congruence.
Qed.

Lemma rowAt_Ok h l cells : rowAt h l = Ok cells ↔ h !! l = Some (ORow cells).
Proof.
  unfold rowAt. destruct (h !! l) as [[]|]; split; try done; congruence.
Qed.

Lemma gridAt_Ok h l rows : gridAt h l = Ok rows ↔ h !! l = Some (OGrid rows).
Proof.
  unfold gridAt. destruct (h !! l) as [[]|]; split; try done; congruence.
Qed.

Lemma absCells_extends h h' cells rw :
  extends h h' → absCells h cells = Ok rw → absCells h' cells = Ok rw.
Proof.
  intros Hext. revert rw. induction cells as [|[l|] rest IH]; intros rw; simpl;
    [done| |].
  - intros H. apply bind_Ok in H as (p & Hp & H).
    apply bind_Ok in H as (r & Hr & [= <-]).
    apply pieceAt_Ok, Hext, pieceAt_Ok in Hp. rewrite Hp. simpl.
    by rewrite (IH r Hr).
  - intros H. apply bind_Ok in H as (r & Hr & [= <-]). by rewrite (IH r Hr).
Qed.

Lemma absRows_extends h h' rows b :
  extends h h' → absRows h rows = Ok b → absRows h' rows = Ok b.
Proof.
  intros Hext. revert b. induction rows as [|rl rest IH]; intros b; simpl; [done|].
  intros H. apply bind_Ok in H as (cells & Hc & H).
  apply bind_Ok in H as (rw & Hrw & H).
  apply bind_Ok in H as (r & Hr & [= <-]).
  apply rowAt_Ok, Hext, rowAt_Ok in Hc. rewrite Hc. simpl.
  rewrite (absCells_extends _ _ _ _ Hext Hrw). simpl. by rewrite (IH r Hr).
Qed.

(** A board whose objects are untouched still stands for the same value. *)
Lemma absBoard_extends h h' bl b :
  extends h h' → absBoard h bl = Ok b → absBoard h' bl = Ok b.
Proof.
  intros Hext. unfold absBoard. intros H. apply bind_Ok in H as (rows & Hg & H).
  apply gridAt_Ok, Hext, gridAt_Ok in Hg. rewrite Hg. simpl.
  by eapply absRows_extends.
Qed.

Lemma ownedCells_mono n m cells :
  (n ≤ m)%nat → ownedCells m cells → ownedCells n cells.
Proof. intros Hnm H l Hl. specialize (H l Hl). lia. Qed.

Lemma cloneCells_Ok h cells h' cells' :
  cloneCells h cells = Ok (h', cells') →
  extends h h' ∧ ownedCells (length h) cells'
  ∧ ∀ rw, absCells h cells = Ok rw → absCells h' cells' = Ok rw.
Proof.
  revert h h' cells'. induction cells as [|[l|] rest IH]; intros h h' cells'; simpl.
  - intros [= <- <-]. split; [apply extends_refl|].
    split; [by intros l ?%elem_of_nil | done].
  - intros H. apply bind_Ok in H as (p & Hp & H).
    apply bind_Ok in H as ([h2 rest'] & Hrest & [= <- <-]). simpl in *.
    destruct (IH _ _ _ Hrest) as (Hext & Hown & Habs).
    pose proof (extends_alloc h (OPiece (copyPiece p))) as Hext1. simpl in Hext1.
    split; [by eapply extends_trans|]. split.
    + intros l' [[= <-]|Hl']%elem_of_cons; [done|].
      apply Hown in Hl'. rewrite length_app in Hl'. simpl in Hl'. lia.
    + intros rw. rewrite Hp. simpl. intros Hrw.
      apply bind_Ok in Hrw as (r & Hr & [= <-]).
      assert (pieceAt h2 (length h) = Ok p) as ->.
      { apply pieceAt_Ok, Hext.
        rewrite <- (copyPiece_id p) at 2.
        apply (alloc_lookup h (OPiece (copyPiece p))). }
      simpl. rewrite (Habs r); [done|]. by eapply absCells_extends.
  - intros H. apply bind_Ok in H as ([h2 rest'] & Hrest & [= <- <-]). simpl in *.
    destruct (IH _ _ _ Hrest) as (Hext & Hown & Habs).
    split; [done|]. split.
    + intros l' [[=]|Hl']%elem_of_cons. by apply Hown.
    + intros rw Hrw. apply bind_Ok in Hrw as (r & Hr & [= <-]).
      by rewrite (Habs r Hr).
Qed.

Lemma cloneCells_total h cells rw :
  absCells h cells = Ok rw → ∃ r, cloneCells h cells = Ok r.
Proof.
  revert h rw. induction cells as [|[l|] rest IH]; intros h rw; simpl.
  - by eexists.
  - intros H. apply bind_Ok in H as (p & Hp & H).
    apply bind_Ok in H as (r & Hr & _). rewrite Hp. simpl.
    destruct (IH (h ++ [OPiece (copyPiece p)]) r) as [x Hx].
    { eapply absCells_extends; [|done]. apply (extends_alloc h (OPiece (copyPiece p))). }
    rewrite Hx. simpl. by eexists.
  - intros H. apply bind_Ok in H as (r & Hr & _).
    destruct (IH h r Hr) as [x Hx]. rewrite Hx. simpl. by eexists.
Qed.

Lemma cloneRows_Ok h rows h' rows' :
  cloneRows h rows = Ok (h', rows') →
  extends h h'
  ∧ (∀ rl, rl ∈ rows' →
       (length h ≤ rl)%nat
       ∧ ∃ cells, h' !! rl = Some (ORow cells) ∧ ownedCells (length h) cells)
  ∧ ∀ b, absRows h rows = Ok b → absRows h' rows' = Ok b.
Proof.
  revert h h' rows'. induction rows as [|rl rest IH]; intros h h' rows'; simpl.
  - intros [= <- <-]. split; [apply extends_refl|].
    split; [by intros rl ?%elem_of_nil | done].
  - intros H. apply bind_Ok in H as (cells & Hcells & H).
    apply bind_Ok in H as ([h1 cells1] & Hc & H).
    apply bind_Ok in H as ([h2 rest'] & Hrest & [= <- <-]). simpl in *.
    destruct (cloneCells_Ok _ _ _ _ Hc) as (Hext1 & Hown1 & Habs1).
    destruct (IH _ _ _ Hrest) as (Hext2 & Hown2 & Habs2).
    pose proof (extends_alloc h1 (ORow cells1)) as Hexta. simpl in Hexta.
    pose proof (extends_length _ _ Hext1) as Hlen1.
    assert (extends h h2) as Hext
      by (eapply extends_trans; [done|]; by eapply extends_trans).
    split; [done|]. split.
    + intros rl' [->|Hrl']%elem_of_cons.
      * split; [done|]. exists cells1. split; [|done].
        apply Hext2. apply (alloc_lookup h1 (ORow cells1)).
      * destruct (Hown2 rl' Hrl') as (Hge & cells' & Hl & Hown).
        rewrite length_app in Hge, Hown. simpl in Hge, Hown.
        split; [lia|]. exists cells'. split; [done|].
        eapply ownedCells_mono; [|done]. lia.
    + intros b. rewrite Hcells. simpl. intros Hb.
      apply bind_Ok in Hb as (rw & Hrw & Hb).
      apply bind_Ok in Hb as (r & Hr & [= <-]).
      assert (rowAt h2 (length h1) = Ok cells1) as ->.
      { apply rowAt_Ok, Hext2. apply (alloc_lookup h1 (ORow cells1)). }
      simpl.
      rewrite (absCells_extends h1 h2 cells1 rw);
        [|exact (extends_trans _ _ _ Hexta Hext2) | by apply Habs1].
      simpl. rewrite (Habs2 r); [done|].
      eapply absRows_extends; [|done]. exact (extends_trans _ _ _ Hext1 Hexta).
Qed.

Lemma cloneRows_total h rows b :
  absRows h rows = Ok b → ∃ r, cloneRows h rows = Ok r.
Proof.
  revert h b. induction rows as [|rl rest IH]; intros h b; simpl; [by eexists|].
  intros H. apply bind_Ok in H as (cells & Hcells & H).
  apply bind_Ok in H as (rw & Hrw & H).
  apply bind_Ok in H as (r & Hr & _). rewrite Hcells. simpl.
  destruct (cloneCells_total h cells rw Hrw) as [[h1 cells1] Hc]. rewrite Hc. simpl.
  destruct (cloneCells_Ok _ _ _ _ Hc) as (Hext1 & _).
  destruct (IH (h1 ++ [ORow cells1]) r) as [x Hx].
  { eapply absRows_extends; [|done]. eapply extends_trans; [done|].
    apply (extends_alloc h1 (ORow cells1)). }
  rewrite Hx. simpl. by eexists.
Qed.

(** The clone is made of new objects only, leaves every existing object as
    it was, and stands for the same value as the board it copies. *)
Lemma cloneBoardH_Ok h bl h' nb :
  cloneBoardH h bl = Ok (h', nb) →
  extends h h' ∧ owned (length h) h' nb
  ∧ ∀ b, absBoard h bl = Ok b → absBoard h' nb = Ok b.
Proof.
  unfold cloneBoardH. intros H. apply bind_Ok in H as (rows & Hrows & H).
  apply bind_Ok in H as ([h1 rows1] & Hr & [= <- <-]). simpl.
  destruct (cloneRows_Ok _ _ _ _ Hr) as (Hext & Hown & Habs).
  pose proof (extends_alloc h1 (OGrid rows1)) as Hexta. simpl in Hexta.
  pose proof (extends_length _ _ Hext) as Hlen.
  split; [by eapply extends_trans|]. split.
  - split; [done|]. exists rows1. split; [apply (alloc_lookup h1 (OGrid rows1))|].
    intros rl Hrl. destruct (Hown rl Hrl) as (Hge & cells & Hl & Hc).
    split; [done|]. exists cells. split; [by apply Hexta | done].
  - intros b. unfold absBoard. rewrite Hrows. simpl. intros Hb.
    assert (gridAt (h1 ++ [OGrid rows1]) (length h1) = Ok rows1) as ->
      by (apply gridAt_Ok, (alloc_lookup h1 (OGrid rows1))).
    simpl. eapply absRows_extends; [done|]. by apply Habs.
Qed.

Lemma cloneBoardH_total h bl b :
  absBoard h bl = Ok b → ∃ r, cloneBoardH h bl = Ok r.
Proof.
  unfold absBoard, cloneBoardH. intros H. apply bind_Ok in H as (rows & Hrows & H).
  rewrite Hrows. simpl. destruct (cloneRows_total h rows b H) as [r Hr].
  rewrite Hr. simpl. by eexists.
Qed.

(** ** Mutating the clone leaves the original alone *)

Lemma separated_alloc h0 h nb o :
  separated h0 h nb →
  separated h0 (alloc h o).1 nb ∧ (length h0 ≤ (alloc h o).2)%nat.
Proof.
  intros [Hext (Hnb & rows & Hg & Hrows)]. simpl.
  split; [|by apply extends_length]. split.
  - eapply extends_trans; [done|]. apply (extends_alloc h o).
  - split; [done|]. exists rows. split; [by apply lookup_app_l_Some|].
    intros rl Hrl. destruct (Hrows rl Hrl) as (Hge & cells & Hl & Hc).
    split; [done|]. exists cells. split; [by apply lookup_app_l_Some | done].
Qed.

Lemma readRef_owned n h nb r c l :
  owned n h nb → readRef h nb r c = Ok (Some l) → (n ≤ l)%nat.
Proof.
  intros (_ & rows & Hg & Hrows). unfold readRef.
  apply gridAt_Ok in Hg. rewrite Hg. simpl.
  destruct (0 <=? r); [|done].
  destruct (rows !! Z.to_nat r) as [rl|] eqn:Hrl; [|done].
  apply list_elem_of_lookup_2 in Hrl.
  destruct (Hrows rl Hrl) as (_ & cells & Hl & Hc).
  apply rowAt_Ok in Hl. rewrite Hl. simpl.
  destruct (0 <=? c); [|done].
  destruct (cells !! Z.to_nat c) as [o|] eqn:Ho; [|done]. simpl.
  intros [= ->]. apply Hc. by eapply list_elem_of_lookup_2.
Qed.

Lemma elem_of_insert_inv {A} (l : list A) i v x :
  x ∈ <[i := v]> l → x = v ∨ x ∈ l.
Proof.
  intros [j Hj]%list_elem_of_lookup.
  destruct (decide (i = j)) as [->|Hne].
  - destruct (decide (j < length l)%nat).
    + rewrite list_lookup_insert_eq in Hj by done. left. congruence.
    + rewrite list_insert_ge in Hj by lia. right. by eapply list_elem_of_lookup_2.
  - rewrite list_lookup_insert_ne in Hj by done. right.
    by eapply list_elem_of_lookup_2.
Qed.

Lemma separated_writeRef h0 h nb r c v h' :
  separated h0 h nb → writeRef h nb r c v = Ok h' →
  (∀ l, v = Some l → (length h0 ≤ l)%nat) →
  separated h0 h' nb.
Proof.
  intros [Hext (Hnb & rows & Hg & Hrows)] Hw Hv. unfold writeRef in Hw.
  pose proof Hg as Hg'. apply gridAt_Ok in Hg'. rewrite Hg' in Hw. simpl in Hw.
  destruct (0 <=? r); [|done].
  destruct (rows !! Z.to_nat r) as [rl|] eqn:Hrl; [|done].
  apply list_elem_of_lookup_2 in Hrl.
  destruct (Hrows rl Hrl) as (Hge & cells & Hl & Hc).
  pose proof Hl as Hl'. apply rowAt_Ok in Hl'. rewrite Hl' in Hw. simpl in Hw.
  destruct (_ && _); [|done]. injection Hw as <-.
  assert (nb ≠ rl) as Hne by (intros ->; congruence).
  split; [by apply extends_insert|].
  split; [done|]. exists rows. split; [by rewrite list_lookup_insert_ne|].
  intros rl' Hrl'. destruct (Hrows rl' Hrl') as (Hge' & cells' & Hl1 & Hc').
  split; [done|]. destruct (decide (rl' = rl)) as [->|Hne'].
  - exists (<[Z.to_nat c := v]> cells). split.
    + apply list_lookup_insert_eq. by eapply lookup_lt_Some.
    + intros l [Heq|Hin]%elem_of_insert_inv; [by apply Hv | by apply Hc].
  - exists cells'. split; [by rewrite list_lookup_insert_ne | done].
Qed.

Lemma separated_assign h0 h nb r c l p p' :
  separated h0 h nb → readRef h nb r c = Ok (Some l) → pieceAt h l = Ok p →
  separated h0 (<[l := OPiece p']> h) nb.
Proof.
  intros [Hext Hown] Hread Hp.
  pose proof (readRef_owned _ _ _ _ _ _ Hown Hread) as Hge.
  destruct Hown as (Hnb & rows & Hg & Hrows). apply pieceAt_Ok in Hp.
  split; [by apply extends_insert|].
  split; [done|]. exists rows.
  split; [rewrite list_lookup_insert_ne; [done | intros ->; congruence]|].
  intros rl Hrl. destruct (Hrows rl Hrl) as (Hge' & cells & Hl & Hc).
  split; [done|]. exists cells. split; [|done].
  rewrite list_lookup_insert_ne; [done | intros ->; congruence].
Qed.

Lemma applyMutation_separated h0 h nb m h' :
  separated h0 h nb → applyMutation nb h m = Ok h' → separated h0 h' nb.
Proof.
  intros Hsep. destruct m as [r c|r c p|r c f]; simpl.
  - intros Hw. eapply separated_writeRef; [done..|]. by intros l.
  - intros Hw. destruct (separated_alloc h0 h nb (OPiece p) Hsep) as [Hsep' Hge].
    eapply separated_writeRef; [done..|]. by intros l [= <-].
  - intros H. apply bind_Ok in H as ([l|] & Hread & H); [|done].
    apply bind_Ok in H as (p & Hp & [= <-]). by eapply separated_assign.
Qed.

Lemma applyMutations_separated h0 h nb ms h' :
  separated h0 h nb → applyMutations nb h ms = Ok h' → separated h0 h' nb.
Proof.
  revert h. induction ms as [|m rest IH]; intros h Hsep; simpl.
  - by intros [= <-].
  - intros H. apply bind_Ok in H as (h1 & Hm & H).
    eapply IH; [|done]. by eapply applyMutation_separated.
Qed.

Lemma movePieceWithPromotionH_separated h0 h nb from move h' l :
  separated h0 h nb → movePieceWithPromotionH h nb from move = Ok (h', l) →
  separated h0 h' nb.
Proof.
  intros Hsep. unfold movePieceWithPromotionH. intros H.
  apply bind_Ok in H as ([pl|] & Hread & H).
  2:{ injection H as <- <-.
      by destruct (separated_alloc h0 h nb (OPiece (createPiece White Pawn)) Hsep). }
  apply bind_Ok in H as (piece & Hpiece & H).
  apply bind_Ok in H as (h1 & Hh1 & H).
  apply bind_Ok in H as (h2 & Hh2 & H).
  apply bind_Ok in H as (h3 & Hh3 & H).
  apply bind_Ok in H as (h4 & Hh4 & [= <- <-]).
  assert (separated h0 h1 nb) as Hsep1
    by (eapply separated_writeRef; [done..|]; by intros ?).
  assert (separated h0 h2 nb) as Hsep2.
  { destruct (decide _); [|by injection Hh2 as <-].
    eapply separated_writeRef; [done..|]. by intros ?. }
  destruct (separated_alloc h0 h2 nb
              (OPiece (promoteIfLastRank (markMoved piece) move)) Hsep2)
    as [Hsepa Hgea].
  assert (separated h0 h3 nb) as Hsep3
    by (eapply separated_writeRef; [done..|]; by intros ? [= <-]).
  destruct (special move) as [[|]|]; [|by injection Hh4 as <-..].
  destruct (rookFromCol move) as [rf|]; [|by injection Hh4 as <-].
  destruct (rookToCol move) as [rt|]; [|by injection Hh4 as <-].
  apply bind_Ok in Hh4 as (rookRef & Hrr & Hh4).
  apply bind_Ok in Hh4 as (h5 & Hh5 & Hh4).
  assert (separated h0 h5 nb) as Hsep5
    by (eapply separated_writeRef; [done..|]; by intros ?).
  destruct rookRef as [rl|]; [|by injection Hh4 as <-].
  apply bind_Ok in Hh4 as (rk & Hrk & Hh4).
  destruct (separated_alloc h0 h5 nb (OPiece (markMoved rk)) Hsep5) as [Hsepb Hgeb].
  eapply separated_writeRef; [done..|]. by intros ? [= <-].
Qed.

Lemma simulateResolvedBoardH_separated h bl from move h' nb :
  simulateResolvedBoardH h bl from move = Ok (h', nb) → separated h h' nb.
Proof.
  unfold simulateResolvedBoardH. intros H.
  apply bind_Ok in H as ([h1 nb1] & Hclone & H). simpl in H.
  destruct (cloneBoardH_Ok _ _ _ _ Hclone) as (Hext & Hown & _).
  assert (separated h h1 nb1) as Hsep by done.
  apply bind_Ok in H as ([al|] & Hatt & H); [|by injection H as <- <-].
  apply bind_Ok in H as (attacker & Ha & H).
  apply bind_Ok in H as (ods & Hds & H).
  apply bind_Ok in H as (odl & Hdl & H).
  assert (∀ r, movePieceWithPromotionH h1 nb1 from move = Ok r →
               separated h r.1 nb1) as Hmv.
  { intros [h2 l] Hr. by eapply movePieceWithPromotionH_separated. }
  destruct ods as [ds|];
    [|apply bind_Ok in H as (r & Hr & [= <- <-]); by apply Hmv].
  destruct odl as [dl|];
    [|apply bind_Ok in H as (r & Hr & [= <- <-]); by apply Hmv].
  apply bind_Ok in H as (defender & Hd & H).
  destruct (decide _);
    [|apply bind_Ok in H as (r & Hr & [= <- <-]); by apply Hmv].
  assert (separated h (<[dl := OPiece (damaged defender
                                         (getPieceDamage (type attacker)))]> h1) nb1)
    as Hsep2 by (by eapply separated_assign).
  destruct (_ <=? 0); [|by injection H as <- <-].
  apply bind_Ok in H as (h3 & Hh3 & H).
  apply bind_Ok in H as ([h4 l] & Hr & [= <- <-]).
  eapply movePieceWithPromotionH_separated; [|done].
  eapply separated_writeRef; [done..|]. by intros ?.
Qed.

(** ** The heap simulation computes what the value simulation computes *)

Lemma resRel_bind {A B A' B'} (R : A → A' → Prop) (S : B → B' → Prop)
    (m : res A) (m' : res A') (f : A → res B) (f' : A' → res B') :
  resRel R m m' →
  (∀ a a', R a a' → resRel S (f a) (f' a')) →
  resRel S (m ≫= f) (m' ≫= f').
Proof. intros [a a' Ha| |] Hf; simpl; [by apply Hf | constructor..]. Qed.

Lemma resRel_Ok_pair_inv {A1 A2 B} (P : A1 → A2 → B → Prop) a1 a2 b :
  resRel (λ r b', P r.1 r.2 b') (Ok (a1, a2)) (Ok b) → P a1 a2 b.
Proof. by inversion 1. Qed.

Lemma resRel_mono {A B} (R S : A → B → Prop) m m' :
  (∀ a b, R a b → S a b) → resRel R m m' → resRel S m m'.
Proof. intros HRS [a b Hab| |]; constructor. by apply HRS. Qed.

Lemma absCells_repr h cells rw :
  absCells h cells = Ok rw ↔ Forall2 (cellRepr h) cells rw.
Proof.
  revert rw. induction cells as [|[l|] rest IH]; intros rw; simpl.
  - split; [intros [= <-]; constructor | by intros ->%Forall2_nil_inv_l].
  - split.
    + intros H. apply bind_Ok in H as (p & Hp & H).
      apply bind_Ok in H as (r & Hr & [= <-]).
      constructor; [|by apply IH]. exists p. by apply pieceAt_Ok in Hp.
    + intros (o & r & (p & Hp & ->) & Hr & ->)%Forall2_cons_inv_l.
      apply pieceAt_Ok in Hp. rewrite Hp. simpl.
      apply IH in Hr. by rewrite Hr.
  - split.
    + intros H. apply bind_Ok in H as (r & Hr & [= <-]).
      constructor; [done | by apply IH].
    + intros (o & r & -> & Hr & ->)%Forall2_cons_inv_l.
      apply IH in Hr. by rewrite Hr.
Qed.

Lemma absRows_repr h rows b :
  absRows h rows = Ok b ↔ Forall2 (rowRepr h) rows b.
Proof.
  revert b. induction rows as [|rl rest IH]; intros b; simpl.
  - split; [intros [= <-]; constructor | by intros ->%Forall2_nil_inv_l].
  - split.
    + intros H. apply bind_Ok in H as (cells & Hc & H).
      apply bind_Ok in H as (rw & Hrw & H).
      apply bind_Ok in H as (r & Hr & [= <-]).
      constructor; [|by apply IH]. exists cells.
      split; [by apply rowAt_Ok | by apply absCells_repr].
    + intros (rw & r & (cells & Hc & Hrw) & Hr & ->)%Forall2_cons_inv_l.
      apply rowAt_Ok in Hc. rewrite Hc. simpl.
      apply absCells_repr in Hrw. rewrite Hrw. simpl.
      apply IH in Hr. by rewrite Hr.
Qed.

Lemma absBoard_repr h nb b :
  absBoard h nb = Ok b ↔
  ∃ rows, h !! nb = Some (OGrid rows) ∧ Forall2 (rowRepr h) rows b.
Proof.
  unfold absBoard. split.
  - intros H. apply bind_Ok in H as (rows & Hg & H). exists rows.
    split; [by apply gridAt_Ok | by apply absRows_repr].
  - intros (rows & Hg & H). apply gridAt_Ok in Hg. rewrite Hg. simpl.
    by apply absRows_repr.
Qed.

Lemma boardRepr_abs h nb b : boardRepr h nb b → absBoard h nb = Ok b.
Proof. intros (rows & Hg & _ & H). apply absBoard_repr. by exists rows. Qed.

(** Reading a cell: the reference found stands for the value found. *)
Lemma readRef_rel h nb b r c :
  absBoard h nb = Ok b →
  resRel (cellRepr h) (readRef h nb r c) (readCell b r c).
Proof.
  intros (rows & Hg & Hrows)%absBoard_repr. unfold readRef, readCell.
  apply gridAt_Ok in Hg. rewrite Hg. simpl.
  destruct (0 <=? r); [|constructor].
  destruct (rows !! Z.to_nat r) as [rl|] eqn:Hrl.
  - destruct (Forall2_lookup_l _ _ _ _ _ Hrows Hrl) as (rw & Hrw & cells & Hc & Hcells).
    rewrite Hrw. apply rowAt_Ok in Hc. rewrite Hc. simpl. constructor.
    destruct (0 <=? c); [|done].
    destruct (cells !! Z.to_nat c) as [ref|] eqn:Href.
    + destruct (Forall2_lookup_l _ _ _ _ _ Hcells Href) as (o & Ho & Hrepr).
      by rewrite Ho.
    + apply Forall2_length in Hcells. apply lookup_ge_None in Href.
      rewrite (lookup_ge_None_2 rw) by lia. done.
  - apply Forall2_length in Hrows. apply lookup_ge_None in Hrl.
    rewrite (lookup_ge_None_2 b) by lia. constructor.
Qed.

Lemma readPiece_rel h nb b r c :
  absBoard h nb = Ok b → readPiece h nb r c = readCell b r c.
Proof.
  intros Habs. unfold readPiece.
  destruct (readRef_rel h nb b r c Habs) as [ref o Hrepr| |]; simpl; try done.
  destruct ref as [l|]; simpl in Hrepr.
  - destruct Hrepr as (p & Hp & ->). apply pieceAt_Ok in Hp. by rewrite Hp.
  - by subst.
Qed.

Lemma getDefenderSquareForMoveH_eq h bl b move attacker :
  absBoard h bl = Ok b →
  getDefenderSquareForMoveH h bl move attacker
  = getDefenderSquareForMove b move attacker.
Proof.
  intros Habs. unfold getDefenderSquareForMoveH, getDefenderSquareForMove.
  by rewrite !(readPiece_rel h bl b) by done.
Qed.

Lemma cellRepr_extends h h' ref o :
  extends h h' → cellRepr h ref o → cellRepr h' ref o.
Proof.
  intros Hext. destruct ref as [l|]; simpl; [|done].
  intros (p & Hp & ->). exists p. split; [by apply Hext | done].
Qed.

Lemma rowRepr_extends h h' rl rw :
  extends h h' → rowRepr h rl rw → rowRepr h' rl rw.
Proof.
  intros Hext (cells & Hc & Hcells). exists cells. split; [by apply Hext|].
  eapply Forall2_impl; [done|]. intros ref o. by apply cellRepr_extends.
Qed.

Lemma boardRepr_extends h h' nb b :
  extends h h' → boardRepr h nb b → boardRepr h' nb b.
Proof.
  intros Hext (rows & Hg & Hnd & Hrows). exists rows.
  split; [by apply Hext|]. split; [done|].
  eapply Forall2_impl; [done|]. intros rl rw. by apply rowRepr_extends.
Qed.

(** Writing a row object does not change what piece references stand for. *)
Lemma cellRepr_insert_row h rl cells0 cells1 ref o :
  h !! rl = Some (ORow cells0) →
  cellRepr (<[rl := ORow cells1]> h) ref o ↔ cellRepr h ref o.
Proof.
  intros Hrl. destruct ref as [l|]; simpl; [|done].
  destruct (decide (l = rl)) as [->|Hne].
  - rewrite list_lookup_insert_eq by (by eapply lookup_lt_Some). rewrite Hrl.
    split; intros (p & [=] & _).
  - by rewrite list_lookup_insert_ne.
Qed.

(** The heap write and the value write of a cell end alike, and the heap
    write changes no piece object. *)
Lemma writeRef_rel h nb b r c v o :
  boardRepr h nb b → cellRepr h v o →
  resRel (λ h' b', boardRepr h' nb b'
                   ∧ length h' = length h
                   ∧ ∀ l p, h' !! l = Some (OPiece p) ↔ h !! l = Some (OPiece p))
         (writeRef h nb r c v) (writeCell b r c o).
Proof.
  intros (rows & Hg & Hnd & Hrows) Hv. unfold writeRef, writeCell.
  pose proof Hg as Hg'. apply gridAt_Ok in Hg'. rewrite Hg'. simpl.
  destruct (0 <=? r) eqn:Hr; [|constructor]. apply Z.leb_le in Hr.
  destruct (rows !! Z.to_nat r) as [rl|] eqn:Hrl.
  2:{ apply Forall2_length in Hrows. apply lookup_ge_None in Hrl.
      rewrite (lookup_ge_None_2 b) by lia. constructor. }
  destruct (Forall2_lookup_l _ _ _ _ _ Hrows Hrl) as (rw & Hrw & cells & Hc & Hcells).
  rewrite Hrw. pose proof Hc as Hc'. apply rowAt_Ok in Hc'. rewrite Hc'. simpl.
  rewrite (Forall2_length _ _ _ Hcells).
  destruct ((0 <=? c) && (c <? Z.of_nat (length rw))) eqn:Hcb; [|constructor].
  constructor.
  assert (nb ≠ rl) as Hne by (intros ->; congruence).
  assert (∀ ref o', cellRepr (<[rl := ORow (<[Z.to_nat c := v]> cells)]> h) ref o'
                    ↔ cellRepr h ref o') as Hcr
    by (intros; by eapply cellRepr_insert_row).
  split; [|split].
  - exists rows. split; [by rewrite list_lookup_insert_ne|]. split; [done|].
    apply Forall2_same_length_lookup. split.
    + rewrite length_insert. by eapply Forall2_length.
    + intros i rl' rw' Hi Hi'.
      destruct (decide (i = Z.to_nat r)) as [->|Hir].
      * rewrite Hrl in Hi. injection Hi as <-.
        rewrite list_lookup_insert_eq in Hi' by (by eapply lookup_lt_Some).
        injection Hi' as <-.
        exists (<[Z.to_nat c := v]> cells). split.
        -- apply list_lookup_insert_eq. by eapply lookup_lt_Some.
        -- apply Forall2_insert; [|by apply Hcr].
           eapply Forall2_impl; [done|]. intros ??. by apply Hcr.
      * rewrite list_lookup_insert_ne in Hi' by done.
        destruct (Forall2_lookup_lr _ _ _ _ _ _ Hrows Hi Hi') as (cells' & Hc1 & Hcells').
        exists cells'. split.
        -- rewrite list_lookup_insert_ne; [done|]. intros <-.
           apply Hir. by eapply NoDup_lookup.
        -- eapply Forall2_impl; [done|]. intros ??. by apply Hcr.
  - by rewrite length_insert.
  - intros l p. destruct (decide (l = rl)) as [->|Hl].
    + rewrite list_lookup_insert_eq by (by eapply lookup_lt_Some). rewrite Hc.
      split; intros [=].
    + by rewrite list_lookup_insert_ne.
Qed.

(** Storing a reference to a newly allocated piece. *)
Lemma writeRef_new_rel h nb b r c p :
  boardRepr h nb b →
  resRel (λ h' b', boardRepr h' nb b'
                   ∧ ∀ l q, (alloc h (OPiece p)).1 !! l = Some (OPiece q) →
                            h' !! l = Some (OPiece q))
         (writeRef (alloc h (OPiece p)).1 nb r c (Some (alloc h (OPiece p)).2))
         (writeCell b r c (Some p)).
Proof.
  intros Hrepr.
  pose proof (extends_alloc h (OPiece p)) as Hext.
  eapply resRel_mono;
    [|apply writeRef_rel; [by eapply boardRepr_extends|]].
  - intros h' b' (Hb & _ & Hp). split; [done|].
    intros l q Hl. by apply Hp.
  - exists p. split; [apply (alloc_lookup h (OPiece p)) | done].
Qed.

Lemma movePieceWithPromotionH_rel h nb b from move :
  boardRepr h nb b →
  resRel (λ r r', boardRepr r.1 nb r'.1 ∧ r.1 !! r.2 = Some (OPiece r'.2))
         (movePieceWithPromotionH h nb from move)
         (movePieceWithPromotion b from move).
Proof.
  intros Hrepr. unfold movePieceWithPromotionH, movePieceWithPromotion.
  eapply resRel_bind; [apply readRef_rel; by apply boardRepr_abs|].
  intros [pl|] o Ho; simpl in Ho.
  2:{ subst o. constructor. simpl. split.
      - eapply boardRepr_extends; [|done]. apply (extends_alloc h).
      - apply (alloc_lookup h (OPiece (createPiece White Pawn))). }
  destruct Ho as (piece & Hpiece & ->).
  pose proof Hpiece as Hp'. apply pieceAt_Ok in Hp'. rewrite Hp'. simpl.
  eapply resRel_bind; [by apply writeRef_rel|].
  intros h1 b1 (Hrepr1 & _ & _).
  eapply (resRel_bind (λ h' b', boardRepr h' nb b')).
  { destruct (decide _); [|by constructor].
    eapply resRel_mono; [|by apply writeRef_rel]. by intros ?? (? & _). }
  intros h2 b2 Hrepr2.
  eapply resRel_bind; [by apply writeRef_new_rel|].
  intros h3 b3 (Hrepr3 & Hkeep3).
  assert (h3 !! length h2
          = Some (OPiece (promoteIfLastRank (markMoved piece) move))) as Hmoved.
  { apply Hkeep3. apply (alloc_lookup h2 (OPiece _)). }
  clear Hkeep3.
  eapply (resRel_bind (λ h' b', boardRepr h' nb b'
                                ∧ ∀ l q, h3 !! l = Some (OPiece q) →
                                         h' !! l = Some (OPiece q))).
  2:{ intros h4 b4 (Hrepr4 & Hkeep4). constructor. simpl. split; [done|].
      by apply Hkeep4. }
  destruct (special move) as [[|]|]; try (by constructor).
  destruct (rookFromCol move) as [rf|]; [|by constructor].
  destruct (rookToCol move) as [rt|]; [|by constructor].
  eapply resRel_bind; [apply readRef_rel; by apply boardRepr_abs|].
  intros rookRef rook Hrook.
  eapply resRel_bind; [by apply writeRef_rel|].
  intros h5 b5 (Hrepr5 & _ & Hkeep5).
  destruct rookRef as [rl|]; simpl in Hrook.
  - destruct Hrook as (rk & Hrk & ->).
    assert (pieceAt h5 rl = Ok rk) as -> by (by apply pieceAt_Ok, Hkeep5).
    simpl. eapply resRel_mono; [|by apply writeRef_new_rel].
    intros h6 b6 (Hrepr6 & Hkeep6). split; [done|].
    intros l q Hl. apply Hkeep6, (extends_alloc h5 (OPiece (markMoved rk))).
    by apply Hkeep5.
  - subst rook. constructor. split; [done|]. intros l q Hl. by apply Hkeep5.
Qed.

(** The references the clone stores are the locations it allocated, each
    stored once. *)
Lemma cloneCells_refs h cells h' cells' :
  cloneCells h cells = Ok (h', cells') →
  (length h ≤ length h')%nat
  ∧ (∀ j l, cells' !! j = Some (Some l) → (length h ≤ l < length h')%nat)
  ∧ (∀ j j' l, cells' !! j = Some (Some l) → cells' !! j' = Some (Some l) → j = j').
Proof.
  revert h h' cells'. induction cells as [|[l0|] rest IH]; intros h h' cells'; simpl.
  - intros [= <- <-]. split; [done|]. split; by intros ? ?.
  - intros H. apply bind_Ok in H as (p & Hp & H).
    apply bind_Ok in H as ([h2 rest'] & Hrest & [= <- <-]). simpl in *.
    destruct (IH _ _ _ Hrest) as (Hlen & Hrange & Huniq).
    rewrite length_app in Hlen, Hrange. simpl in Hlen, Hrange.
    split; [lia|]. split.
    + intros [|j] l; simpl.
      * intros [= <-]. lia.
      * intros Hl%Hrange. lia.
    + intros [|j] [|j'] l; simpl; try done.
      * intros [= <-] Hl%Hrange. lia.
      * intros Hl%Hrange [= <-]. lia.
      * intros Hj Hj'. f_equal. by eapply Huniq.
  - intros H. apply bind_Ok in H as ([h2 rest'] & Hrest & [= <- <-]). simpl in *.
    destruct (IH _ _ _ Hrest) as (Hlen & Hrange & Huniq).
    split; [done|]. split.
    + intros [|j] l; simpl; [done|]. by apply Hrange.
    + intros [|j] [|j'] l; simpl; try done.
      intros Hj Hj'. f_equal. by eapply Huniq.
Qed.

Lemma cloneRows_refs h rows h' rows' :
  cloneRows h rows = Ok (h', rows') →
  (length h ≤ length h')%nat
  ∧ (∀ i rl, rows' !! i = Some rl → (length h ≤ rl < length h')%nat)
  ∧ NoDup rows'
  ∧ (∀ i cells j l,
       (∃ rl, rows' !! i = Some rl ∧ h' !! rl = Some (ORow cells)) →
       cells !! j = Some (Some l) → (length h ≤ l < length h')%nat)
  ∧ (∀ i i' rl rl' cells cells' j j' l,
       rows' !! i = Some rl → rows' !! i' = Some rl' →
       h' !! rl = Some (ORow cells) → h' !! rl' = Some (ORow cells') →
       cells !! j = Some (Some l) → cells' !! j' = Some (Some l) →
       i = i' ∧ j = j').
Proof.
  revert h h' rows'. induction rows as [|rl0 rest IH]; intros h h' rows'; simpl.
  - intros [= <- <-]. split; [done|]. split; [by intros ? ?|].
    split; [constructor|]. split; [by intros ???? (? & ? & _) | by intros ? ?].
  - intros H. apply bind_Ok in H as (cells0 & Hcells0 & H).
    apply bind_Ok in H as ([h1 cells1] & Hc & H).
    apply bind_Ok in H as ([h2 rest'] & Hrest & [= <- <-]). simpl in *.
    destruct (cloneCells_refs _ _ _ _ Hc) as (Hlen1 & Hrange1 & Huniq1).
    destruct (IH _ _ _ Hrest) as (Hlen2 & Hrows2 & Hnd2 & Hrange2 & Huniq2).
    destruct (cloneRows_Ok _ _ _ _ Hrest) as (Hext2 & _).
    rewrite length_app in Hlen2, Hrows2, Hrange2. simpl in Hlen2, Hrows2, Hrange2.
    assert (h2 !! length h1 = Some (ORow cells1)) as Hrow0
      by (apply Hext2, (alloc_lookup h1 (ORow cells1))).
    split; [lia|]. split.
    { intros [|i] rl; simpl; [intros [= <-]; lia | intros Hi%Hrows2; lia]. }
    split.
    { apply NoDup_cons. split; [|done].
      intros [i Hi]%list_elem_of_lookup. apply Hrows2 in Hi. lia. }
    split.
    { intros [|i] cells j l (rl & Hi & Hrl) Hl; simpl in Hi.
      - injection Hi as <-. rewrite Hrow0 in Hrl. injection Hrl as <-.
        apply Hrange1 in Hl. lia.
      - assert (length h1 + 1 ≤ l < length h2)%nat; [|lia].
        eapply Hrange2; [|done]. by exists rl. }
    intros [|i] [|i'] rl rl' cells cells' j j' l; simpl; intros Hi Hi' Hrl Hrl' Hj Hj'.
    + injection Hi as <-. injection Hi' as <-.
      rewrite Hrow0 in Hrl, Hrl'. injection Hrl as <-. injection Hrl' as <-.
      split; [done | by eapply Huniq1].
    + injection Hi as <-. rewrite Hrow0 in Hrl. injection Hrl as <-.
      apply Hrange1 in Hj.
      assert (length h1 + 1 ≤ l < length h2)%nat; [|lia].
      eapply Hrange2; [|exact Hj']. by exists rl'.
    + injection Hi' as <-. rewrite Hrow0 in Hrl'. injection Hrl' as <-.
      apply Hrange1 in Hj'.
      assert (length h1 + 1 ≤ l < length h2)%nat; [|lia].
      eapply Hrange2; [|exact Hj]. by exists rl.
    + destruct (Huniq2 i i' rl rl' cells cells' j j' l) as [-> ->]; done.
Qed.

(** The clone stands for the value of the original, and no piece object is
    shared between two of its cells. *)
Lemma cloneBoardH_repr h bl b h' nb :
  absBoard h bl = Ok b → cloneBoardH h bl = Ok (h', nb) →
  boardRepr h' nb b ∧ refsUnique h' nb.
Proof.
  intros Habs Hclone.
  destruct (cloneBoardH_Ok _ _ _ _ Hclone) as (_ & _ & Hsame).
  specialize (Hsame b Habs). apply absBoard_repr in Hsame as (rows & Hg & Hrows).
  unfold cloneBoardH in Hclone. apply bind_Ok in Hclone as (rows0 & Hrows0 & H).
  apply bind_Ok in H as ([h1 rows1] & Hr & [= <- <-]). simpl in *.
  destruct (cloneRows_refs _ _ _ _ Hr) as (Hlen & Hrange & Hnd & _ & Huniq).
  assert (rows = rows1) as ->.
  { rewrite lookup_app_r, Nat.sub_diag in Hg by lia. simpl in Hg. congruence. }
  split; [by exists rows1|].
  intros rows i i' rl rl' cells cells' j j' l Hg' Hi Hi' Hrl Hrl' Hj Hj'.
  assert (rows = rows1) as -> by congruence.
  apply Hrange in Hi as Hi1. apply Hrange in Hi' as Hi1'.
  rewrite lookup_app_l in Hrl, Hrl' by lia.
  by eapply Huniq.
Qed.

(** Assigning fields of the piece a cell refers to changes that cell only. *)
Lemma assign_repr h nb b r c l p' :
  boardRepr h nb b → refsUnique h nb →
  readRef h nb r c = Ok (Some l) →
  ∃ b', writeCell b r c (Some p') = Ok b'
        ∧ boardRepr (<[l := OPiece p']> h) nb b'
        ∧ refsUnique (<[l := OPiece p']> h) nb.
Proof.
  intros (rows & Hg & Hnd & Hrows) Huniq Hread.
  unfold readRef in Hread. pose proof Hg as Hg'. apply gridAt_Ok in Hg'.
  rewrite Hg' in Hread. simpl in Hread.
  destruct (0 <=? r) eqn:Hr; [|done].
  destruct (rows !! Z.to_nat r) as [rl|] eqn:Hrl; [|done].
  destruct (Forall2_lookup_l _ _ _ _ _ Hrows Hrl) as (rw & Hrw & cells & Hc & Hcells).
  pose proof Hc as Hc'. apply rowAt_Ok in Hc'. rewrite Hc' in Hread. simpl in Hread.
  destruct (0 <=? c) eqn:Hcc; [|done].
  destruct (cells !! Z.to_nat c) as [ref|] eqn:Href; [|done].
  simpl in Hread. injection Hread as ->.
  destruct (Forall2_lookup_l _ _ _ _ _ Hcells Href) as (o & Ho & (d & Hd & ->)).
  apply lookup_lt_Some in Ho as Hlt.
  exists (<[Z.to_nat r := <[Z.to_nat c := Some p']> rw]> b).
  split.
  { unfold writeCell. rewrite Hr, Hrw, Hcc. simpl.
    replace (c <? Z.of_nat (length rw)) with true; [done|].
    symmetry. apply Z.ltb_lt. apply Z.leb_le in Hcc. lia. }
  assert (∀ l', l' ≠ l → ∀ o', (<[l := OPiece p']> h) !! l' = Some o'
                              ↔ h !! l' = Some o') as Hother
    by (intros l' Hl' o'; by rewrite list_lookup_insert_ne).
  assert (∀ rl' cells', h !! rl' = Some (ORow cells') →
            (<[l := OPiece p']> h) !! rl' = Some (ORow cells')) as Hrowkeep.
  { intros rl' cells' Hrl'. apply Hother; [intros ->; congruence | done]. }
  assert (∀ rl' cells', (<[l := OPiece p']> h) !! rl' = Some (ORow cells') →
            h !! rl' = Some (ORow cells')) as Hrowback.
  { intros rl' cells' Hrl'. destruct (decide (rl' = l)) as [->|Hne].
    - rewrite list_lookup_insert_eq in Hrl' by (by eapply lookup_lt_Some). done.
    - by apply Hother in Hrl'. }
  assert ((<[l := OPiece p']> h) !! nb = Some (OGrid rows)) as Hgnew.
  { apply Hother; [intros ->; congruence | done]. }
  split.
  - exists rows. split; [done|]. split; [done|].
    apply Forall2_same_length_lookup. split.
    { rewrite length_insert. by eapply Forall2_length. }
    intros i rl' rw' Hi Hi'.
    destruct (Forall2_lookup_l _ _ _ _ _ Hrows Hi) as (rw0 & Hrw0 & cells' & Hc1 & Hcells').
    exists cells'. split; [by apply Hrowkeep|].
    apply Forall2_same_length_lookup. split.
    { destruct (decide (i = Z.to_nat r)) as [->|Hir].
      - rewrite list_lookup_insert_eq in Hi' by (by eapply lookup_lt_Some).
        injection Hi' as <-. rewrite length_insert.
        rewrite Hrw in Hrw0. injection Hrw0 as <-. by eapply Forall2_length.
      - rewrite list_lookup_insert_ne in Hi' by done.
        rewrite Hrw0 in Hi'. injection Hi' as <-. by eapply Forall2_length. }
    intros j ref o Hj Hj'.
    destruct (decide (i = Z.to_nat r ∧ j = Z.to_nat c)) as [[-> ->]|Hij].
    + rewrite Hrl in Hi. injection Hi as <-.
      rewrite Hc in Hc1. injection Hc1 as <-.
      rewrite Href in Hj. injection Hj as <-.
      rewrite list_lookup_insert_eq in Hi' by (by eapply lookup_lt_Some).
      injection Hi' as <-.
      rewrite list_lookup_insert_eq in Hj' by done. injection Hj' as <-.
      exists p'. split; [|done].
      apply list_lookup_insert_eq. by eapply lookup_lt_Some.
    + assert (rw0 !! j = Some o) as Ho'.
      { destruct (decide (i = Z.to_nat r)) as [->|Hir].
        - rewrite list_lookup_insert_eq in Hi' by (by eapply lookup_lt_Some).
          injection Hi' as <-. rewrite Hrw in Hrw0. injection Hrw0 as <-.
          rewrite list_lookup_insert_ne in Hj' by (intros <-; tauto). done.
        - rewrite list_lookup_insert_ne in Hi' by done. congruence. }
      pose proof (Forall2_lookup_lr _ _ _ _ _ _ Hcells' Hj Ho') as Hrepr.
      destruct ref as [l'|]; simpl in *; [|done].
      destruct Hrepr as (q & Hq & ->). exists q. split; [|done].
      apply Hother; [|done]. intros ->.
      destruct (Huniq rows i (Z.to_nat r) rl' rl cells' cells j (Z.to_nat c) l);
        try done. tauto.
  - intros rows' i i' rl1 rl2 cells1 cells2 j j' l0 Hg1 Hi Hi' H1 H2 Hj Hj'.
    rewrite Hgnew in Hg1. injection Hg1 as <-.
    eapply (Huniq rows i i' rl1 rl2 cells1 cells2 j j' l0); try done;
      by apply Hrowback.
Qed.

(** The heap simulation and the value simulation end alike, and the board
    the heap simulation returns stands for the board the value simulation
    returns. *)
Lemma simulateResolvedBoardH_refines h bl b from move :
  absBoard h bl = Ok b →
  resRel (λ r b', boardRepr r.1 r.2 b')
         (simulateResolvedBoardH h bl from move)
         (simulateResolvedBoard b from move).
Proof.
  intros Habs. unfold simulateResolvedBoardH, simulateResolvedBoard.
  destruct (cloneBoardH_total h bl b Habs) as [[h1 nb] Hclone].
  rewrite Hclone, cloneBoard_id. simpl.
  destruct (cloneBoardH_repr _ _ _ _ _ Habs Hclone) as [Hrepr Huniq].
  destruct (cloneBoardH_Ok _ _ _ _ Hclone) as (Hext & _ & _).
  pose proof (absBoard_extends _ _ _ _ Hext Habs) as Habs1.
  pose proof (boardRepr_abs _ _ _ Hrepr) as Hnb.
  assert (resRel (λ r r', boardRepr r.1 nb r'.1)
            (movePieceWithPromotionH h1 nb from move)
            (movePieceWithPromotion b from move)) as Hmv.
  { eapply resRel_mono; [|by apply movePieceWithPromotionH_rel]. by intros ?? [? _]. }
  assert (resRel (λ (r : Heap * loc) b', boardRepr r.1 r.2 b')
            (r ← movePieceWithPromotionH h1 nb from move; Ok (r.1, nb))
            (r ← movePieceWithPromotion b from move; Ok r.1)) as Hmv'.
  { eapply resRel_bind; [exact Hmv|]. intros r r' Hr. by constructor. }
  eapply resRel_bind; [by apply readRef_rel|].
  intros [al|] oatt Hatt; simpl in Hatt; [|subst; by constructor].
  destruct Hatt as (attacker & Hattacker & ->).
  apply pieceAt_Ok in Hattacker. rewrite Hattacker. simpl.
  rewrite (getDefenderSquareForMoveH_eq h1 bl b) by done.
  destruct (getDefenderSquareForMove b move attacker) as [ods| |]; simpl;
    [|constructor..].
  destruct ods as [ds|]; simpl; [|exact Hmv'].
  pose proof (readRef_rel h1 nb b (row ds) (col ds) Hnb) as Hread.
  destruct (readRef h1 nb (row ds) (col ds)) as [odl| |] eqn:Hdl;
    inversion Hread as [? od Hod| |]; subst; simpl; [|constructor..].
  destruct odl as [dl|]; simpl in Hod; [|subst od; exact Hmv'].
  destruct Hod as (d & Hd & ->). apply pieceAt_Ok in Hd. rewrite Hd. simpl.
  destruct (decide (color d ≠ color attacker)); [|exact Hmv'].
  destruct (assign_repr h1 nb b (row ds) (col ds) dl
              (damaged d (getPieceDamage (type attacker))) Hrepr Huniq Hdl)
    as (b1 & Hb1 & Hrepr1 & _).
  rewrite Hb1. simpl.
  destruct (_ <=? 0); [|by constructor].
  eapply resRel_bind; [by apply writeRef_rel|].
  intros h3 b3 (Hrepr3 & _).
  eapply resRel_bind.
  - eapply resRel_mono; [|by apply movePieceWithPromotionH_rel].
    intros r r' [Hr _]. exact Hr.
  - intros r r' Hr. by constructor.
Qed.

(** In particular the board read back from the heap after the simulation is
    the simulated board of the value model, with the same errors. *)
Lemma simulateResolvedBoardH_abs h bl b from move :
  absBoard h bl = Ok b →
  (r ← simulateResolvedBoardH h bl from move; absBoard r.1 r.2)
  = simulateResolvedBoard b from move.
Proof.
  intros Habs.
  destruct (simulateResolvedBoardH_refines h bl b from move Habs)
    as [r b' Hr| |]; simpl; try done.
  by apply boardRepr_abs.
Qed.

(** C9. Cloning a board allocates new objects only (the clone and
    everything reachable from it) and yields a board that stands for the same
    value, piece by piece; whatever sequence of mutations is then made
    through the clone (clearing cells, storing new pieces, assigning piece
    fields), every object of the original heap is unchanged and the original
    board still stands for the same value; and the legality filter's
    simulation, which works on such a clone, returns whenever the value
    model's simulation does, with that board as its result and the original
    untouched. *)
Theorem C9_clone_is_independent :
  ∀ (h : Heap) (bl : loc) (b : Board),
    absBoard h bl = Ok b →
    ∃ h1 nb,
      cloneBoardH h bl = Ok (h1, nb)
      ∧ absBoard h1 nb = Ok b
      ∧ owned (length h) h1 nb
      ∧ (∀ ms h2, applyMutations nb h1 ms = Ok h2 →
           extends h h2 ∧ absBoard h2 bl = Ok b)
      ∧ (∀ from move,
           resRel (λ r b', extends h r.1 ∧ absBoard r.1 bl = Ok b
                           ∧ absBoard r.1 r.2 = Ok b')
                  (simulateResolvedBoardH h bl from move)
                  (simulateResolvedBoard b from move)).
Proof.
  intros h bl b Habs.
  destruct (cloneBoardH_total h bl b Habs) as [[h1 nb] Hclone].
  destruct (cloneBoardH_Ok _ _ _ _ Hclone) as (Hext & Hown & Hsame).
  exists h1, nb. split; [done|]. split; [by apply Hsame|].
  split; [done|]. split.
  - intros ms h2 Hms.
    destruct (applyMutations_separated h h1 nb ms h2) as [Hext2 _]; [done..|].
    split; [done | by eapply absBoard_extends].
  - intros from move.
    pose proof (simulateResolvedBoardH_refines h bl b from move Habs) as Hrel.
    destruct (simulateResolvedBoardH h bl from move) as [[h2 nb2]| |] eqn:Hsim;
      inversion Hrel as [? b' Hb'| |]; subst; constructor.
    destruct (simulateResolvedBoardH_separated _ _ _ _ _ _ Hsim) as [Hext2 _].
    split; [done|]. split; [by eapply absBoard_extends | by apply boardRepr_abs].
Qed.

Lemma skirmishSim_run :
  simulateResolvedBoardH skirmishHeap.1 skirmishHeap.2 (mkSquare 5 2) (plainMove 3 3)
  = Ok (skirmishSimHeap, skirmishSimBoard).
Proof. vm_compute. reflexivity. Qed.

Lemma skirmishSimulated_run :
  simulateResolvedBoard skirmishBoard (mkSquare 5 2) (plainMove 3 3)
  = Ok skirmishSimulated.
Proof. vm_compute. reflexivity. Qed.

(** The skirmish position on the heap: after simulating the knight's capture
    on d5 every object of the original heap is as before, the original board
    still stands for the skirmish position, and the returned board stands
    for the simulated one. *)
Lemma C9_witness :
  extends skirmishHeap.1 skirmishSimHeap
  ∧ absBoard skirmishSimHeap skirmishHeap.2 = Ok skirmishBoard
  ∧ absBoard skirmishSimHeap skirmishSimBoard = Ok skirmishSimulated.
Proof.
  destruct (C9_clone_is_independent skirmishHeap.1 skirmishHeap.2 skirmishBoard)
    as (h1 & nb & _ & _ & _ & _ & Hsim); [by vm_compute|].
  specialize (Hsim (mkSquare 5 2) (plainMove 3 3)).
  rewrite skirmishSim_run, skirmishSimulated_run in Hsim.
  exact (resRel_Ok_pair_inv
           (λ h2 nb2 b', extends skirmishHeap.1 h2
                         ∧ absBoard h2 skirmishHeap.2 = Ok skirmishBoard
                         ∧ absBoard h2 nb2 = Ok b') _ _ _ Hsim).
Defined.

(** The returned board, unlike the original, has the knight on d5. *)
Example skirmishSim_clone :
  (b ← absBoard skirmishSimHeap skirmishSimBoard; Ok (cell b 3 3))
  = Ok (Some (markMoved (createPiece White Knight)))
  ∧ (b ← absBoard skirmishSimHeap skirmishHeap.2; Ok (cell b 3 3))
    = Ok (Some (createPiece Black Pawn)).
Proof. by vm_compute. Qed.
(** * Further properties of the rules code *)

(** ** Where generated moves land *)

Lemma landsFree_plain b own r c :
  cell b r c = None ∨ (∃ t, cell b r c = Some t ∧ color t ≠ own) →
  landsFree b own (plainMove r c).
Proof. intros H. by split. Qed.

Lemma rayWalk_lands fuel b own r c dr dc m :
  m ∈ rayWalk fuel b own r c dr dc → landsFree b own m.
Proof.
  revert r c. induction fuel as [|fuel IH]; intros r c; simpl.
  - by intros ?%elem_of_nil.
  - destruct (inBounds r c); [|by intros ?%elem_of_nil].
    destruct (cell b r c) as [t|] eqn:Ht.
    + destruct (decide _); [|by intros ?%elem_of_nil].
      intros ->%list_elem_of_singleton. apply landsFree_plain. eauto.
    + intros [->|H]%elem_of_cons; [|eauto].
      apply landsFree_plain. by left.
Qed.

Lemma stepTarget_lands b own r c m :
  m ∈ match cell b r c with
      | None => [plainMove r c]
      | Some target => if decide (color target ≠ own) then [plainMove r c] else []
      end →
  landsFree b own m.
Proof.
  destruct (cell b r c) as [t|] eqn:Ht.
  - destruct (decide _); [|by intros ?%elem_of_nil].
    intros ->%list_elem_of_singleton. apply landsFree_plain. eauto.
  - intros ->%list_elem_of_singleton. apply landsFree_plain. by left.
Qed.

Lemma knightMoves_lands b r c p m :
  m ∈ knightMoves b r c p → landsFree b (color p) m.
Proof.
  unfold knightMoves. rewrite list_elem_of_bind. intros (j & H & _).
  destruct (negb (inBounds _ _)); [by apply elem_of_nil in H|].
  by eapply stepTarget_lands.
Qed.

Lemma sliderMoves_lands b r c p m :
  m ∈ sliderMoves b r c p → landsFree b (color p) m.
Proof.
  unfold sliderMoves. rewrite list_elem_of_bind. intros (d & H & _).
  by eapply rayWalk_lands.
Qed.

Lemma kingSteps_lands b r c p m :
  m ∈ kingSteps b r c p → landsFree b (color p) m.
Proof.
  unfold kingSteps. rewrite list_elem_of_bind. intros (dr & H & _).
  apply list_elem_of_bind in H as (dc & H & _).
  destruct (bool_decide (dr = 0) && _); [by apply elem_of_nil in H|].
  destruct (negb (inBounds _ _)); [by apply elem_of_nil in H|].
  by eapply stepTarget_lands.
Qed.

Lemma pawnAdvances_empty b r c p fam m :
  m ∈ pawnAdvances b r c p fam → special m = None ∧ cellAt b (sq m) = None.
Proof.
  unfold pawnAdvances. intros H.
  destruct (negb fam && inBounds _ c && _) eqn:Hg; [|by apply elem_of_nil in H].
  apply andb_true_iff in Hg as [_ Hone%bool_decide_eq_true].
  apply elem_of_cons in H as [->|H]; [done|].
  destruct (bool_decide (r = _) && _) eqn:Hs; [|by apply elem_of_nil in H].
  apply andb_true_iff in Hs as [_ Htwo%bool_decide_eq_true].
  by apply list_elem_of_singleton in H as ->.
Qed.

(** A capture offered to a pawn is on an enemy piece and is one of the two
    squares of its attack map. *)
Lemma pawnCaptures_enemy b r c p m :
  m ∈ pawnCaptures b r c p false →
  special m = None
  ∧ (∃ t, cellAt b (sq m) = Some t ∧ color t ≠ color p)
  ∧ m ∈ pawnCaptures b r c p true.
Proof.
  unfold pawnCaptures. rewrite !list_elem_of_bind. intros (delta & H & Hd).
  destruct (negb (inBounds _ _)) eqn:Hg; [by apply elem_of_nil in H|].
  destruct (cell b _ _) as [t|] eqn:Ht; [|by apply elem_of_nil in H].
  destruct (decide (color t ≠ _)); [|by apply elem_of_nil in H].
  apply list_elem_of_singleton in H as ->.
  split; [done|]. split; [by exists t|].
  exists delta. split; [|done]. rewrite Hg. by apply list_elem_of_singleton.
Qed.

(** The four kinds of move [getPseudoMoves] offers outside attack-map mode. *)
Lemma getPseudoMoves_cases lm b r c p m :
  m ∈ getPseudoMoves lm b r c p false →
  (special m = None ∧ cellAt b (sq m) = None)
  ∨ (special m = None ∧ m ∈ attackMap b r c p
     ∧ ∃ t, cellAt b (sq m) = Some t ∧ color t ≠ color p)
  ∨ (type p = Pawn ∧ m ∈ pawnEnPassant lm b r c p false)
  ∨ (type p = King ∧ moved p = false
     ∧ ∃ side, side ∈ castleSides ∧ m = castleMove r side
               ∧ m ∈ castleFor isSquareAttacked b r p side).
Proof.
  assert (∀ gen : list Move,
            (∀ m', m' ∈ gen → landsFree b (color p) m') →
            m ∈ gen → m ∈ attackMap b r c p →
            (special m = None ∧ cellAt b (sq m) = None)
            ∨ (special m = None ∧ m ∈ attackMap b r c p
               ∧ ∃ t, cellAt b (sq m) = Some t ∧ color t ≠ color p)) as Hgen.
  { intros gen Hl Hm Ha. destruct (Hl m Hm) as [Hs [He|Ht]]; [by left|by right]. }
  assert (attackMap b r c p
          = match type p with
            | Pawn => pawnMoves None b r c p true
            | Knight => knightMoves b r c p
            | King => kingSteps b r c p ++ []
            | _ => sliderMoves b r c p
            end) as Ea by (unfold attackMap, pseudoMovesBody; by destruct (type p)).
  rewrite Ea in Hgen |- *. clear Ea.
  unfold getPseudoMoves, pseudoMovesBody.
  destruct (type p) eqn:Hty.
  - unfold pawnMoves. rewrite !elem_of_app. intros [H|[H|H]].
    + left. by eapply pawnAdvances_empty.
    + apply pawnCaptures_enemy in H as (Hs & Ht & Ha).
      right; left. split; [done|]. split; [|done].
      right; by left.
    + right; right; left. done.
  - intros H. destruct (Hgen _ (sliderMoves_lands b r c p) H H) as [?|?]; eauto.
  - intros H. destruct (Hgen _ (knightMoves_lands b r c p) H H) as [?|?]; eauto.
  - intros H. destruct (Hgen _ (sliderMoves_lands b r c p) H H) as [?|?]; eauto.
  - intros H. destruct (Hgen _ (sliderMoves_lands b r c p) H H) as [?|?]; eauto.
  - unfold kingMoves. rewrite (elem_of_app (kingSteps b r c p)). intros [H|H].
    + assert (m ∈ kingSteps b r c p ++ []) as Ha by (rewrite elem_of_app; by left).
      destruct (Hgen _ (kingSteps_lands b r c p) H Ha) as [?|?]; eauto.
    + cbn [negb andb] in H.
      destruct (negb (moved p)) eqn:Hm; [|by apply elem_of_nil in H].
      destruct (negb (isKingInCheck b (color p))); [|by apply elem_of_nil in H].
      cbn [negb andb] in H. apply list_elem_of_bind in H as (side & H & Hs).
      right; right; right. apply negb_true_iff in Hm.
      repeat split; [done|]. exists side.
      pose proof (castleFor_elem _ _ _ _ _ _ H) as ->. done.
Qed.

(** ** One move per destination *)

Lemma kingSteps_near b r c p m :
  m ∈ kingSteps b r c p → Z.abs (col (sq m) - c) ≤ 1.
Proof.
  unfold kingSteps. rewrite list_elem_of_bind. intros (dr & H & _).
  apply list_elem_of_bind in H as (dc & H & Hdc).
  destruct (bool_decide (dr = 0) && _); [by apply elem_of_nil in H|].
  destruct (negb (inBounds _ _)); [by apply elem_of_nil in H|].
  assert (m = plainMove (r + dr) (c + dc)) as ->.
  { destruct (cell b _ _) as [t|].
    - destruct (decide _); [|by apply elem_of_nil in H].
      by apply list_elem_of_singleton in H.
    - by apply list_elem_of_singleton in H. }
  simpl. rewrite !elem_of_cons, elem_of_nil in Hdc. lia.
Qed.

Lemma pawnAdvances_column b r c p fam m :
  m ∈ pawnAdvances b r c p fam →
  col (sq m) = c ∧ m = plainMove (row (sq m)) (col (sq m)).
Proof.
  unfold pawnAdvances. intros H.
  destruct (negb fam && inBounds _ c && _); [|by apply elem_of_nil in H].
  apply elem_of_cons in H as [->|H]; [done|].
  destruct (bool_decide (r = _) && _); [|by apply elem_of_nil in H].
  by apply list_elem_of_singleton in H as ->.
Qed.

(** The shape of a generated move: a plain move to its destination, an
    en-passant move of a pawn, or a castle of an unmoved king. *)
Lemma getPseudoMoves_shape lm b r c p m :
  m ∈ getPseudoMoves lm b r c p false →
  (m = plainMove (row (sq m)) (col (sq m))
   ∧ (type p = Pawn →
      col (sq m) = c ∨ ∃ t, cellAt b (sq m) = Some t)
   ∧ (type p = King → Z.abs (col (sq m) - c) ≤ 1))
  ∨ (type p = Pawn ∧ m ∈ pawnEnPassant lm b r c p false)
  ∨ (type p = King
     ∧ ∃ side, side ∈ castleSides ∧ m = castleMove r side
               ∧ m ∈ castleFor isSquareAttacked b r p side).
Proof.
  unfold getPseudoMoves, pseudoMovesBody.
  destruct (type p) eqn:Hty.
  - unfold pawnMoves. rewrite !elem_of_app. intros [H|[H|H]].
    + left. destruct (pawnAdvances_column _ _ _ _ _ _ H) as [Hc Hm].
      split; [done|]. split; [by left|done].
    + left. pose proof (pawnCaptures_enemy _ _ _ _ _ H) as (_ & (t & Ht & _) & _).
      apply pawnCaptures_plain in H as (r' & c' & -> & _).
      split; [done|]. split; [right; by exists t|done].
    + right; left. done.
  - intros (r' & c' & -> & _)%sliderMoves_plain. left. by split_and!.
  - intros (r' & c' & -> & _)%knightMoves_plain. left. by split_and!.
  - intros (r' & c' & -> & _)%sliderMoves_plain. left. by split_and!.
  - intros (r' & c' & -> & _)%sliderMoves_plain. left. by split_and!.
  - unfold kingMoves. rewrite elem_of_app. intros [H|H].
    + left. pose proof (kingSteps_near _ _ _ _ _ H) as Hn.
      apply kingSteps_plain in H as (r' & c' & -> & _). by split_and!.
    + right; right. split; [done|].
      destruct (_ && negb _); [|by apply elem_of_nil in H].
      apply list_elem_of_bind in H as (side & H & Hs). exists side.
      pose proof (castleFor_elem _ _ _ _ _ _ H) as ->. done.
Qed.

(** No two moves generated for a piece standing on its square end on the
    same square. *)
Lemma getPseudoMoves_destinations lm b r c p m1 m2 :
  cell b r c = Some p →
  m1 ∈ getPseudoMoves lm b r c p false →
  m2 ∈ getPseudoMoves lm b r c p false →
  sq m1 = sq m2 → m1 = m2.
Proof.
  intros Hp H1 H2 Hsq.
  assert (∀ ma mb,
            (type p = King
             ∧ ∃ side, side ∈ castleSides ∧ ma = castleMove r side
                       ∧ ma ∈ castleFor isSquareAttacked b r p side) →
            type p = King → Z.abs (col (sq mb) - c) ≤ 1 →
            sq ma = sq mb → False) as Hcastle.
  { intros ma mb (Hking & side & Hs & -> & Hoffer) _ Hnear Heq.
    apply castleFor_iff in Hoffer as ((rook & Hrook & Hrty & _) & Hpass & _).
    rewrite <- Heq in Hnear. simpl in Hnear.
    assert (∀ col, col ∈ passCols side → c ≠ col) as Hnot.
    { intros col Hc ->. specialize (Hpass col Hc). unfold cell in Hp.
      rewrite Hpass in Hp. done. }
    assert (c ≠ rookCol side) as Hnr.
    { intros ->. rewrite Hp in Hrook. injection Hrook as ->. congruence. }
    apply castleSides_cases in Hs as [->| ->]; simpl in *.
    - pose proof (Hnot 5 ltac:(repeat constructor)).
      pose proof (Hnot 6 ltac:(repeat constructor)). lia.
    - pose proof (Hnot 1 ltac:(repeat constructor)).
      pose proof (Hnot 2 ltac:(repeat constructor)).
      pose proof (Hnot 3 ltac:(repeat constructor)). lia. }
  assert (∀ ma mb,
            (type p = Pawn ∧ ma ∈ pawnEnPassant lm b r c p false) →
            (type p = Pawn → col (sq mb) = c ∨ ∃ t, cellAt b (sq mb) = Some t) →
            sq ma = sq mb → False) as Hep.
  { intros ma mb [Hty Hin] Hplain Heq.
    apply pawnEnPassant_elem in Hin
      as (_ & l & _ & _ & _ & _ & _ & Habs & _ & Hempty & ->).
    rewrite <- Heq in Hplain. simpl in Hplain. unfold cellAt in Hplain.
    simpl in Hplain. rewrite Hempty in Hplain.
    destruct (Hplain Hty) as [Hc|[t Ht]]; [lia|done]. }
  destruct (getPseudoMoves_shape _ _ _ _ _ _ H1)
    as [(E1 & Hp1 & Hk1)|[[Hty1 He1]|(Hty1 & Hc1)]];
    destruct (getPseudoMoves_shape _ _ _ _ _ _ H2)
      as [(E2 & Hp2 & Hk2)|[[Hty2 He2]|(Hty2 & Hc2)]].
  - rewrite E1, E2, Hsq. done.
  - exfalso. by apply (Hep m2 m1).
  - exfalso. apply (Hcastle m2 m1); auto.
  - exfalso. by apply (Hep m1 m2).
  - apply pawnEnPassant_elem in He1 as (_ & l1 & Hl1 & _ & _ & _ & _ & _ & _ & _ & ->).
    apply pawnEnPassant_elem in He2 as (_ & l2 & Hl2 & _ & _ & _ & _ & _ & _ & _ & ->).
    congruence.
  - congruence.
  - exfalso. apply (Hcastle m1 m2); auto.
  - congruence.
  - destruct Hc1 as (s1 & Hs1 & -> & _), Hc2 as (s2 & Hs2 & -> & _).
    f_equal. apply castleSides_cases in Hs1 as [->| ->];
      apply castleSides_cases in Hs2 as [->| ->]; try done;
      simpl in Hsq; discriminate Hsq.
Qed.

(** ** The scenes of a game *)

Lemma enemyOf_involutive c : enemyOf (enemyOf c) = c.
Proof. by destruct c. Qed.

Lemma enemyOf_ne c c' : c' ≠ c ↔ c' = enemyOf c.
Proof. destruct c, c'; simpl; split; congruence. Qed.

(** With one king of a colour on the board, the in-check test is the attack
    test on that king's square. *)
Lemma isKingInCheck_oneKing b c k :
  wfBoard b → kingOn b c k → (∀ k', kingOn b c k' → k' = k) →
  isKingInCheck b c = isSquareAttacked b (row k) (col k) (enemyOf c).
Proof.
  intros Hwf Hk Huniq. unfold isKingInCheck.
  destruct (getKingSquare_finds b c k Hwf Hk) as [k' Hk'].
  rewrite Hk'. apply getKingSquare_Some in Hk' as [Hk' _].
  by rewrite (Huniq k' Hk').
Qed.

(** A piece that has an enemy king's square in its attack map gives check. *)
Lemma attackMap_check b r c p m :
  wfBoard b → cell b r c = Some p → m ∈ attackMap b r c p →
  kingOn b (enemyOf (color p)) (sq m) →
  (∀ k', kingOn b (enemyOf (color p)) k' → k' = sq m) →
  isKingInCheck b (enemyOf (color p)) = true.
Proof.
  intros Hwf Hp Hm Hk Huniq.
  rewrite (isKingInCheck_oneKing b _ (sq m)) by done.
  rewrite enemyOf_involutive.
  apply isSquareAttacked_true; [done|].
  exists r, c, p, m. rewrite getPseudoMoves_attackMap.
  repeat split; try done. by destruct (sq m).
Qed.

(** The square an en-passant move attacks is the one the stored last move
    ended on. *)
Lemma enPassant_defenderSquare lm b r c p m :
  m ∈ pawnEnPassant lm b r c p false →
  special m = Some EnPassant
  ∧ ∃ l, lm = Some l ∧ wasDoublePawnStep l = true ∧ type (lmPiece l) = Pawn
         ∧ color (lmPiece l) ≠ color p
         ∧ defenderSquareOf p m = lmTo l
         ∧ cellAt b (sq m) = None.
Proof.
  intros (_ & l & -> & Hw & Hty & Hcol & Hrow & Habs & Hin & Hempty & ->)%pawnEnPassant_elem.
  split; [done|]. exists l. repeat split; try done.
  unfold defenderSquareOf, captureRowOf, pawnDirection. simpl.
  destruct (lmTo l) as [lr lc]. simpl in *. subst r.
  destruct (decide (color p = White)); f_equal; lia.
Qed.

(** The columns a castle needs empty hold the king's and the rook's
    destination. *)
Lemma castleFor_empty att b r p side :
  side ∈ castleSides →
  castleMove r side ∈ castleFor att b r p side →
  (∃ rook, cell b r (rookCol side) = Some rook ∧ type rook = Rook
           ∧ color rook = color p ∧ moved rook = false)
  ∧ cell b r (kingTargetCol side) = None
  ∧ cell b r (rookTargetCol side) = None.
Proof.
  intros Hs (Hrook & Hpass & _)%castleFor_iff. split; [done|].
  assert (∀ col, col ∈ passCols side → cell b r col = None) as Hcell.
  { intros col Hc. unfold cell. by rewrite (Hpass col Hc). }
  apply castleSides_cases in Hs as [->| ->]; simpl in *;
    split; apply Hcell; repeat constructor.
Qed.

Lemma square_eq (s1 s2 : Square) :
  row s2 = row s1 → col s2 = col s1 → s1 = s2.
Proof. destruct s1, s2. simpl. congruence. Qed.

Ltac square_eq := apply square_eq; simpl in *; intuition congruence.

(** What a commit that is not a castle does to the board: either the
    defender survives and only loses hit points, or the piece relocates. *)
Lemma resolveCommit_outcome b from move p r :
  wfBoard b → cellAt b from = Some p →
  inBounds (row (sq move)) (col (sq move)) = true →
  special move ≠ Some Castle →
  resolveCommit b from move p = Ok r →
  let ds := defenderSquareOf p move in
  let damage := getPieceDamage (type p) in
  (∃ d, cellAt b ds = Some d ∧ color d ≠ color p ∧ damage < hp d
        ∧ nextPieceState r = p ∧ lastMoveTo r = from ∧ resDoubleStep r = false
        ∧ ∀ r' c', cell (nextBoard r) r' c'
                   = if decide (r' = row ds ∧ c' = col ds)
                     then Some (damaged d damage) else cell b r' c')
  ∨ ((∀ d, cellAt b ds = Some d → color d ≠ color p → hp d - damage <= 0)
     ∧ nextPieceState r = promoteIfLastRank (markMoved p) move
     ∧ lastMoveTo r = sq move
     ∧ resDoubleStep r = isDoubleStep p from move
     ∧ ∀ r' c',
         cell (nextBoard r) r' c'
         = if decide (r' = row (sq move) ∧ c' = col (sq move))
           then Some (promoteIfLastRank (markMoved p) move)
           else if decide (special move = Some EnPassant
                           ∧ r' = captureRowOf (color p) move
                           ∧ c' = col (sq move)) then None
           else if decide (r' = row from ∧ c' = col from) then None
           else cell b r' c').
Proof.
  intros Hwf Hp Hin Hnc Hr ds damage.
  rewrite resolveCommit_unfold in Hr by done. simpl in Hr. fold ds damage in Hr.
  assert (∀ nb mv,
            movePieceWithPromotion nb from move = Ok mv →
            cellAt nb from = Some p →
            mv.2 = promoteIfLastRank (markMoved p) move
            ∧ ∀ r' c',
                cell mv.1 r' c'
                = if decide (r' = row (sq move) ∧ c' = col (sq move))
                  then Some (promoteIfLastRank (markMoved p) move)
                  else if decide (special move = Some EnPassant
                                  ∧ r' = captureRowOf (color p) move
                                  ∧ c' = col (sq move)) then None
                  else if decide (r' = row from ∧ c' = col from) then None
                  else cell nb r' c') as Hrel.
  { intros nb mv Hmv Hnb.
    destruct (movePieceWithPromotion_cells _ _ _ _ _ Hmv Hnb Hnc) as [Hmp Hcells].
    split; [done|]. intros r' c'. by rewrite Hcells, Hmp. }
  destruct (cellAt b ds) as [d|] eqn:Hd.
  - destruct (decide (color d ≠ color p)) as [Hc|Hc].
    + apply bind_Ok in Hr as (b1 & Hb1 & Hr).
      destruct (Z.max 0 (hp d - damage) <=? 0) eqn:Hhp.
      * apply Z.leb_le in Hhp.
        apply bind_Ok in Hr as (b2 & Hb2 & Hr).
        apply bind_Ok in Hr as (mv & Hmv & [= <-]). simpl.
        assert (ds ≠ from) as Hne.
        { intros ->. rewrite Hp in Hd. congruence. }
        assert (cellAt b2 from = Some p) as Hp2.
        { unfold cellAt. rewrite (writeCell_cell _ _ _ _ _ _ _ Hb2),
            (writeCell_cell _ _ _ _ _ _ _ Hb1).
          assert (¬ (row from = row ds ∧ col from = col ds)) as Hne'
            by (intros [??]; apply Hne; square_eq).
          by rewrite !decide_False by done. }
        destruct (Hrel _ _ Hmv Hp2) as [Hmp Hcells].
        right. split; [|split; [done|split; [done|split; [done|]]]].
        { intros d' [= <-] _. lia. }
        intros r' c'. rewrite Hcells.
        rewrite (writeCell_cell _ _ _ _ _ _ _ Hb2), (writeCell_cell _ _ _ _ _ _ _ Hb1).
        repeat case_decide; try done.
        all: exfalso; subst ds; unfold defenderSquareOf in *;
          destruct (decide (special move = Some EnPassant)); simpl in *; tauto.
      * apply Z.leb_gt in Hhp. injection Hr as <-. simpl.
        left. exists d. repeat split; try done; [lia|].
        intros r' c'. by rewrite (writeCell_cell _ _ _ _ _ _ _ Hb1).
    + apply bind_Ok in Hr as (mv & Hmv & [= <-]). simpl.
      destruct (Hrel _ _ Hmv Hp) as [Hmp Hcells].
      right. split; [|done]. intros d' [= <-] Hc'. done.
  - apply bind_Ok in Hr as (mv & Hmv & [= <-]). simpl.
    destruct (Hrel _ _ Hmv Hp) as [Hmp Hcells].
    right. split; [|done]. intros d' [=].
Qed.

(** A castle from the e-file relocates king and rook and touches nothing
    else. *)
Lemma resolveCommit_castle att b r king side rr :
  wfBoard b → 0 <= r < 8 → side ∈ castleSides →
  cell b r 4 = Some king → type king = King →
  castleMove r side ∈ castleFor att b r king side →
  resolveCommit b (mkSquare r 4) (castleMove r side) king = Ok rr →
  ∃ rook, cell b r (rookCol side) = Some rook ∧ type rook = Rook
    ∧ color rook = color king
    ∧ cell b r (kingTargetCol side) = None
    ∧ cell b r (rookTargetCol side) = None
    ∧ nextPieceState rr = markMoved king
    ∧ lastMoveTo rr = mkSquare r (kingTargetCol side)
    ∧ resDoubleStep rr = false
    ∧ ∀ r' c',
        cell (nextBoard rr) r' c'
        = if decide (r' = r ∧ c' = rookTargetCol side) then Some (markMoved rook)
          else if decide (r' = r ∧ c' = rookCol side) then None
          else if decide (r' = r ∧ c' = kingTargetCol side) then Some (markMoved king)
          else if decide (r' = r ∧ c' = 4) then None
          else cell b r' c'.
Proof.
  intros Hwf Hr Hs Hk Hty Hoffer Hrr.
  destruct (castleFor_empty _ _ _ _ _ Hs Hoffer)
    as ((rook & Hrook & Hrty & Hrcol & _) & Hkt & Hrt).
  exists rook. do 5 (split; [done|]).
  rewrite resolveCommit_unfold in Hrr; [|done|].
  2:{ apply inBounds_spec. simpl.
      apply castleSides_cases in Hs as [->| ->]; simpl; lia. }
  simpl in Hrr.
  replace (cellAt b (defenderSquareOf king (castleMove r side))) with (@None Piece)
    in Hrr by (symmetry; exact Hkt).
  destruct (movePieceWithPromotion_castle b r king rook side Hwf Hr Hs Hk Hty Hrook)
    as (b' & Hmv & Hcells).
  rewrite Hmv in Hrr. injection Hrr as <-. simpl.
  repeat split; try done.
  unfold isDoubleStep. rewrite bool_decide_eq_false_2; [done|]. by rewrite Hty.
Qed.

Lemma promoteIfLastRank_color p move : color (promoteIfLastRank p move) = color p.
Proof. unfold promoteIfLastRank. by destruct (_ && _). Qed.

Lemma promoteIfLastRank_king p move :
  type (promoteIfLastRank p move) = King ↔ type p = King.
Proof.
  unfold promoteIfLastRank.
  destruct (bool_decide (type p = Pawn)) eqn:Hp; simpl; [|done].
  apply bool_decide_eq_true in Hp.
  destruct (_ || _); simpl; split; congruence.
Qed.

Lemma oneKing_same b b' c :
  (∀ k, kingOn b' c k ↔ kingOn b c k) → oneKing b c → oneKing b' c.
Proof.
  intros Hiff (k & Hk & Huniq). exists k. split; [by apply Hiff|].
  intros k' Hk'. by apply Huniq, Hiff.
Qed.

Lemma oneKing_moved b b' c from to :
  kingOn b c from → kingOn b' c to →
  (∀ k, kingOn b' c k → k = to ∨ (k ≠ from ∧ kingOn b c k)) →
  oneKing b c → oneKing b' c.
Proof.
  intros Hfrom Hto Hcases (k0 & _ & Huniq). exists to. split; [done|].
  intros k [->|[Hne Hk]]%Hcases; [done|].
  rewrite (Huniq _ Hk), (Huniq _ Hfrom) in Hne. done.
Qed.

(** The kings after a relocation that takes no king. *)
Lemma kings_relocate b b' from move p :
  cellAt b from = Some p →
  (∀ d, cellAt b (defenderSquareOf p move) = Some d →
        color d ≠ color p ∧ type d ≠ King) →
  (special move = Some EnPassant → cellAt b (sq move) = None) →
  (∀ r' c',
     cell b' r' c'
     = if decide (r' = row (sq move) ∧ c' = col (sq move))
       then Some (promoteIfLastRank (markMoved p) move)
       else if decide (special move = Some EnPassant
                       ∧ r' = captureRowOf (color p) move
                       ∧ c' = col (sq move)) then None
       else if decide (r' = row from ∧ c' = col from) then None
       else cell b r' c') →
  ∀ c, oneKing b c → oneKing b' c.
Proof.
  intros Hp Hdef Hep Hcells c.
  set (P' := promoteIfLastRank (markMoved p) move) in *.
  assert (color P' = color p) as HcP
    by (unfold P'; by rewrite promoteIfLastRank_color).
  assert (type P' = King ↔ type p = King) as HtP
    by (unfold P'; by rewrite promoteIfLastRank_king).
  assert (∀ q, cellAt b (sq move) = Some q → type q ≠ King) as Htarget.
  { intros q Hq. destruct (decide (special move = Some EnPassant)) as [He|He].
    - rewrite (Hep He) in Hq. done.
    - apply (Hdef q). unfold defenderSquareOf. by rewrite decide_False. }
  assert (∀ k, kingOn b' c k ↔
               (k = sq move ∧ type p = King ∧ color p = c)
               ∨ (k ≠ from ∧ kingOn b c k)) as Hiff.
  { intros k. unfold kingOn, cellAt. rewrite Hcells. split.
    - intros (q & Hq & Hqc & Hqt). revert Hq.
      destruct (decide (row k = row (sq move) ∧ col k = col (sq move))) as [H1|H1].
      + intros [= <-]. left. split; [square_eq|].
        split; [by apply HtP | by rewrite <- HcP].
      + destruct (decide (special move = Some EnPassant ∧ _)); [done|].
        destruct (decide (row k = row from ∧ col k = col from)) as [H3|H3]; [done|].
        intros Hq. right. split; [|by exists q].
        intros ->. tauto.
    - intros [(-> & Hty & Hc)|(Hne & q & Hq & Hqc & Hqt)].
      + rewrite decide_True by done. exists P'.
        split; [done|]. split; [by rewrite HcP | by apply HtP].
      + exists q. split; [|done].
        destruct (decide (row k = row (sq move) ∧ col k = col (sq move))) as [H1|H1].
        { exfalso. apply (Htarget q); [|done].
          unfold cellAt. destruct H1 as [<- <-]. done. }
        destruct (decide (special move = Some EnPassant ∧ _)) as [H2|H2].
        { exfalso. destruct H2 as (He & H2 & H3).
          destruct (Hdef q) as [_ Hnk]; [|done].
          unfold defenderSquareOf, cellAt. rewrite decide_True by done. simpl.
          by rewrite <- H2, <- H3. }
        rewrite decide_False; [done|].
        intros [??]. apply Hne. square_eq. }
  destruct (decide (type p = King ∧ color p = c)) as [[Hty Hc]|Hnk].
  - apply (oneKing_moved b b' c from (sq move)).
    + by exists p.
    + apply Hiff. by left.
    + intros k [(-> & _)|?]%Hiff; [by left|by right].
  - apply oneKing_same. intros k. rewrite Hiff. split.
    + intros [(_ & ? & ?)|[_ ?]]; [tauto|done].
    + intros Hk. right. split; [|done]. intros ->.
      destruct Hk as (q & Hq & ? & ?). rewrite Hp in Hq. injection Hq as <-. tauto.
Qed.

(** Damage changes neither the kind nor the colour of a piece. *)
Lemma kings_damage b b' ds d damage :
  cellAt b ds = Some d →
  (∀ r' c', cell b' r' c'
            = if decide (r' = row ds ∧ c' = col ds)
              then Some (damaged d damage) else cell b r' c') →
  ∀ c, oneKing b c → oneKing b' c.
Proof.
  intros Hd Hcells c. apply oneKing_same. intros k.
  unfold kingOn, cellAt in *. rewrite Hcells.
  destruct (decide (row k = row ds ∧ col k = col ds)) as [[-> ->]|Hne]; [|done].
  rewrite Hd. split; intros (q & [= <-] & ? & ?); eauto.
Qed.

Lemma kings_castle b b' r side king rook :
  side ∈ castleSides →
  cell b r 4 = Some king → type king = King →
  cell b r (rookCol side) = Some rook → type rook = Rook →
  cell b r (kingTargetCol side) = None →
  cell b r (rookTargetCol side) = None →
  (∀ r' c',
     cell b' r' c'
     = if decide (r' = r ∧ c' = rookTargetCol side) then Some (markMoved rook)
       else if decide (r' = r ∧ c' = rookCol side) then None
       else if decide (r' = r ∧ c' = kingTargetCol side) then Some (markMoved king)
       else if decide (r' = r ∧ c' = 4) then None
       else cell b r' c') →
  ∀ c, oneKing b c → oneKing b' c.
Proof.
  intros Hs Hk Hkty Hrook Hrty Hkt Hrt Hcells c.
  assert (∀ k, kingOn b' c k ↔
               (k = mkSquare r (kingTargetCol side) ∧ color king = c)
               ∨ (k ≠ mkSquare r 4 ∧ kingOn b c k)) as Hiff.
  { intros k. unfold kingOn, cellAt. rewrite Hcells. split.
    - intros (q & Hq & Hqc & Hqt). revert Hq.
      destruct (decide (row k = r ∧ col k = rookTargetCol side)) as [H1|H1].
      { intros [= <-]. simpl in Hqt. congruence. }
      destruct (decide (row k = r ∧ col k = rookCol side)) as [H2|H2]; [done|].
      destruct (decide (row k = r ∧ col k = kingTargetCol side)) as [H3|H3].
      { intros [= <-]. left. split; [square_eq|done]. }
      destruct (decide (row k = r ∧ col k = 4)) as [H4|H4]; [done|].
      intros Hq. right. split; [|by exists q]. intros ->. simpl in *. tauto.
    - intros [(-> & Hc)|(Hne & q & Hq & Hqc & Hqt)]; simpl.
      + exists (markMoved king).
        apply castleSides_cases in Hs as [->| ->]; simpl;
          (rewrite decide_False by lia); (rewrite decide_False by lia);
          by rewrite decide_True.
      + exists q. split; [|done].
        destruct (decide (row k = r ∧ col k = rookTargetCol side)) as [[H1 H1']|H1].
        { rewrite H1, H1' in Hq. congruence. }
        destruct (decide (row k = r ∧ col k = rookCol side)) as [[H2 H2']|H2].
        { rewrite H2, H2' in Hq. congruence. }
        destruct (decide (row k = r ∧ col k = kingTargetCol side)) as [[H3 H3']|H3].
        { rewrite H3, H3' in Hq. congruence. }
        rewrite decide_False; [done|]. intros [??]. apply Hne. square_eq. }
  destruct (decide (color king = c)) as [Hc|Hc].
  - apply (oneKing_moved b b' c (mkSquare r 4) (mkSquare r (kingTargetCol side))).
    + by exists king.
    + apply Hiff. by left.
    + intros k [(-> & _)|?]%Hiff; [by left|by right].
  - apply oneKing_same. intros k. rewrite Hiff. split.
    + intros [(_ & ?)|[_ ?]]; [done|done].
    + intros Hk'. right. split; [|done]. intros ->.
      destruct Hk' as (q & Hq & ? & ?). unfold cellAt in Hq. simpl in Hq. congruence.
Qed.

(** ** Piece statistics *)

Lemma pieceOk_moved r0 c0 p move :
  pieceOk r0 c0 p →
  inBounds (row (sq move)) (col (sq move)) = true →
  pieceOk (row (sq move)) (col (sq move)) (promoteIfLastRank (markMoved p) move).
Proof.
  intros (Hhp & Hmax & Hpawn & Hking & _) Hin%inBounds_spec.
  unfold pieceOk, promoteIfLastRank. simpl.
  destruct (bool_decide (type p = Pawn)) eqn:Hp; simpl.
  - apply bool_decide_eq_true in Hp.
    destruct (bool_decide (row (sq move) = 0)) eqn:H0; simpl.
    { split_and!; try done; lia. }
    destruct (bool_decide (row (sq move) = 7)) eqn:H7; simpl.
    { split_and!; try done; lia. }
    apply bool_decide_eq_false in H0, H7.
    split_and!; try done; lia.
  - apply bool_decide_eq_false in Hp. split_and!; try done; lia.
Qed.

Lemma pieceOk_markMoved r0 c0 r1 c1 p :
  pieceOk r0 c0 p → type p ≠ Pawn → pieceOk r1 c1 (markMoved p).
Proof.
  intros (Hhp & Hmax & Hpawn & Hking & _) Hnp.
  unfold pieceOk. simpl. split_and!; try done; lia.
Qed.

Lemma pieceOk_damaged r c d damage :
  pieceOk r c d → type d ≠ King → 0 <= damage < hp d →
  pieceOk r c (damaged d damage).
Proof.
  intros (Hhp & Hmax & Hpawn & Hking & Hhome) Hnk Hd.
  unfold pieceOk. simpl. split_and!; try done; lia.
Qed.

(** ** A committed legal move keeps the scene in order *)

Lemma commitMove_selection s from move p s' :
  isResolvingMove s = false →
  readCell (board s) (row from) (col from) = Ok (Some p) →
  commitMove s from move = Ok s' →
  selected s' = None ∧ legalMoves s' = [].
Proof.
  intros Hres Hread. unfold commitMove. rewrite Hres, Hread. simpl.
  intros Hc. apply bind_Ok in Hc as (r & _ & Hc).
  apply bind_Ok in Hc as (s1 & Hs1 & [= <-]). simpl.
  apply evaluateGameState_frame in Hs1 as (_ & _ & _ & Hsel & Hlm & _).
  by rewrite Hsel, Hlm.
Qed.

Lemma initial_king r c col :
  cell createInitialBoard r c = Some (createPiece col King) →
  c = 4 ∧ (r = 0 ∨ r = 7).
Proof.
  intros H.
  pose proof (cell_Some_inBounds _ _ _ _ createInitialBoard_wf H)
    as [Hr Hc]%inBounds_spec.
  assert (r = 0 ∨ r = 1 ∨ r = 2 ∨ r = 3 ∨ r = 4 ∨ r = 5 ∨ r = 6 ∨ r = 7)
    as Hr' by lia.
  assert (c = 0 ∨ c = 1 ∨ c = 2 ∨ c = 3 ∨ c = 4 ∨ c = 5 ∨ c = 6 ∨ c = 7)
    as Hc' by lia.
  destruct Hr' as [->|[->|[->|[->|[->|[->|[->| ->]]]]]]];
    destruct Hc' as [->|[->|[->|[->|[->|[->|[->| ->]]]]]]];
    vm_compute in H; try discriminate; (split; [done|]); auto.
Qed.

(** The piece a legal move attacks is an enemy piece other than the king. *)
Lemma defender_facts s sel p move :
  sceneOk s → cellAt (board s) sel = Some p → color p = turn s →
  move ∈ getPseudoMoves (lastMove s) (board s) (row sel) (col sel) p false →
  special move ≠ Some Castle →
  (∀ d, cellAt (board s) (defenderSquareOf p move) = Some d →
        color d ≠ color p ∧ type d ≠ King)
  ∧ (special move = Some EnPassant → cellAt (board s) (sq move) = None).
Proof.
  intros Hok Hp Hcol Hm Hnc.
  destruct (getPseudoMoves_cases _ _ _ _ _ _ Hm)
    as [[Hs He]|[(Hs & Ha & t & Ht & Htc)|[[Hty Hep]|(_ & _ & side & _ & -> & _)]]].
  - split; [|by rewrite Hs]. intros d. unfold defenderSquareOf.
    rewrite decide_False by (by rewrite Hs). by rewrite He.
  - split; [|by rewrite Hs]. intros d. unfold defenderSquareOf.
    rewrite decide_False by (by rewrite Hs). rewrite Ht. intros [= <-].
    split; [done|]. intros Hking.
    assert (color t = enemyOf (color p)) as Hen by by apply enemyOf_ne.
    assert (kingOn (board s) (enemyOf (color p)) (sq move)) as Hk by by exists t.
    destruct (ok_kings s Hok (enemyOf (color p))) as (k0 & Hk0 & Huniq).
    assert (isKingInCheck (board s) (enemyOf (color p)) = true) as Hcheck.
    { apply (attackMap_check (board s) (row sel) (col sel) p move); try done.
      - apply (ok_wf s Hok).
      - intros k' Hk'. by rewrite (Huniq _ Hk'), (Huniq _ Hk). }
    rewrite Hcol, (ok_safe s Hok) in Hcheck. discriminate Hcheck.
  - apply enPassant_defenderSquare in Hep
      as (Hs & l & Hl & Hw & Hlty & Hlc & Hds & He).
    split; [|done]. intros d. rewrite Hds.
    destruct (ok_last s Hok l Hl) as [_ Hat]. rewrite (Hat Hw).
    intros [= <-]. split; [done|]. by rewrite Hlty.
  - done.
Qed.

Lemma commitMove_sceneOk s sel move p ms s' :
  sceneOk s → cellAt (board s) sel = Some p → color p = turn s →
  getLegalMoves (lastMove s) (board s) sel = Ok ms → move ∈ ms →
  commitMove s sel move = Ok s' → sceneOk s'.
Proof.
  intros Hok Hp Hcol Hlegal Hm Hc.
  pose proof (ok_wf s Hok) as Hwf. pose proof (ok_idle s Hok) as Hidle.
  pose proof (cell_Some_inBounds _ _ _ _ Hwf Hp) as Hin.
  pose proof Hin as [Hr Hc']%inBounds_spec.
  assert (readCell (board s) (row sel) (col sel) = Ok (Some p)) as Hread
    by (rewrite readCell_wf by done; by rewrite <- Hp).
  unfold getLegalMoves in Hlegal. rewrite Hread in Hlegal. simpl in Hlegal.
  apply (filterLegal_elem _ _ _ _ _ move) in Hlegal.
  apply Hlegal in Hm as (Hpseudo & b' & Hsim & Hsafe). clear Hlegal.
  destruct (commitMove_Ok _ _ _ _ _ Hidle Hread Hc) as (r & Hr' & Hb & Hturn & Hlm & Hidle').
  rewrite (resolveCommit_board _ _ _ _ Hread), Hr' in Hsim. simpl in Hsim.
  injection Hsim as <-.
  destruct (commitMove_selection _ _ _ _ _ Hidle Hread Hc) as [Hsel' Hlegal'].
  pose proof (getPseudoMoves_onGrid _ _ _ _ _ _ _ Hin Hpseudo) as Hgrid.
  pose proof (moveOnGrid_target _ _ Hgrid) as Htarget.
  assert (color (nextPieceState r) = color p
          ∧ (resDoubleStep r = true →
             cellAt (nextBoard r) (lastMoveTo r) = Some (nextPieceState r))
          ∧ (∀ r' c' q, cell (nextBoard r) r' c' = Some q → pieceOk r' c' q)
          ∧ (∀ c, oneKing (nextBoard r) c)) as (Hnc & Hnd & Hnp & Hnk).
  { destruct (decide (special move = Some Castle)) as [Hcastle|Hcastle].
    - destruct (getPseudoMoves_cases _ _ _ _ _ _ Hpseudo)
        as [[Hs _]|[(Hs & _)|[[Hty Hep]|(Hty & Hmoved & side & Hside & -> & Hoffer)]]];
        [congruence|congruence| |].
      { apply enPassant_defenderSquare in Hep as [Hs _]. congruence. }
      destruct (ok_pieces s Hok _ _ _ Hp) as (_ & _ & _ & _ & Hhome).
      specialize (Hhome Hmoved). rewrite Hty in Hhome.
      apply initial_king in Hhome as [Hc4 _].
      destruct sel as [kr kc]. simpl in *. subst kc.
      destruct (resolveCommit_castle _ _ _ _ _ _ Hwf Hr Hside Hp Hty Hoffer Hr')
        as (rook & Hrook & Hrty & Hrcol & Hkt & Hrt & Hps & Hto & Hds & Hcells).
      rewrite Hps, Hds. split; [done|]. split; [done|]. split.
      + intros r' c' q. rewrite Hcells.
        repeat case_decide; try done.
        * intros [= <-]. eapply pieceOk_markMoved; [by eapply (ok_pieces s Hok)|].
          by rewrite Hrty.
        * intros [= <-]. eapply pieceOk_markMoved; [by eapply (ok_pieces s Hok)|].
          by rewrite Hty.
        * apply (ok_pieces s Hok).
      + intros c. eapply kings_castle; try done. apply (ok_kings s Hok).
    - destruct (defender_facts s sel p move Hok Hp Hcol Hpseudo Hcastle) as [Hdef Hep].
      destruct (resolveCommit_outcome _ _ _ _ _ Hwf Hp Htarget Hcastle Hr')
        as [(d & Hd & Hdc & Hhp & Hps & Hto & Hds & Hcells)
           |(_ & Hps & Hto & Hds & Hcells)].
      + rewrite Hps, Hds. split; [done|]. split; [done|]. split.
        * intros r' c' q. rewrite Hcells.
          destruct (decide (r' = _ ∧ c' = _)) as [[-> ->]|_]; [|apply (ok_pieces s Hok)].
          intros [= <-]. apply pieceOk_damaged.
          -- by apply (ok_pieces s Hok).
          -- by apply Hdef.
          -- pose proof (getPieceDamage_nonneg (type p)). lia.
        * intros c. eapply kings_damage; [done|done|]. apply (ok_kings s Hok).
      + rewrite Hps, Hto. split; [by rewrite promoteIfLastRank_color|].
        split; [|split].
        * intros _. unfold cellAt. rewrite Hcells. by rewrite decide_True.
        * intros r' c' q. rewrite Hcells.
          destruct (decide (r' = _ ∧ c' = _)) as [[-> ->]|_].
          { intros [= <-]. eapply pieceOk_moved; [|done].
            by eapply (ok_pieces s Hok). }
          destruct (decide (special move = Some EnPassant ∧ _)); [done|].
          destruct (decide (r' = _ ∧ c' = _)); [done|].
          apply (ok_pieces s Hok).
        * intros c. eapply kings_relocate; try done. apply (ok_kings s Hok). }
  constructor.
  - by apply (commitMove_wf s sel move p s').
  - done.
  - by rewrite Hb.
  - by rewrite Hb.
  - rewrite Hb, Hturn, enemyOf_involutive, <- Hcol. done.
  - intros l. rewrite Hlm, Hturn, enemyOf_involutive, Hb. intros [= <-]. simpl.
    split; [congruence|done].
  - destruct (commitMove_gameState _ _ _ _ _ Hidle Hread Hc) as (x & Hx & Hst).
    by exists x.
  - by rewrite Hlm.
  - unfold selectionOk. by rewrite Hsel'.
Qed.

(** ** The initial scene and the pointer events *)

Ltac board_cases r c H :=
  let Hr := fresh in let Hc := fresh in
  pose proof (cell_Some_inBounds _ _ _ _ createInitialBoard_wf H)
    as [Hr Hc]%inBounds_spec;
  assert (r = 0 ∨ r = 1 ∨ r = 2 ∨ r = 3 ∨ r = 4 ∨ r = 5 ∨ r = 6 ∨ r = 7)
    as [->|[->|[->|[->|[->|[->|[->| ->]]]]]]] by lia;
  assert (c = 0 ∨ c = 1 ∨ c = 2 ∨ c = 3 ∨ c = 4 ∨ c = 5 ∨ c = 6 ∨ c = 7)
    as [->|[->|[->|[->|[->|[->|[->| ->]]]]]]] by lia;
  clear Hr Hc; vm_compute in H.

Lemma createInitialBoard_pieces r c p :
  cell createInitialBoard r c = Some p → pieceOk r c p.
Proof.
  intros H. board_cases r c H; try discriminate H;
    injection H as <-; unfold pieceOk; simpl;
    (split_and!; try done; try lia; intros _; (lia || by vm_compute)).
Qed.

Lemma createInitialBoard_kings c : oneKing createInitialBoard c.
Proof.
  exists (mkSquare (if decide (c = White) then 7 else 0) 4). split.
  - exists (createPiece c King). by destruct c.
  - intros [r' c'] (q & Hq & Hqc & Hqt). unfold cellAt in Hq. simpl in Hq.
    board_cases r' c' Hq; try discriminate Hq;
      injection Hq as <-; simpl in *; try discriminate Hqt; by subst c.
Qed.

Lemma resetGame_ok : sceneOk resetGame.
Proof.
  constructor; simpl.
  - apply createInitialBoard_wf.
  - done.
  - apply createInitialBoard_pieces.
  - apply createInitialBoard_kings.
  - by vm_compute.
  - by intros l.
  - exists true. split; by vm_compute.
  - done.
  - done.
Qed.

Lemma sceneOk_withSelection s sel moves :
  sceneOk s → selectionOk (withSelection s sel moves) →
  sceneOk (withSelection s sel moves).
Proof. intros [] Hsel. by constructor. Qed.

Lemma find_elem_of {A} (f : A → bool) (l : list A) x :
  find f l = Some x → x ∈ l ∧ f x = true.
Proof. intros [H ?]%find_some. split; [by apply list_elem_of_In|done]. Qed.

Lemma handleSquareClick_ok s r c :
  sceneOk s → inBounds r c = true →
  ∃ s', handleSquareClick s r c = Ok s' ∧ sceneOk s'.
Proof.
  intros Hok Hin. pose proof (ok_wf s Hok) as Hwf.
  pose proof Hin as [Hr Hc]%inBounds_spec.
  unfold handleSquareClick. rewrite readCell_wf by done. simpl.
  assert (∃ s', match cell (board s) r c with
                | Some p =>
                    if decide (color p = turn s) then
                      moves ← getLegalMoves (lastMove s) (board s) (mkSquare r c);
                      Ok (withSelection s (Some (mkSquare r c)) moves)
                    else Ok (withSelection s None [])
                | None => Ok (withSelection s None [])
                end = Ok s' ∧ sceneOk s') as Hselect.
  { destruct (cell (board s) r c) as [p|] eqn:Hp.
    - destruct (decide (color p = turn s)) as [Hcol|Hcol].
      + destruct (getLegalMoves_total (lastMove s) (board s) (mkSquare r c) Hwf)
          as [moves Hmoves]; [done|].
        rewrite Hmoves. simpl. eexists. split; [done|].
        apply sceneOk_withSelection; [done|]. by exists p.
      + eexists. split; [done|]. by apply sceneOk_withSelection.
    - eexists. split; [done|]. by apply sceneOk_withSelection. }
  pose proof (ok_selection s Hok) as Hsel. unfold selectionOk in Hsel.
  destruct (selected s) as [sel|]; [|done].
  destruct (find _ (legalMoves s)) as [move|] eqn:Hfind; [|done].
  apply find_elem_of in Hfind as [Hm _].
  destruct Hsel as (p & Hp & Hcol & Hlegal).
  pose proof (cell_Some_inBounds _ _ _ _ Hwf Hp) as Hsin.
  assert (readCell (board s) (row sel) (col sel) = Ok (Some p)) as Hread.
  { apply inBounds_spec in Hsin as [??]. rewrite readCell_wf by done. by rewrite <- Hp. }
  assert (move ∈ getPseudoMoves (lastMove s) (board s) (row sel) (col sel) p false)
    as Hpseudo.
  { unfold getLegalMoves in Hlegal. rewrite Hread in Hlegal. simpl in Hlegal.
    by destruct (proj1 (filterLegal_elem _ _ _ _ _ move Hlegal) Hm) as [? _]. }
  destruct (commitMove_total s sel move p Hwf Hp) as [s' Hs'].
  { by eapply getPseudoMoves_onGrid. }
  exists s'. split; [done|]. by eapply commitMove_sceneOk.
Qed.

Lemma onPointerDown_ok s pointed :
  sceneOk s → ∃ s', onPointerDown s pointed = Ok s' ∧ sceneOk s'.
Proof.
  intros Hok. unfold onPointerDown.
  destruct (negb _ || _); [by exists s|].
  destruct pointed as [[r c]|].
  - destruct (inBounds r c) eqn:Hin; simpl.
    + by apply handleSquareClick_ok.
    + eexists. split; [done|]. by apply sceneOk_withSelection.
  - eexists. split; [done|]. by apply sceneOk_withSelection.
Qed.

Lemma play_ok s clicks :
  sceneOk s → ∃ s', play s clicks = Ok s' ∧ sceneOk s'.
Proof.
  revert s. induction clicks as [|pointed rest IH]; intros s Hok; simpl.
  - by exists s.
  - destruct (onPointerDown_ok s pointed Hok) as (s1 & -> & Hok1). simpl.
    by apply IH.
Qed.

Lemma play_sceneOk clicks s :
  play resetGame clicks = Ok s → sceneOk s.
Proof.
  intros H. destruct (play_ok resetGame clicks resetGame_ok) as (s' & Hs' & Hok).
  congruence.
Qed.

(** A pointer event changes the selection only, or commits a legal move of
    the selected piece. *)
Lemma onPointerDown_cases s pointed s' :
  sceneOk s →
  onPointerDown s pointed = Ok s' →
  (board s' = board s ∧ turn s' = turn s ∧ lastMove s' = lastMove s
   ∧ gameState s' = gameState s)
  ∨ ∃ sel p ms move,
      selected s = Some sel
      ∧ cellAt (board s) sel = Some p ∧ color p = turn s
      ∧ getLegalMoves (lastMove s) (board s) sel = Ok ms
      ∧ move ∈ ms
      ∧ pointed = Some (row (sq move), col (sq move))
      ∧ commitMove s sel move = Ok s'
      ∧ turn s' = enemyOf (turn s).
Proof.
  intros Hok.
  unfold onPointerDown.
  destruct (negb _ || _); [intros [= <-]; by left|].
  destruct pointed as [[r c]|]; [|intros [= <-]; by left].
  destruct (inBounds r c) eqn:Hin; simpl; [|intros [= <-]; by left].
  unfold handleSquareClick. intros Hclick.
  apply bind_Ok in Hclick as (clicked & _ & Hclick).
  assert (match clicked with
          | Some p =>
              if decide (color p = turn s) then
                moves ← getLegalMoves (lastMove s) (board s) (mkSquare r c);
                Ok (withSelection s (Some (mkSquare r c)) moves)
              else Ok (withSelection s None [])
          | None => Ok (withSelection s None [])
          end = Ok s' →
          board s' = board s ∧ turn s' = turn s ∧ lastMove s' = lastMove s
          ∧ gameState s' = gameState s) as Hselect.
  { destruct clicked as [p|]; [|by intros [= <-]].
    destruct (decide _); [|by intros [= <-]].
    intros (moves & _ & [= <-])%bind_Ok. done. }
  pose proof (ok_selection s Hok) as Hsel. unfold selectionOk in Hsel.
  destruct (selected s) as [sel|]; [|left; by apply Hselect].
  destruct (find _ (legalMoves s)) as [move|] eqn:Hfind; [|left; by apply Hselect].
  apply find_elem_of in Hfind as [Hm Hsq].
  apply andb_true_iff in Hsq as [<-%bool_decide_eq_true <-%bool_decide_eq_true].
  destruct Hsel as (p & Hp & Hcol & Hlegal).
  right. exists sel, p, (legalMoves s), move. split_and!; try done.
  pose proof (cell_Some_inBounds _ _ _ _ (ok_wf s Hok) Hp) as [??]%inBounds_spec.
  assert (readCell (board s) (row sel) (col sel) = Ok (Some p)) as Hread
    by (rewrite readCell_wf by (done || apply (ok_wf s Hok)); by rewrite <- Hp).
  by destruct (commitMove_Ok _ _ _ _ _ (ok_idle s Hok) Hread Hclick)
    as (_ & _ & _ & ? & _).
Qed.

(** No piece heals or changes sides in a commit of a legal move: every
    piece of the new board was on the old one, with the same colour and no
    fewer hit points; its kind is the same unless it is a pawn turned queen
    on the first or last row; and it is on the same square unless it is
    marked as moved and has left its old square empty. *)
Lemma commitMove_pieces s sel move p ms s' :
  sceneOk s → cellAt (board s) sel = Some p → color p = turn s →
  getLegalMoves (lastMove s) (board s) sel = Ok ms → move ∈ ms →
  commitMove s sel move = Ok s' →
  ∀ r' c' q', cell (board s') r' c' = Some q' →
    ∃ r c q, cell (board s) r c = Some q
      ∧ color q' = color q ∧ hp q' ≤ hp q
      ∧ (type q' = type q
         ∨ (type q = Pawn ∧ type q' = Queen ∧ (r' = 0 ∨ r' = 7)))
      ∧ ((r = r' ∧ c = c' ∧ moved q' = moved q)
         ∨ (moved q' = true ∧ cell (board s') r c = None)).
Proof.
  intros Hok Hp Hcol Hlegal Hm Hc.
  pose proof (ok_wf s Hok) as Hwf. pose proof (ok_idle s Hok) as Hidle.
  pose proof (cell_Some_inBounds _ _ _ _ Hwf Hp) as Hin.
  pose proof Hin as [Hr Hc']%inBounds_spec.
  assert (readCell (board s) (row sel) (col sel) = Ok (Some p)) as Hread
    by (rewrite readCell_wf by done; by rewrite <- Hp).
  unfold getLegalMoves in Hlegal. rewrite Hread in Hlegal. simpl in Hlegal.
  destruct (proj1 (filterLegal_elem _ _ _ _ _ move Hlegal) Hm) as [Hpseudo _].
  destruct (commitMove_Ok _ _ _ _ _ Hidle Hread Hc) as (r & Hr' & Hb & _).
  rewrite Hb.
  pose proof (getPseudoMoves_onGrid _ _ _ _ _ _ _ Hin Hpseudo) as Hgrid.
  pose proof (moveOnGrid_target _ _ Hgrid) as Htarget.
  assert (∀ r0 c0 q, cell (board s) r0 c0 = Some q →
            ∃ r1 c1 q0, cell (board s) r1 c1 = Some q0
              ∧ color q = color q0 ∧ hp q ≤ hp q0
              ∧ (type q = type q0
                 ∨ (type q0 = Pawn ∧ type q = Queen ∧ (r0 = 0 ∨ r0 = 7)))
              ∧ ((r1 = r0 ∧ c1 = c0 ∧ moved q = moved q0)
                 ∨ (moved q = true ∧ cell (nextBoard r) r1 c1 = None))) as Hsame.
  { intros r0 c0 q Hq. exists r0, c0, q. split_and!; try done; try lia; by left. }
  assert (∀ r0 c0 q r1 c1, cell (board s) r0 c0 = Some q → type q ≠ Pawn →
            cell (nextBoard r) r0 c0 = None →
            ∃ r2 c2 q0, cell (board s) r2 c2 = Some q0
              ∧ color (markMoved q) = color q0 ∧ hp (markMoved q) ≤ hp q0
              ∧ (type (markMoved q) = type q0
                 ∨ (type q0 = Pawn ∧ type (markMoved q) = Queen ∧ (r1 = 0 ∨ r1 = 7)))
              ∧ ((r2 = r1 ∧ c2 = c1 ∧ moved (markMoved q) = moved q0)
                 ∨ (moved (markMoved q) = true ∧ cell (nextBoard r) r2 c2 = None)))
    as Hmoved.
  { intros r0 c0 q r1 c1 Hq _ Hgone. exists r0, c0, q. simpl.
    split_and!; try done; try lia; [by left|by right]. }
  destruct (decide (special move = Some Castle)) as [Hcastle|Hcastle].
  - destruct (getPseudoMoves_cases _ _ _ _ _ _ Hpseudo)
      as [[Hs _]|[(Hs & _)|[[Hty Hep]|(Hty & Hmv & side & Hside & -> & Hoffer)]]];
      [congruence|congruence| |].
    { apply enPassant_defenderSquare in Hep as [Hs _]. congruence. }
    destruct (ok_pieces s Hok _ _ _ Hp) as (_ & _ & _ & _ & Hhome).
    specialize (Hhome Hmv). rewrite Hty in Hhome.
    apply initial_king in Hhome as [Hc4 _].
    destruct sel as [kr kc]. simpl in *. subst kc.
    destruct (resolveCommit_castle _ _ _ _ _ _ Hwf Hr Hside Hp Hty Hoffer Hr')
      as (rook & Hrook & Hrty & _ & _ & _ & _ & _ & _ & Hcells).
    assert (cell (nextBoard r) kr (rookCol side) = None
            ∧ cell (nextBoard r) kr 4 = None) as [Hgone1 Hgone2].
    { rewrite !Hcells.
      apply castleSides_cases in Hside as [->| ->]; simpl;
        split; repeat (case_decide; try done; try lia). }
    intros r' c' q'. rewrite Hcells.
    destruct (decide (r' = kr ∧ c' = rookTargetCol side)).
    { intros [= <-]. apply (Hmoved _ _ _ r' c' Hrook); [by rewrite Hrty|done]. }
    destruct (decide (r' = kr ∧ c' = rookCol side)); [done|].
    destruct (decide (r' = kr ∧ c' = kingTargetCol side)).
    { intros [= <-]. apply (Hmoved _ _ _ r' c' Hp); [by rewrite Hty|done]. }
    destruct (decide (r' = kr ∧ c' = 4)); [done|]. apply Hsame.
  - destruct (defender_facts s sel p move Hok Hp Hcol Hpseudo Hcastle) as [Hdef Hep].
    destruct (resolveCommit_outcome _ _ _ _ _ Hwf Hp Htarget Hcastle Hr')
      as [(d & Hd & Hdc & Hhp & _ & _ & _ & Hcells)|(_ & _ & _ & _ & Hcells)].
    + intros r' c' q'. rewrite Hcells.
      destruct (decide (r' = _ ∧ c' = _)) as [[-> ->]|_]; [|apply Hsame].
      intros [= <-]. eexists _, _, d. split; [exact Hd|]. simpl.
      pose proof (getPieceDamage_nonneg (type p)).
      split_and!; try done; try lia; by left.
    + assert (cell (nextBoard r) (row sel) (col sel) = None) as Hgone.
      { rewrite Hcells.
        destruct (decide (row sel = row (sq move) ∧ col sel = col (sq move)))
          as [[Hr1 Hc1]|_].
        { exfalso. unfold cellAt in Hp. rewrite Hr1, Hc1 in Hp.
          destruct (decide (special move = Some EnPassant)) as [He|He].
          - specialize (Hep He). unfold cellAt in Hep. congruence.
          - destruct (Hdef p) as [Hne _]; [|done].
            unfold defenderSquareOf. by rewrite decide_False. }
        destruct (decide (special move = Some EnPassant ∧ _)); [done|].
        by rewrite decide_True. }
      intros r' c' q'. rewrite Hcells.
      destruct (decide (r' = _ ∧ c' = _)) as [[-> ->]|_].
      { intros [= <-]. exists (row sel), (col sel), p. split; [done|].
        rewrite promoteIfLastRank_color. split; [done|].
        unfold promoteIfLastRank. simpl.
        destruct (bool_decide (type p = Pawn)) eqn:Hpawn; simpl.
        - apply bool_decide_eq_true in Hpawn.
          destruct (bool_decide (row (sq move) = 0)) eqn:H0; simpl.
          { apply bool_decide_eq_true in H0.
            split; [lia|]. split; [right; split_and!; auto|by right]. }
          destruct (bool_decide (row (sq move) = 7)) eqn:H7; simpl.
          { apply bool_decide_eq_true in H7.
            split; [lia|]. split; [right; split_and!; auto|by right]. }
          split; [lia|]. split; [by left|by right].
        - split; [lia|]. split; [by left|by right]. }
      destruct (decide (special move = Some EnPassant ∧ _)); [done|].
      destruct (decide (r' = _ ∧ c' = _)); [done|]. apply Hsame.
Qed.

(** The king of the side that is not to move is attacked by nothing. *)
Lemma sceneOk_safe s k :
  sceneOk s → kingOn (board s) (enemyOf (turn s)) k →
  ¬ attackedBy (board s) (turn s) k.
Proof.
  intros Hok Hk Hatt.
  destruct (ok_kings s Hok (enemyOf (turn s))) as (k0 & _ & Huniq).
  pose proof (isKingInCheck_oneKing (board s) (enemyOf (turn s)) k
                (ok_wf s Hok) Hk) as Heq.
  rewrite (ok_safe s Hok), enemyOf_involutive in Heq.
  assert (isSquareAttacked (board s) (row k) (col k) (turn s) = true) as Ha.
  { apply isSquareAttacked_true; [apply (ok_wf s Hok)|]. by destruct k. }
  rewrite <- Heq in Ha; [done|].
  intros k' Hk'. by rewrite (Huniq _ Hk'), (Huniq _ Hk).
Qed.

(** A king attacks every square next to it that is on the board and holds a
    piece of the other side. *)
Lemma kingSteps_adjacent b r c p r' c' t :
  inBounds r' c' = true → cell b r' c' = Some t → color t ≠ color p →
  Z.abs (r' - r) ≤ 1 → Z.abs (c' - c) ≤ 1 → (r', c') ≠ (r, c) →
  plainMove r' c' ∈ kingSteps b r c p.
Proof.
  intros Hin Ht Hc Hr Hc' Hne. unfold kingSteps.
  apply list_elem_of_bind. exists (r' - r). split; [|rewrite !elem_of_cons; lia].
  apply list_elem_of_bind. exists (c' - c). split; [|rewrite !elem_of_cons; lia].
  replace (r + (r' - r)) with r' by lia. replace (c + (c' - c)) with c' by lia.
  destruct (bool_decide (r' - r = 0) && bool_decide (c' - c = 0)) eqn:Hz.
  { apply andb_true_iff in Hz as [H1%bool_decide_eq_true H2%bool_decide_eq_true].
    exfalso. apply Hne. f_equal; lia. }
  rewrite Hin, Ht. simpl. rewrite decide_True by done. by apply list_elem_of_singleton.
Qed.

(** A king that is marked as moved stays so through a pointer event. *)
Lemma onPointerDown_king_moved s pointed s' c :
  sceneOk s → onPointerDown s pointed = Ok s' →
  (∀ k king, cellAt (board s) k = Some king → type king = King →
             color king = c → moved king = true) →
  ∀ k king, cellAt (board s') k = Some king → type king = King →
            color king = c → moved king = true.
Proof.
  intros Hok Hclick Hmoved k king Hking Hty Hc.
  destruct (onPointerDown_cases s pointed s' Hok Hclick)
    as [(Hb & _)|(sel & p & ms & move & _ & Hp & Hcol & Hlegal & Hm & _ & Hcm & _)].
  - rewrite Hb in Hking. by eapply Hmoved.
  - destruct (commitMove_pieces s sel move p ms s' Hok Hp Hcol Hlegal Hm Hcm
                (row k) (col k) king Hking)
      as (r0 & c0 & q & Hq & Hqc & _ & Hqt & Hsame).
    assert (type q = King) as Hqk.
    { destruct Hqt as [<-|(_ & Hqueen & _)]; [done|congruence]. }
    destruct Hsame as [(_ & _ & ->)|[? _]]; [|done].
    apply (Hmoved (mkSquare r0 c0) q); [done|done|congruence].
Qed.

(** ** Properties of every game

    A game is the scene [resetGame] builds followed by any sequence of pointer
    events. *)

(** No sequence of pointer events makes the click handler or the commit it
    starts raise an error or write outside the board. *)
Theorem play_never_fails :
  ∀ clicks : list (option (Z * Z)), ∃ s, play resetGame clicks = Ok s.
Proof.
  intros clicks.
  destruct (play_ok resetGame clicks resetGame_ok) as (s & Hs & _). by exists s.
Qed.

(** In every scene of a game the board is 8x8, every piece on it has between
    1 and its maximum of hit points, that maximum is the one of its current
    kind, and no pawn stands on the first or the last row. *)
Theorem play_keeps_pieces_sound :
  ∀ (clicks : list (option (Z * Z))) (s : Scene),
    play resetGame clicks = Ok s →
    wfBoard (board s)
    ∧ ∀ r c p, cell (board s) r c = Some p →
        inBounds r c = true
        ∧ 0 < hp p ≤ maxHp p
        ∧ maxHp p = PIECE_HP (type p)
        ∧ (type p = Pawn → 1 ≤ r ≤ 6).
Proof.
  intros clicks s Hok%play_sceneOk. split; [apply (ok_wf s Hok)|].
  intros r c p Hp.
  destruct (ok_pieces s Hok r c p Hp) as (Hhp & Hmax & Hpawn & _).
  split; [|done]. by eapply cell_Some_inBounds, Hp; apply (ok_wf s Hok).
Qed.

(** In every scene of a game each colour has exactly one king, and that king
    still has all of its 7 hit points: a king is never damaged. *)
Theorem play_never_hurts_a_king :
  ∀ (clicks : list (option (Z * Z))) (s : Scene) (c : PieceColor),
    play resetGame clicks = Ok s →
    ∃ k king,
      cellAt (board s) k = Some king ∧ color king = c ∧ type king = King
      ∧ hp king = 7 ∧ maxHp king = 7
      ∧ ∀ k', kingOn (board s) c k' → k' = k.
Proof.
  intros clicks s c Hok%play_sceneOk.
  destruct (ok_kings s Hok c) as (k & (king & Hking & Hc & Hty) & Huniq).
  exists k, king.
  destruct (ok_pieces s Hok _ _ _ Hking) as (_ & Hmax & _ & Hhp & _).
  rewrite Hty in Hmax. split_and!; try done. by apply Hhp.
Qed.

(** In every scene of a game the side that is not to move is not in check:
    no piece of the side to move has the other king's square in its attack
    map. *)
Theorem play_leaves_mover_safe :
  ∀ (clicks : list (option (Z * Z))) (s : Scene),
    play resetGame clicks = Ok s →
    isKingInCheck (board s) (enemyOf (turn s)) = false
    ∧ ∀ k, kingOn (board s) (enemyOf (turn s)) k →
           ¬ attackedBy (board s) (turn s) k.
Proof.
  intros clicks s Hok%play_sceneOk. split; [apply (ok_safe s Hok)|].
  intros k Hk. by apply sceneOk_safe.
Qed.

(** In every scene of a game a piece whose [moved] flag is unset stands on
    the square where the initial position has it; so castling is offered to
    a king exactly under the conditions stated for it, read with the column
    the king stands on. *)
Theorem play_castles_from_home :
  ∀ (clicks : list (option (Z * Z))) (s : Scene),
    play resetGame clicks = Ok s →
    (∀ r c p, cell (board s) r c = Some p → moved p = false →
       cell createInitialBoard r c = Some (createPiece (color p) (type p)))
    ∧ ∀ lm r c king side forAttackMap,
        cell (board s) r c = Some king → type king = King →
        side ∈ castleSides →
        (castleMove r side ∈ getPseudoMoves lm (board s) r c king forAttackMap
         ↔ castleOfferStated (board s) r c king side forAttackMap).
Proof.
  intros clicks s Hok%play_sceneOk.
  assert (∀ r c p, cell (board s) r c = Some p → moved p = false →
            cell createInitialBoard r c = Some (createPiece (color p) (type p)))
    as Hhome.
  { intros r c p Hp. by destruct (ok_pieces s Hok r c p Hp) as (_ & _ & _ & _ & ?). }
  split; [done|].
  intros lm r c king side fam Hking Hty Hside.
  pose proof (cell_Some_inBounds _ _ _ _ (ok_wf s Hok) Hking) as [Hr _]%inBounds_spec.
  destruct (moved king) eqn:Hmoved.
  - split.
    + unfold getPseudoMoves, pseudoMovesBody. rewrite Hty.
      intros (_ & Hm & _)%kingMoves_castle_iff; [congruence|done].
    + intros (_ & Hm & _). congruence.
  - pose proof (Hhome r c king Hking Hmoved) as Hinit. rewrite Hty in Hinit.
    apply initial_king in Hinit as [-> _].
    by apply getPseudoMoves_castle_iff; [apply (ok_wf s Hok)|..].
Qed.

(** In every scene of a game no move is being resolved, and what is selected
    is a piece of the side to move together with exactly its legal moves;
    with nothing selected no move is shown. *)
Theorem play_keeps_selection_sound :
  ∀ (clicks : list (option (Z * Z))) (s : Scene),
    play resetGame clicks = Ok s →
    isResolvingMove s = false
    ∧ match selected s with
      | Some sel =>
          ∃ p, cellAt (board s) sel = Some p ∧ color p = turn s
               ∧ getLegalMoves (lastMove s) (board s) sel = Ok (legalMoves s)
      | None => legalMoves s = []
      end.
Proof.
  intros clicks s Hok%play_sceneOk.
  split; [apply (ok_idle s Hok) | apply (ok_selection s Hok)].
Qed.

(** In every scene of a game, the initial one included, the stored status is
    the one of the board: active exactly when the side to move has a legal
    move, otherwise checkmate or stalemate as its king is in check or not. *)
Theorem play_keeps_status_current :
  ∀ (clicks : list (option (Z * Z))) (s : Scene),
    play resetGame clicks = Ok s →
    let movable := canMove (lastMove s) (board s) (turn s) in
    (gameState s = Active ↔ movable)
    ∧ (gameState s = Checkmate
       ↔ ¬ movable ∧ isKingInCheck (board s) (turn s) = true)
    ∧ (gameState s = Stalemate
       ↔ ¬ movable ∧ isKingInCheck (board s) (turn s) = false).
Proof.
  intros clicks s Hok%play_sceneOk movable.
  destruct (ok_status s Hok) as (x & Hx & Hst).
  pose proof (hasAnyLegalMove_spec _ _ _ _ (ok_wf s Hok) Hx) as Hspec.
  fold movable in Hspec. rewrite Hst.
  destruct x; [|destruct (isKingInCheck (board s) (turn s))];
    intuition congruence.
Qed.

(** Once the game is over, or while a move is being resolved, pointer events
    change nothing at all. *)
Theorem pointer_ignored_when_over :
  ∀ (s : Scene) (clicks : list (option (Z * Z))),
    gameState s ≠ Active ∨ isResolvingMove s = true →
    play s clicks = Ok s.
Proof.
  intros s clicks Hover. induction clicks as [|pointed rest IH]; simpl; [done|].
  unfold onPointerDown.
  replace (negb (bool_decide (gameState s = Active)) || isResolvingMove s)
    with true; [done|].
  destruct Hover as [H| ->]; [|by rewrite orb_true_r].
  by rewrite bool_decide_eq_false_2.
Qed.

(** In a game a pointer event either leaves board, turn, last move and
    status as they are, or commits a move: then a piece of the side to move
    was selected, the pointed square is the destination of the first of its
    legal moves that ends there, and the turn passes to the other side. *)
Theorem play_commits_only_legal_moves :
  ∀ (clicks : list (option (Z * Z))) (s s' : Scene) (pointed : option (Z * Z)),
    play resetGame clicks = Ok s →
    onPointerDown s pointed = Ok s' →
    (board s' = board s ∧ turn s' = turn s ∧ lastMove s' = lastMove s
     ∧ gameState s' = gameState s)
    ∨ ∃ sel p ms move,
        selected s = Some sel
        ∧ cellAt (board s) sel = Some p ∧ color p = turn s
        ∧ getLegalMoves (lastMove s) (board s) sel = Ok ms
        ∧ move ∈ ms
        ∧ pointed = Some (row (sq move), col (sq move))
        ∧ commitMove s sel move = Ok s'
        ∧ turn s' = enemyOf (turn s).
Proof.
  intros clicks s s' pointed Hok%play_sceneOk. by apply onPointerDown_cases.
Qed.

(** In a game no pointer event heals a piece or changes its side: every
    piece of the new board was on the old one, with the same colour and no
    fewer hit points; its kind is the same unless it is a pawn turned queen
    on the first or last row; and it stands where it stood, with its [moved]
    flag as it was, unless it is marked as moved and has left its old square
    empty. *)
Theorem play_never_heals :
  ∀ (clicks : list (option (Z * Z))) (s s' : Scene) (pointed : option (Z * Z)),
    play resetGame clicks = Ok s →
    onPointerDown s pointed = Ok s' →
    ∀ r' c' q', cell (board s') r' c' = Some q' →
      ∃ r c q, cell (board s) r c = Some q
        ∧ color q' = color q ∧ hp q' ≤ hp q
        ∧ (type q' = type q
           ∨ (type q = Pawn ∧ type q' = Queen ∧ (r' = 0 ∨ r' = 7)))
        ∧ ((r = r' ∧ c = c' ∧ moved q' = moved q)
           ∨ (moved q' = true ∧ cell (board s') r c = None)).
Proof.
  intros clicks s s' pointed Hok%play_sceneOk Hclick.
  destruct (onPointerDown_cases s pointed s' Hok Hclick)
    as [(Hb & _)|(sel & p & ms & move & _ & Hp & Hcol & Hlegal & Hm & _ & Hc & _)].
  - rewrite Hb. intros r' c' q' Hq. exists r', c', q'.
    split_and!; try done; try lia; by left.
  - by eapply commitMove_pieces.
Qed.

(** In a game, the piece an en-passant move attacks is the pawn of the other
    side that has just made its double step, standing where that step
    ended. *)
Theorem play_en_passant_hits_the_stepper :
  ∀ (clicks : list (option (Z * Z))) (s : Scene) (r c : Z) (pawn : Piece)
    (m : Move),
    play resetGame clicks = Ok s →
    m ∈ getPseudoMoves (lastMove s) (board s) r c pawn false →
    special m = Some EnPassant →
    ∃ l, lastMove s = Some l
      ∧ wasDoublePawnStep l = true
      ∧ defenderSquareOf pawn m = lmTo l
      ∧ cellAt (board s) (lmTo l) = Some (lmPiece l)
      ∧ type (lmPiece l) = Pawn
      ∧ color (lmPiece l) = enemyOf (turn s)
      ∧ color pawn = turn s.
Proof.
  intros clicks s r c pawn m Hok%play_sceneOk Hm Hs.
  destruct (getPseudoMoves_cases _ _ _ _ _ _ Hm)
    as [[Hs' _]|[(Hs' & _)|[[Hty Hep]|(_ & _ & side & _ & -> & _)]]];
    [congruence|congruence| |done].
  apply enPassant_defenderSquare in Hep as (_ & l & Hl & Hw & Hlty & Hlc & Hds & _).
  destruct (ok_last s Hok l Hl) as [Hcol Hat].
  exists l. split_and!; try done; [by apply Hat|].
  rewrite Hcol in Hlc. destruct (color pawn), (turn s); simpl in *; congruence.
Qed.

(** In a game the two kings never stand on adjacent squares. *)
Theorem play_keeps_kings_apart :
  ∀ (clicks : list (option (Z * Z))) (s : Scene) (kw kb : Square),
    play resetGame clicks = Ok s →
    kingOn (board s) White kw → kingOn (board s) Black kb →
    1 < Z.abs (row kw - row kb) ∨ 1 < Z.abs (col kw - col kb).
Proof.
  intros clicks s kw kb Hok%play_sceneOk Hw Hb.
  assert (∀ km ke : Square,
            kingOn (board s) (turn s) km →
            kingOn (board s) (enemyOf (turn s)) ke →
            1 < Z.abs (row ke - row km) ∨ 1 < Z.abs (col ke - col km)) as Hapart.
  { intros km ke (pm & Hpm & Hcm & Htm) Hke.
    destruct (decide (1 < Z.abs (row ke - row km))) as [?|Hr]; [by left|].
    destruct (decide (1 < Z.abs (col ke - col km))) as [?|Hc]; [by right|].
    exfalso. apply (sceneOk_safe s ke Hok Hke).
    pose proof Hke as (pe & Hpe & Hce & Hte).
    exists (row km), (col km), pm, (plainMove (row ke) (col ke)).
    split; [done|]. split; [done|]. split; [|by destruct ke].
    rewrite getPseudoMoves_attackMap. unfold attackMap, pseudoMovesBody.
    rewrite Htm. unfold kingMoves. apply elem_of_app. left.
    apply (kingSteps_adjacent _ _ _ _ _ _ pe); try done; try lia.
    - by eapply cell_Some_inBounds, Hpe; apply (ok_wf s Hok).
    - rewrite Hce, Hcm. by destruct (turn s).
    - intros [= Hr' Hc']. unfold cellAt in *. rewrite Hr', Hc', Hpm in Hpe.
      injection Hpe as <-. rewrite Hcm in Hce. by destruct (turn s). }
  destruct (turn s) eqn:Hturn; simpl in Hapart.
  - destruct (Hapart kw kb Hw Hb); [left|right]; lia.
  - destruct (Hapart kb kw Hb Hw); [left|right]; lia.
Qed.

(** In a game in progress, a click on the destination of any legal move of
    the selected piece commits exactly that move: no two of its legal moves
    end on the same square, so none is out of reach of the pointer. *)
Theorem click_commits_that_move :
  ∀ (clicks : list (option (Z * Z))) (s : Scene) (sel : Square) (m : Move),
    play resetGame clicks = Ok s →
    gameState s = Active → selected s = Some sel → m ∈ legalMoves s →
    onPointerDown s (Some (row (sq m), col (sq m))) = commitMove s sel m
    ∧ ∀ m', m' ∈ legalMoves s → sq m' = sq m → m' = m.
Proof.
  intros clicks s sel m Hok%play_sceneOk Hactive Hsel Hm.
  pose proof (ok_wf s Hok) as Hwf.
  pose proof (ok_selection s Hok) as Hsok. unfold selectionOk in Hsok.
  rewrite Hsel in Hsok. destruct Hsok as (p & Hp & Hcol & Hlegal).
  pose proof (cell_Some_inBounds _ _ _ _ Hwf Hp) as Hin.
  pose proof Hin as [Hr Hc]%inBounds_spec.
  unfold getLegalMoves in Hlegal. rewrite readCell_wf in Hlegal by done.
  unfold cellAt in Hp. rewrite Hp in Hlegal. simpl in Hlegal.
  assert (∀ m', m' ∈ legalMoves s →
            m' ∈ getPseudoMoves (lastMove s) (board s) (row sel) (col sel) p false)
    as Hpseudo.
  { intros m' Hm'. by destruct (proj1 (filterLegal_elem _ _ _ _ _ m' Hlegal) Hm'). }
  assert (∀ m', m' ∈ legalMoves s → sq m' = sq m → m' = m) as Huniq.
  { intros m' Hm' Hsq.
    apply (getPseudoMoves_destinations (lastMove s) (board s) (row sel) (col sel) p);
      auto. }
  split; [|done].
  pose proof (moveOnGrid_target _ _
                (getPseudoMoves_onGrid _ _ _ _ _ _ _ Hin (Hpseudo m Hm))) as Htarget.
  unfold onPointerDown.
  rewrite Hactive, (ok_idle s Hok), bool_decide_eq_true_2, Htarget by done. simpl.
  unfold handleSquareClick.
  rewrite readCell_wf by (done || by apply inBounds_spec in Htarget as [??]).
  simpl. rewrite Hsel.
  destruct (find _ (legalMoves s)) as [m'|] eqn:Hfind.
  - apply find_elem_of in Hfind as [Hm' Hsq].
    apply andb_true_iff in Hsq as [Hr'%bool_decide_eq_true Hc'%bool_decide_eq_true].
    rewrite (Huniq m' Hm'); [done|]. by apply square_eq.
  - pose proof (find_none _ _ Hfind m ltac:(by apply list_elem_of_In)) as Hnone.
    simpl in Hnone. by rewrite !bool_decide_eq_true_2 in Hnone.
Qed.

(** Castling rights never return: once the king of a colour is marked as
    moved in a scene of a game, the king of that colour is marked as moved in
    every later scene, and no castle is generated for it. *)
Theorem castling_rights_never_return :
  ∀ (clicks more : list (option (Z * Z))) (s s2 : Scene) (k : Square)
    (king : Piece),
    play resetGame clicks = Ok s →
    cellAt (board s) k = Some king → type king = King → moved king = true →
    play s more = Ok s2 →
    ∀ k2 king2,
      cellAt (board s2) k2 = Some king2 → type king2 = King →
      color king2 = color king →
      moved king2 = true
      ∧ ∀ lm side forAttackMap,
          castleMove (row k2) side
          ∉ getPseudoMoves lm (board s2) (row k2) (col k2) king2 forAttackMap.
Proof.
  intros clicks more s s2 k king Hok%play_sceneOk Hking Hty Hmoved Hplay.
  assert (∀ k2 king2, cellAt (board s2) k2 = Some king2 → type king2 = King →
                      color king2 = color king → moved king2 = true) as Hlater.
  { assert (∀ k1 king1, cellAt (board s) k1 = Some king1 → type king1 = King →
                        color king1 = color king → moved king1 = true) as Hnow.
    { intros k1 king1 Hk1 Hty1 Hc1.
      destruct (ok_kings s Hok (color king)) as (k0 & _ & Huniq).
      assert (k1 = k) as ->.
      { rewrite (Huniq k1), (Huniq k); [done|by exists king|by exists king1]. }
      rewrite Hking in Hk1. by injection Hk1 as <-. }
    clear Hking Hmoved. revert s Hok Hplay Hnow.
    induction more as [|pointed rest IH]; intros s Hok Hplay Hnow.
    - by injection Hplay as <-.
    - simpl in Hplay. apply bind_Ok in Hplay as (s1 & Hs1 & Hplay).
      destruct (onPointerDown_ok s pointed Hok) as (s1' & Hs1' & Hok1).
      rewrite Hs1 in Hs1'. injection Hs1' as <-.
      apply (IH s1 Hok1 Hplay).
      by apply (onPointerDown_king_moved s pointed s1). }
  intros k2 king2 Hk2 Hty2 Hc2.
  pose proof (Hlater k2 king2 Hk2 Hty2 Hc2) as Hm2. split; [done|].
  intros lm side fam. unfold getPseudoMoves, pseudoMovesBody. rewrite Hty2.
  unfold kingMoves. rewrite elem_of_app. intros [Hstep|Hcastle].
  - apply kingSteps_plain in Hstep as (r' & c' & Heq & _). discriminate Heq.
  - rewrite Hm2 in Hcastle. simpl in Hcastle. rewrite andb_false_r in Hcastle.
    by apply elem_of_nil in Hcastle.
Qed.

(** *** The theorems at concrete games *)

Lemma selectScene_run : play resetGame selectClicks = Ok selectScene.
Proof. by vm_compute. Qed.

Lemma pawnScene_run : play resetGame pawnClicks = Ok pawnScene.
Proof. by vm_compute. Qed.

Lemma pawnScene_click : onPointerDown selectScene (Some (4, 4)) = Ok pawnScene.
Proof. by vm_compute. Qed.

Lemma enPassantGame_run : play resetGame enPassantClicks = Ok enPassantGame.
Proof. by vm_compute. Qed.

Lemma foolsMate_run : play resetGame foolsMateClicks = Ok foolsMate.
Proof. by vm_compute. Qed.

Example foolsMate_checkmate :
  gameState foolsMate = Checkmate ∧ turn foolsMate = White.
Proof. by vm_compute. Qed.

Lemma play_keeps_pieces_sound_witness :
  wfBoard (board enPassantGame)
  ∧ ∀ r c p, cell (board enPassantGame) r c = Some p →
      inBounds r c = true
      ∧ 0 < hp p ≤ maxHp p
      ∧ maxHp p = PIECE_HP (type p)
      ∧ (type p = Pawn → 1 ≤ r ≤ 6).
Proof.
  exact (play_keeps_pieces_sound enPassantClicks enPassantGame enPassantGame_run).
Defined.

Lemma play_never_hurts_a_king_witness :
  ∃ k king,
    cellAt (board foolsMate) k = Some king ∧ color king = White
    ∧ type king = King ∧ hp king = 7 ∧ maxHp king = 7
    ∧ ∀ k', kingOn (board foolsMate) White k' → k' = k.
Proof.
  exact (play_never_hurts_a_king foolsMateClicks foolsMate White foolsMate_run).
Defined.

Lemma play_leaves_mover_safe_witness :
  isKingInCheck (board foolsMate) (enemyOf (turn foolsMate)) = false
  ∧ ∀ k, kingOn (board foolsMate) (enemyOf (turn foolsMate)) k →
         ¬ attackedBy (board foolsMate) (turn foolsMate) k.
Proof.
  exact (play_leaves_mover_safe foolsMateClicks foolsMate foolsMate_run).
Defined.

Lemma play_castles_from_home_witness :
  (∀ r c p, cell (board pawnScene) r c = Some p → moved p = false →
     cell createInitialBoard r c = Some (createPiece (color p) (type p)))
  ∧ ∀ lm r c king side forAttackMap,
      cell (board pawnScene) r c = Some king → type king = King →
      side ∈ castleSides →
      (castleMove r side ∈ getPseudoMoves lm (board pawnScene) r c king forAttackMap
       ↔ castleOfferStated (board pawnScene) r c king side forAttackMap).
Proof.
  exact (play_castles_from_home pawnClicks pawnScene pawnScene_run).
Defined.

Lemma play_keeps_selection_sound_witness :
  isResolvingMove selectScene = false
  ∧ match selected selectScene with
    | Some sel =>
        ∃ p, cellAt (board selectScene) sel = Some p ∧ color p = turn selectScene
             ∧ getLegalMoves (lastMove selectScene) (board selectScene) sel
               = Ok (legalMoves selectScene)
    | None => legalMoves selectScene = []
    end.
Proof.
  exact (play_keeps_selection_sound selectClicks selectScene selectScene_run).
Defined.

Lemma play_keeps_status_current_witness :
  let movable := canMove (lastMove foolsMate) (board foolsMate) (turn foolsMate) in
  (gameState foolsMate = Active ↔ movable)
  ∧ (gameState foolsMate = Checkmate
     ↔ ¬ movable ∧ isKingInCheck (board foolsMate) (turn foolsMate) = true)
  ∧ (gameState foolsMate = Stalemate
     ↔ ¬ movable ∧ isKingInCheck (board foolsMate) (turn foolsMate) = false).
Proof.
  exact (play_keeps_status_current foolsMateClicks foolsMate foolsMate_run).
Defined.

Lemma pointer_ignored_when_over_witness :
  play foolsMate [Some (7, 4); Some (6, 4); None] = Ok foolsMate.
Proof.
  apply pointer_ignored_when_over. left. by vm_compute.
Defined.

Lemma play_commits_only_legal_moves_witness :
  (board pawnScene = board selectScene ∧ turn pawnScene = turn selectScene
   ∧ lastMove pawnScene = lastMove selectScene
   ∧ gameState pawnScene = gameState selectScene)
  ∨ ∃ sel p ms move,
      selected selectScene = Some sel
      ∧ cellAt (board selectScene) sel = Some p ∧ color p = turn selectScene
      ∧ getLegalMoves (lastMove selectScene) (board selectScene) sel = Ok ms
      ∧ move ∈ ms
      ∧ Some (4, 4) = Some (row (sq move), col (sq move))
      ∧ commitMove selectScene sel move = Ok pawnScene
      ∧ turn pawnScene = enemyOf (turn selectScene).
Proof.
  exact (play_commits_only_legal_moves selectClicks selectScene pawnScene
           (Some (4, 4)) selectScene_run pawnScene_click).
Defined.

Lemma enPassantGame_offer :
  enPassantMove 2 3
  ∈ getPseudoMoves (lastMove enPassantGame) (board enPassantGame) 3 4
      (markMoved (createPiece White Pawn)) false.
Proof. apply (bool_decide_unpack _). by vm_compute. Qed.

Lemma play_en_passant_hits_the_stepper_witness :
  ∃ l, lastMove enPassantGame = Some l
    ∧ wasDoublePawnStep l = true
    ∧ defenderSquareOf (markMoved (createPiece White Pawn)) (enPassantMove 2 3)
      = lmTo l
    ∧ cellAt (board enPassantGame) (lmTo l) = Some (lmPiece l)
    ∧ type (lmPiece l) = Pawn
    ∧ color (lmPiece l) = enemyOf (turn enPassantGame)
    ∧ color (markMoved (createPiece White Pawn)) = turn enPassantGame.
Proof.
  exact (play_en_passant_hits_the_stepper enPassantClicks enPassantGame 3 4
           (markMoved (createPiece White Pawn)) (enPassantMove 2 3)
           enPassantGame_run enPassantGame_offer eq_refl).
Defined.

Lemma play_never_heals_witness :
  onPointerDown selectScene (Some (4, 4)) = Ok pawnScene
  ∧ ∀ r' c' q', cell (board pawnScene) r' c' = Some q' →
      ∃ r c q, cell (board selectScene) r c = Some q
        ∧ color q' = color q ∧ hp q' ≤ hp q
        ∧ (type q' = type q
           ∨ (type q = Pawn ∧ type q' = Queen ∧ (r' = 0 ∨ r' = 7)))
        ∧ ((r = r' ∧ c = c' ∧ moved q' = moved q)
           ∨ (moved q' = true ∧ cell (board pawnScene) r c = None)).
Proof.
  split; [exact pawnScene_click|].
  exact (play_never_heals selectClicks selectScene pawnScene (Some (4, 4))
           selectScene_run pawnScene_click).
Defined.

Lemma play_keeps_kings_apart_witness :
  1 < Z.abs (row (mkSquare 7 4) - row (mkSquare 0 4))
  ∨ 1 < Z.abs (col (mkSquare 7 4) - col (mkSquare 0 4)).
Proof.
  apply (play_keeps_kings_apart foolsMateClicks foolsMate _ _ foolsMate_run).
  - exists (createPiece White King). by vm_compute.
  - exists (createPiece Black King). by vm_compute.
Defined.

Lemma selectScene_offer : plainMove 4 4 ∈ legalMoves selectScene.
Proof. apply (bool_decide_unpack _). by vm_compute. Qed.

Lemma click_commits_that_move_witness :
  onPointerDown selectScene (Some (row (sq (plainMove 4 4)), col (sq (plainMove 4 4))))
  = commitMove selectScene (mkSquare 6 4) (plainMove 4 4)
  ∧ ∀ m', m' ∈ legalMoves selectScene → sq m' = sq (plainMove 4 4) →
          m' = plainMove 4 4.
Proof.
  apply (click_commits_that_move selectClicks selectScene (mkSquare 6 4)
           (plainMove 4 4) selectScene_run).
  - by vm_compute.
  - by vm_compute.
  - exact selectScene_offer.
Defined.

Lemma kingWalk_run : play resetGame kingWalkClicks = Ok kingWalk.
Proof. by vm_compute. Qed.

Lemma kingBack_run : play kingWalk kingBackClicks = Ok kingBack.
Proof. by vm_compute. Qed.

Lemma castling_rights_never_return_witness :
  moved (markMoved (createPiece White King)) = true
  ∧ ∀ lm side forAttackMap,
      castleMove (row (mkSquare 7 4)) side
      ∉ getPseudoMoves lm (board kingBack) (row (mkSquare 7 4)) (col (mkSquare 7 4))
          (markMoved (createPiece White King)) forAttackMap.
Proof.
  apply (castling_rights_never_return kingWalkClicks kingBackClicks kingWalk kingBack
           (mkSquare 6 4) (markMoved (createPiece White King)) kingWalk_run).
  - by vm_compute.
  - reflexivity.
  - reflexivity.
  - exact kingBack_run.
  - by vm_compute.
  - reflexivity.
  - reflexivity.
Defined.

(** ** Properties of move generation *)

(** Outside attack-map mode every generated move ends on the board, on an
    empty square or on a piece of the other colour: no piece is offered a
    move onto a piece of its own side. *)
Theorem moves_never_land_on_own_piece :
  ∀ (lm : option LastMove) (b : Board) (r c : Z) (p : Piece) (m : Move),
    inBounds r c = true →
    m ∈ getPseudoMoves lm b r c p false →
    inBounds (row (sq m)) (col (sq m)) = true
    ∧ ∀ t, cellAt b (sq m) = Some t → color t ≠ color p.
Proof.
  intros lm b r c p m Hin Hm. split.
  - eapply moveOnGrid_target, getPseudoMoves_onGrid; eauto.
  - intros t Ht.
    destruct (getPseudoMoves_cases _ _ _ _ _ _ Hm)
      as [[_ He]|[(_ & _ & t' & Ht' & Hc)|[[_ Hep]|(_ & _ & side & Hs & -> & Hoffer)]]].
    + congruence.
    + congruence.
    + apply enPassant_defenderSquare in Hep as (_ & _ & _ & _ & _ & _ & _ & He).
      congruence.
    + destruct (castleFor_empty _ _ _ _ _ Hs Hoffer) as (_ & Hkt & _).
      unfold cellAt in Ht. simpl in Ht. congruence.
Qed.

Lemma moves_never_land_on_own_piece_witness :
  inBounds (row (sq (plainMove 3 3))) (col (sq (plainMove 3 3))) = true
  ∧ ∀ t, cellAt skirmishBoard (sq (plainMove 3 3)) = Some t →
         color t ≠ color (createPiece White Knight).
Proof.
  apply (moves_never_land_on_own_piece None skirmishBoard 5 2); [reflexivity|].
  apply (bool_decide_unpack _). by vm_compute.
Defined.

(** A move onto an occupied square is only offered to a piece that attacks
    that square: the attack test for the mover's colour holds there. *)
Theorem captures_are_attacks :
  ∀ (lm : option LastMove) (b : Board) (r c : Z) (p t : Piece) (m : Move),
    wfBoard b → cell b r c = Some p →
    m ∈ getPseudoMoves lm b r c p false →
    cellAt b (sq m) = Some t →
    m ∈ getPseudoMoves lm b r c p true
    ∧ isSquareAttacked b (row (sq m)) (col (sq m)) (color p) = true.
Proof.
  intros lm b r c p t m Hwf Hp Hm Ht.
  assert (m ∈ attackMap b r c p) as Ha.
  { destruct (getPseudoMoves_cases _ _ _ _ _ _ Hm)
      as [[_ He]|[(_ & Ha & _)|[[_ Hep]|(_ & _ & side & Hs & -> & Hoffer)]]].
    - congruence.
    - done.
    - apply enPassant_defenderSquare in Hep as (_ & _ & _ & _ & _ & _ & _ & He).
      congruence.
    - destruct (castleFor_empty _ _ _ _ _ Hs Hoffer) as (_ & Hkt & _).
      unfold cellAt in Ht. simpl in Ht. congruence. }
  rewrite getPseudoMoves_attackMap. split; [done|].
  apply isSquareAttacked_true; [done|].
  exists r, c, p, m. rewrite getPseudoMoves_attackMap.
  split_and!; try done. by destruct (sq m).
Qed.

Lemma captures_are_attacks_witness :
  plainMove 3 3 ∈ getPseudoMoves None skirmishBoard 5 2 (createPiece White Knight) true
  ∧ isSquareAttacked skirmishBoard (row (sq (plainMove 3 3)))
      (col (sq (plainMove 3 3))) (color (createPiece White Knight)) = true.
Proof.
  apply (captures_are_attacks None skirmishBoard 5 2 (createPiece White Knight)
           (createPiece Black Pawn)).
  - apply wfBoardb_true. reflexivity.
  - reflexivity.
  - apply (bool_decide_unpack _). by vm_compute.
  - reflexivity.
Defined.

(** *** Sliding pieces *)

(** The walk from a first square [(r, c)]: the squares it yields are those
    reached through empty squares of the board, the last of them empty or
    held by the other side. *)
Lemma rayWalk_elem fuel b own r c dr dc m :
  m ∈ rayWalk fuel b own r c dr dc ↔
  ∃ k, 0 ≤ k < Z.of_nat fuel
    ∧ m = plainMove (r + k * dr) (c + k * dc)
    ∧ (∀ j, 0 ≤ j ≤ k → inBounds (r + j * dr) (c + j * dc) = true)
    ∧ (∀ j, 0 ≤ j < k → cell b (r + j * dr) (c + j * dc) = None)
    ∧ (∀ t, cell b (r + k * dr) (c + k * dc) = Some t → color t ≠ own).
Proof.
  revert r c. induction fuel as [|fuel IH]; intros r c.
  - simpl. split; [by intros ?%elem_of_nil|]. intros (k & ? & _). lia.
  - assert (∀ j, r + dr + j * dr = r + (j + 1) * dr) as Er by (intros; lia).
    assert (∀ j, c + dc + j * dc = c + (j + 1) * dc) as Ec by (intros; lia).
    cbn [rayWalk]. split.
    + destruct (inBounds r c) eqn:Hin; [|by intros ?%elem_of_nil].
      assert (∃ k, 0 ≤ k < Z.of_nat (S fuel)
                ∧ plainMove r c = plainMove (r + k * dr) (c + k * dc)
                ∧ (∀ j, 0 ≤ j ≤ k → inBounds (r + j * dr) (c + j * dc) = true)
                ∧ (∀ j, 0 ≤ j < k → cell b (r + j * dr) (c + j * dc) = None))
        as (k0 & Hk0 & Hm0 & Hin0 & He0).
      { exists 0. split; [lia|]. rewrite !Z.mul_0_l, !Z.add_0_r.
        split; [done|]. split; [|intros; lia].
        intros j Hj. replace j with 0 by lia. by rewrite !Z.mul_0_l, !Z.add_0_r. }
      destruct (cell b r c) as [t|] eqn:Ht.
      * destruct (decide (color t ≠ own)) as [Hc|Hc]; [|by intros ?%elem_of_nil].
        intros ->%list_elem_of_singleton. exists 0. split; [lia|].
        rewrite !Z.mul_0_l, !Z.add_0_r. split; [done|].
        split; [|split; [intros; lia|]].
        -- intros j Hj. replace j with 0 by lia. by rewrite !Z.mul_0_l, !Z.add_0_r.
        -- intros t'. rewrite Ht. by intros [= <-].
      * intros [->|Hm]%elem_of_cons.
        -- exists 0. split; [lia|]. rewrite !Z.mul_0_l, !Z.add_0_r.
           split; [done|]. split; [|split; [intros; lia|]].
           ++ intros j Hj. replace j with 0 by lia.
              by rewrite !Z.mul_0_l, !Z.add_0_r.
           ++ intros t'. by rewrite Ht.
        -- apply IH in Hm as (k & Hk & -> & Hinb & Hemp & Htgt).
           exists (k + 1). split; [lia|]. rewrite Er, Ec in *.
           split; [done|]. split; [|split; [|done]].
           ++ intros j Hj. destruct (decide (j = 0)) as [->|Hj0].
              { by rewrite !Z.mul_0_l, !Z.add_0_r. }
              specialize (Hinb (j - 1)). rewrite Er, Ec in Hinb.
              replace (j - 1 + 1) with j in Hinb by lia. apply Hinb. lia.
           ++ intros j Hj. destruct (decide (j = 0)) as [->|Hj0].
              { by rewrite !Z.mul_0_l, !Z.add_0_r. }
              specialize (Hemp (j - 1)). rewrite Er, Ec in Hemp.
              replace (j - 1 + 1) with j in Hemp by lia. apply Hemp. lia.
    + intros (k & Hk & -> & Hinb & Hemp & Htgt).
      pose proof (Hinb 0) as Hin. rewrite !Z.mul_0_l, !Z.add_0_r in Hin.
      rewrite Hin by lia.
      destruct (decide (k = 0)) as [->|Hk0].
      * rewrite !Z.mul_0_l, !Z.add_0_r in *.
        destruct (cell b r c) as [t|] eqn:Ht.
        -- rewrite decide_True by by apply Htgt. by apply list_elem_of_singleton.
        -- by left.
      * pose proof (Hemp 0) as He. rewrite !Z.mul_0_l, !Z.add_0_r in He.
        rewrite He by lia. right. apply IH. exists (k - 1).
        split; [lia|]. rewrite !Er, !Ec. replace (k - 1 + 1) with k by lia.
        split; [done|]. split; [|split; [|done]].
        -- intros j Hj. rewrite Er, Ec. apply Hinb. lia.
        -- intros j Hj. rewrite Er, Ec. apply Hemp. lia.
Qed.

(** The moves of a rook, bishop or queen: along each of its directions,
    every square reached through empty squares of the board, up to and
    including the first occupied one when it holds a piece of the other
    side.  Nothing beyond a piece, own or not, is reached. *)
Theorem sliders_stop_at_the_first_piece :
  ∀ (lm : option LastMove) (b : Board) (r c : Z) (p : Piece)
    (forAttackMap : bool) (m : Move),
    type p = Rook ∨ type p = Bishop ∨ type p = Queen →
    (m ∈ getPseudoMoves lm b r c p forAttackMap
     ↔ ∃ d k, d ∈ slideDirections (type p) ∧ 1 ≤ k
         ∧ m = plainMove (r + k * d.1) (c + k * d.2)
         ∧ (∀ j, 1 ≤ j ≤ k → inBounds (r + j * d.1) (c + j * d.2) = true)
         ∧ (∀ j, 1 ≤ j < k → cell b (r + j * d.1) (c + j * d.2) = None)
         ∧ (∀ t, cell b (r + k * d.1) (c + k * d.2) = Some t →
                 color t ≠ color p)).
Proof.
  intros lm b r c p fam m Hty.
  assert (getPseudoMoves lm b r c p fam = sliderMoves b r c p) as ->.
  { unfold getPseudoMoves, pseudoMovesBody.
    destruct Hty as [->|[->| ->]]; done. }
  unfold sliderMoves. rewrite list_elem_of_bind.
  assert (∀ (d : Z * Z) j, r + d.1 + j * d.1 = r + (j + 1) * d.1) as Er
    by (intros; lia).
  assert (∀ (d : Z * Z) j, c + d.2 + j * d.2 = c + (j + 1) * d.2) as Ec
    by (intros; lia).
  split.
  - intros (d & Hm & Hd). apply rayWalk_elem in Hm
      as (k & Hk & -> & Hinb & Hemp & Htgt).
    exists d, (k + 1). rewrite Er, Ec in *.
    split; [done|]. split; [lia|]. split; [done|]. split; [|split; [|done]].
    + intros j Hj. specialize (Hinb (j - 1)). rewrite Er, Ec in Hinb.
      replace (j - 1 + 1) with j in Hinb by lia. apply Hinb. lia.
    + intros j Hj. specialize (Hemp (j - 1)). rewrite Er, Ec in Hemp.
      replace (j - 1 + 1) with j in Hemp by lia. apply Hemp. lia.
  - intros (d & k & Hd & Hk & -> & Hinb & Hemp & Htgt).
    exists d. split; [|done]. apply rayWalk_elem. exists (k - 1).
    rewrite !Er, !Ec. replace (k - 1 + 1) with k by lia.
    split; [|split; [done|split; [|split; [|done]]]].
    + split; [lia|].
      pose proof (Hinb 1 ltac:(lia)) as [H1r H1c]%inBounds_spec.
      pose proof (Hinb k ltac:(lia)) as [Hkr Hkc]%inBounds_spec.
      destruct (slideDirections_step _ _ Hd) as [H|[H|[H|H]]];
        rewrite H in *; simpl; lia.
    + intros j Hj. rewrite Er, Ec. apply Hinb. lia.
    + intros j Hj. rewrite Er, Ec. apply Hemp. lia.
Qed.

Lemma sliders_stop_at_the_first_piece_witness :
  plainMove 3 4 ∈ getPseudoMoves None pinBoard 6 4 (createPiece White Rook) false
  ↔ ∃ d k, d ∈ slideDirections (type (createPiece White Rook)) ∧ 1 ≤ k
      ∧ plainMove 3 4 = plainMove (6 + k * d.1) (4 + k * d.2)
      ∧ (∀ j, 1 ≤ j ≤ k → inBounds (6 + j * d.1) (4 + j * d.2) = true)
      ∧ (∀ j, 1 ≤ j < k → cell pinBoard (6 + j * d.1) (4 + j * d.2) = None)
      ∧ (∀ t, cell pinBoard (6 + k * d.1) (4 + k * d.2) = Some t →
              color t ≠ color (createPiece White Rook)).
Proof.
  apply (sliders_stop_at_the_first_piece None pinBoard 6 4
           (createPiece White Rook) false (plainMove 3 4)).
  left. reflexivity.
Defined.

(** ** The legality filter *)

Lemma filterLegal_sublist b from own pseudo ms :
  filterLegal b from own pseudo = Ok ms → sublist ms pseudo.
Proof.
  revert ms. induction pseudo as [|m rest IH]; intros ms; simpl.
  - intros [= <-]. constructor.
  - intros (next & _ & (kept & Hkept & [= <-])%bind_Ok)%bind_Ok.
    destruct (negb _); [apply sublist_skip|apply sublist_cons]; by apply IH.
Qed.

(** The legal moves of a piece are exactly its pseudo-moves whose simulated
    outcome leaves its own side out of check, none dropped and none added,
    in the order of generation; an empty square has no legal move. *)
Theorem legal_moves_are_the_safe_moves :
  ∀ (lm : option LastMove) (b : Board) (from : Square),
    wfBoard b → inBounds (row from) (col from) = true →
    ∃ ms, getLegalMoves lm b from = Ok ms
      ∧ match cellAt b from with
        | None => ms = []
        | Some p =>
            let pseudo := getPseudoMoves lm b (row from) (col from) p false in
            sublist ms pseudo
            ∧ ∀ m, m ∈ ms ↔
                   m ∈ pseudo
                   ∧ ∃ b', simulateResolvedBoard b from m = Ok b'
                           ∧ isKingInCheck b' (color p) = false
        end.
Proof.
  intros lm b from Hwf [Hr Hc]%inBounds_spec.
  destruct (getLegalMoves_total lm b from Hwf Hr) as [ms Hms].
  exists ms. split; [done|].
  unfold getLegalMoves in Hms. rewrite readCell_wf in Hms by done.
  simpl in Hms. unfold cellAt.
  destruct (cell b (row from) (col from)) as [p|]; [|by injection Hms as <-].
  split; [by eapply filterLegal_sublist|].
  intros m. by apply filterLegal_elem.
Qed.

Lemma legal_moves_are_the_safe_moves_witness :
  ∃ ms, getLegalMoves None pinBoard (mkSquare 6 4) = Ok ms
    ∧ match cellAt pinBoard (mkSquare 6 4) with
      | None => ms = []
      | Some p =>
          let pseudo := getPseudoMoves None pinBoard 6 4 p false in
          sublist ms pseudo
          ∧ ∀ m, m ∈ ms ↔
                 m ∈ pseudo
                 ∧ ∃ b', simulateResolvedBoard pinBoard (mkSquare 6 4) m = Ok b'
                         ∧ isKingInCheck b' (color p) = false
      end.
Proof.
  apply (legal_moves_are_the_safe_moves None pinBoard (mkSquare 6 4)).
  - apply wfBoardb_true. reflexivity.
  - reflexivity.
Defined.

(** * The piece textures *)

Lemma shape16_row {A} (g : list (list A)) r :
  shape16 g → (r < 16)%nat → ∃ row, g !! r = Some row ∧ length row = 16%nat.
Proof.
  intros [Hl Hr] Hlt.
  destruct (lookup_lt_is_Some_2 g r) as [row Hrow]; [lia|].
  exists row. split; [done|].
  rewrite Forall_forall in Hr. apply Hr. by eapply list_elem_of_lookup_2.
Qed.

Lemma setCell_shape {A} (g : list (list A)) r c v :
  shape16 g → shape16 (setCell g r c v).
Proof.
  intros [Hl Hr]. unfold setCell. split.
  - by rewrite length_alter.
  - apply Forall_alter; [done|]. intros row Hrow _.
    rewrite length_insert. rewrite Forall_forall in Hr. apply Hr.
    by eapply list_elem_of_lookup_2.
Qed.

Lemma setCell_at {A} (g : list (list A)) r0 c0 v r c :
  shape16 g → (r0 < 16)%nat → (c0 < 16)%nat →
  setCell g r0 c0 v !! r ≫= (.!! c)
  = if decide (r = r0 ∧ c = c0) then Some v else g !! r ≫= (.!! c).
Proof.
  intros Hs Hr0 Hc0. unfold setCell.
  destruct (shape16_row g r0 Hs Hr0) as (row & Hrow & Hlen).
  destruct (decide (r = r0)) as [->|Hr].
  - rewrite list_lookup_alter_eq, Hrow. cbn.
    destruct (decide (c = c0)) as [->|Hc].
    + rewrite decide_True by done. apply list_lookup_insert_eq. lia.
    + rewrite decide_False by tauto. by apply list_lookup_insert_ne.
  - rewrite list_lookup_alter_ne by done. by rewrite decide_False by tauto.
Qed.

Lemma paintCols_at {A} (cond : nat → nat → bool) (v : A) row cols g :
  shape16 g → (row < 16)%nat → Forall (λ c, (c < 16)%nat) cols →
  let g' := foldl (λ g col, if cond row col then setCell g row col v else g)
                  g cols in
  shape16 g'
  ∧ ∀ r c, g' !! r ≫= (.!! c)
           = if decide (r = row ∧ c ∈ cols ∧ cond row c = true) then Some v
             else g !! r ≫= (.!! c).
Proof.
  intros Hs Hrow Hcols. revert g Hs.
  induction Hcols as [|col cols Hcol Hcols IH]; intros g Hs; cbn [foldl].
  - split; [done|]. intros r c. rewrite decide_False; [done|].
    intros (_ & []%elem_of_nil & _).
  - set (g1 := if cond row col then setCell g row col v else g).
    assert (shape16 g1) as Hs1.
    { unfold g1. destruct (cond row col); [by apply setCell_shape|done]. }
    destruct (IH g1 Hs1) as [Hs' Hat]. split; [done|].
    intros r c. rewrite Hat.
    destruct (decide (r = row ∧ c ∈ cols ∧ cond row c = true)) as [(-> & Hc & Hcond)|Hn].
    + rewrite decide_True; [done|]. split_and!; [done|by right|done].
    + unfold g1. destruct (cond row col) eqn:Hcond.
      * rewrite setCell_at by done.
        destruct (decide (r = row ∧ c = col)) as [[-> ->]|Hne].
        -- rewrite decide_True; [done|]. split_and!; [done|by left|done].
        -- rewrite decide_False; [done|].
           intros (-> & [->|Hc]%elem_of_cons & Hc'); tauto.
      * rewrite decide_False; [done|].
        intros (-> & [->|Hc]%elem_of_cons & Hc'); [congruence|tauto].
Qed.

Lemma seq16_lt : Forall (λ c, (c < 16)%nat) (seq 0 16).
Proof. apply Forall_forall. intros c Hc%elem_of_seq. lia. Qed.

Lemma paintRows_at {A} (cond : nat → nat → bool) (v : A) rows cols g :
  shape16 g → Forall (λ r, (r < 16)%nat) rows → Forall (λ c, (c < 16)%nat) cols →
  let g' := foldl (λ g row,
                     foldl (λ g col, if cond row col then setCell g row col v else g)
                           g cols)
                  g rows in
  shape16 g'
  ∧ ∀ r c, g' !! r ≫= (.!! c)
           = if decide (r ∈ rows ∧ c ∈ cols ∧ cond r c = true) then Some v
             else g !! r ≫= (.!! c).
Proof.
  intros Hs Hrows Hcols. revert g Hs.
  induction Hrows as [|row rows Hrow Hrows IH]; intros g Hs; cbn [foldl].
  - split; [done|]. intros r c. rewrite decide_False; [done|].
    intros ([]%elem_of_nil & _).
  - destruct (paintCols_at cond v row cols g Hs Hrow Hcols) as [Hs1 Hat1].
    cbn zeta in Hs1, Hat1.
    match goal with |- context [foldl _ ?g1 rows] => set (g2 := g1) in * end.
    destruct (IH g2 Hs1) as [Hs' Hat]. split; [done|].
    intros r c. rewrite Hat, Hat1.
    destruct (decide (r ∈ rows ∧ c ∈ cols ∧ cond r c = true)) as [(Hr & Hc & Hcond)|Hn].
    + rewrite decide_True; [done|]. split_and!; [by right|done|done].
    + destruct (decide (r = row ∧ c ∈ cols ∧ cond row c = true))
        as [(-> & Hc & Hcond)|Hn'].
      * rewrite decide_True; [done|]. split_and!; [by left|done|done].
      * rewrite decide_False; [done|].
        intros ([->|Hr]%elem_of_cons & Hc & Hcond); tauto.
Qed.

(** After the double loop a cell holds [v] where the condition holds and is
    as before elsewhere. *)
Lemma paintWhere_at {A} (cond : nat → nat → bool) (v : A) g :
  shape16 g →
  shape16 (paintWhere cond v g)
  ∧ ∀ r c, (r < 16)%nat → (c < 16)%nat →
           paintWhere cond v g !! r ≫= (.!! c)
           = if cond r c then Some v else g !! r ≫= (.!! c).
Proof.
  intros Hs. destruct (paintRows_at cond v (seq 0 16) (seq 0 16) g Hs seq16_lt seq16_lt)
    as [Hs' Hat].
  split; [done|]. intros r c Hr Hc. unfold paintWhere. rewrite Hat.
  destruct (cond r c).
  - rewrite decide_True; [done|]. split_and!; [| |done]; apply elem_of_seq; lia.
  - rewrite decide_False; [done|]. intros (_ & _ & ?). done.
Qed.

Lemma toUpperCase_X ch :
  Ascii.eqb (toUpperCase ch) "X"%char = true ↔ (ch = "X" ∨ ch = "x")%char.
Proof.
  split.
  - intros H. destruct ch as [[] [] [] [] [] [] [] []];
      vm_compute in H; try discriminate H; auto.
  - by intros [->| ->].
Qed.

Lemma normalizeRow_length mask row : length (normalizeRow mask row) = 16%nat.
Proof.
  unfold normalizeRow, padEnd.
  rewrite length_take, length_app, length_replicate. lia.
Qed.

Lemma normalizeRow_lookup mask row c :
  (c < 16)%nat →
  normalizeRow mask row !! c
  = Some (if markedb mask row c then "X" else ".")%char.
Proof.
  intros Hc. unfold normalizeRow, padEnd, markedb.
  rewrite lookup_take_lt by done.
  set (row0 := default [] (mask !! row)).
  assert (mask !! row ≫= (.!! c) = row0 !! c) as ->.
  { unfold row0. by destruct (mask !! row). }
  set (f := (λ ch : ascii, if Ascii.eqb ch "X" then "X" else ".")%char).
  destruct (row0 !! c) as [ch|] eqn:Hch.
  - rewrite lookup_app_l.
    2:{ rewrite !length_fmap. by eapply lookup_lt_Some. }
    rewrite !list_lookup_fmap, Hch. simpl. unfold f.
    by destruct (Ascii.eqb (toUpperCase ch) "X").
  - apply lookup_ge_None in Hch.
    rewrite lookup_app_r by (by rewrite !length_fmap).
    rewrite !length_fmap. apply lookup_replicate_2. lia.
Qed.

Lemma solid_truthy mask r c :
  (r < 16)%nat → (c < 16)%nat →
  truthy ((λ row, (λ cell, Ascii.eqb cell "X"%char) <$> row)
            <$> (normalizeRow mask <$> seq 0 16)) r c
  = markedb mask r c.
Proof.
  intros Hr Hc. unfold truthy.
  rewrite !list_lookup_fmap, lookup_seq_lt by done. cbn.
  rewrite list_lookup_fmap, normalizeRow_lookup by done. cbn.
  by destruct (markedb mask r c).
Qed.

Lemma marked_markedb mask r c :
  marked mask r c ↔ (r < 16)%nat ∧ (c < 16)%nat ∧ markedb mask r c = true.
Proof.
  unfold marked, markedb. split.
  - intros (Hr & Hc & ch & -> & Hch). by rewrite toUpperCase_X.
  - intros (Hr & Hc & H). split; [done|]. split; [done|].
    destruct (mask !! r ≫= (.!! c)) as [ch|]; [|done].
    exists ch. split; [done|]. by apply toUpperCase_X.
Qed.

Lemma touchingSolid_true mask r c :
  touchingSolid ((λ row, (λ cell, Ascii.eqb cell "X"%char) <$> row)
                   <$> (normalizeRow mask <$> seq 0 16)) r c = true
  ↔ ∃ r' c', marked mask r' c'
      ∧ Z.abs (Z.of_nat r' - Z.of_nat r) ≤ 1
      ∧ Z.abs (Z.of_nat c' - Z.of_nat c) ≤ 1.
Proof.
  unfold touchingSolid. rewrite existsb_exists. split.
  - intros (dr & Hdr%list_elem_of_In & H). apply existsb_exists in H
      as (dc & Hdc%list_elem_of_In & H).
    rewrite !andb_true_iff in H.
    destruct H as ((((H1%Z.leb_le & H2%Z.ltb_lt) & H3%Z.leb_le) & H4%Z.ltb_lt) & H).
    rewrite solid_truthy in H by lia.
    exists (Z.to_nat (Z.of_nat r + dr)), (Z.to_nat (Z.of_nat c + dc)).
    split; [apply marked_markedb; split_and!; [lia|lia|done]|].
    rewrite !Z2Nat.id by lia.
    assert (dr = -1 ∨ dr = 0 ∨ dr = 1) by
      (rewrite !elem_of_cons in Hdr; rewrite elem_of_nil in Hdr; tauto).
    assert (dc = -1 ∨ dc = 0 ∨ dc = 1) by
      (rewrite !elem_of_cons in Hdc; rewrite elem_of_nil in Hdc; tauto).
    lia.
  - intros (r' & c' & (Hr & Hc & Hm)%marked_markedb & Hdr & Hdc).
    exists (Z.of_nat r' - Z.of_nat r). split.
    { apply list_elem_of_In. rewrite !elem_of_cons. lia. }
    apply existsb_exists. exists (Z.of_nat c' - Z.of_nat c). split.
    { apply list_elem_of_In. rewrite !elem_of_cons. lia. }
    replace (Z.of_nat r + (Z.of_nat r' - Z.of_nat r)) with (Z.of_nat r') by lia.
    replace (Z.of_nat c + (Z.of_nat c' - Z.of_nat c)) with (Z.of_nat c') by lia.
    rewrite !Nat2Z.id, solid_truthy, Hm by done.
    rewrite !andb_true_iff, !Z.leb_le, !Z.ltb_lt. lia.
Qed.

(** Whatever the number and the lengths of the rows of an ASCII mask, the
    picture is 16 rows of 16 characters: ['F'] exactly on the marks of the
    mask, ['O'] exactly on the unmarked cells that touch a mark, sideways or
    diagonally, and ['.'] on the rest. *)
Theorem outlined_mask_picture :
  ∀ mask : Pixels,
    Forall (Forall isAscii) mask →
    let picture := buildOutlinedMask mask in
    length picture = 16%nat
    ∧ Forall (λ row, length row = 16%nat) picture
    ∧ ∀ row col, (row < 16)%nat → (col < 16)%nat →
        ∃ px, picture !! row ≫= (.!! col) = Some px
          ∧ (px = "F"%char ∨ px = "O"%char ∨ px = "."%char)
          ∧ (px = "F"%char ↔ marked mask row col)
          ∧ (px = "O"%char ↔
             ¬ marked mask row col
             ∧ ∃ row' col', marked mask row' col'
                 ∧ Z.abs (Z.of_nat row' - Z.of_nat row) ≤ 1
                 ∧ Z.abs (Z.of_nat col' - Z.of_nat col) ≤ 1).
Proof.
  intros mask _ picture. unfold picture, buildOutlinedMask.
  set (solid := (λ row, (λ cell, Ascii.eqb cell "X"%char) <$> row)
                  <$> (normalizeRow mask <$> seq 0 16)).
  assert (shape16 (replicate 16 (replicate 16 "."%char))) as Hs0.
  { split; [by rewrite length_replicate|].
    apply Forall_replicate. by rewrite length_replicate. }
  destruct (paintWhere_at (truthy solid) "F"%char _ Hs0) as [Hs1 Hat1].
  destruct (paintWhere_at
              (λ row col, negb (truthy solid row col) && touchingSolid solid row col)
              "O"%char _ Hs1) as [[Hlen Hrows] Hat2].
  split; [done|]. split; [done|].
  intros row col Hr Hc. rewrite Hat2, Hat1 by done.
  assert (replicate 16 (replicate 16 "."%char) !! row ≫= (.!! col) = Some "."%char)
    as ->.
  { rewrite lookup_replicate_2 by done.
    change (replicate 16 "."%char !! col = Some "."%char).
    by apply lookup_replicate_2. }
  unfold solid at 1 3. rewrite !solid_truthy by done.
  pose proof (marked_markedb mask row col) as Hm.
  pose proof (touchingSolid_true mask row col) as Ht. fold solid in Ht.
  destruct (markedb mask row col) eqn:Hmb; cbn [negb andb].
  - exists "F"%char. split; [done|]. split; [by left|]. split.
    + split; [intros _; by apply Hm|done].
    + split; [done|]. intros [Hn _]. exfalso. by apply Hn, Hm.
  - destruct (touchingSolid solid row col) eqn:Hts.
    + exists "O"%char. split; [done|]. split; [by right; left|]. split.
      * split; [done|]. intros (_ & _ & ?)%Hm. done.
      * split; [|done]. intros _. split; [|by apply Ht].
        intros (_ & _ & ?)%Hm. done.
    + exists "."%char.
      split; [done|]. split; [by right; right|]. split.
      * split; [done|]. intros (_ & _ & ?)%Hm. done.
      * split; [done|]. intros [_ H]. apply Ht in H. done.
Qed.

Lemma outlined_mask_picture_witness :
  let picture := buildOutlinedMask pawnMask in
  length picture = 16%nat
  ∧ Forall (λ row, length row = 16%nat) picture
  ∧ ∀ row col, (row < 16)%nat → (col < 16)%nat →
      ∃ px, picture !! row ≫= (.!! col) = Some px
        ∧ (px = "F"%char ∨ px = "O"%char ∨ px = "."%char)
        ∧ (px = "F"%char ↔ marked pawnMask row col)
        ∧ (px = "O"%char ↔
           ¬ marked pawnMask row col
           ∧ ∃ row' col', marked pawnMask row' col'
               ∧ Z.abs (Z.of_nat row' - Z.of_nat row) ≤ 1
               ∧ Z.abs (Z.of_nat col' - Z.of_nat col) ≤ 1).
Proof.
  apply (outlined_mask_picture pawnMask).
  apply (bool_decide_unpack _). by vm_compute.
Defined.

(** * Layout, pointer and status line *)

Lemma layoutBoard_cellSize mode width height :
  let l := layoutBoard mode width height in
  35 ≤ cellSize l ≤ 85 ∧ boardSize l = 8 * cellSize l.
Proof.
  unfold layoutBoard. cbn [cellSize boardSize].
  destruct mode; split; Z.div_mod_to_equations; lia.
Qed.

(** With a positive cell size a pointer on a whole pixel is taken to the one
    square whose drawn rectangle contains it. *)
Lemma pointerCell_located l x y :
  0 < cellSize l →
  ∃ row col,
    pointerCell l x y = Some (row, col)
    ∧ inSquareRect l row col x y
    ∧ (∀ row' col', inSquareRect l row' col' x y → row' = row ∧ col' = col)
    ∧ (boardSize l = 8 * cellSize l →
       (inBounds row col = true
        ↔ boardX l ≤ x < boardX l + boardSize l
          ∧ boardY l ≤ y < boardY l + boardSize l)).
Proof.
  intros Hcell.
  unfold pointerCell. rewrite (proj2 (Z.eqb_neq _ _)) by lia.
  eexists _, _. split; [done|].
  set (cs := cellSize l) in *. set (bx := boardX l). set (by_ := boardY l).
  pose proof (Z.div_mod (y - by_) cs ltac:(lia)) as Hy.
  pose proof (Z.mod_pos_bound (y - by_) cs ltac:(lia)) as Hy'.
  pose proof (Z.div_mod (x - bx) cs ltac:(lia)) as Hx.
  pose proof (Z.mod_pos_bound (x - bx) cs ltac:(lia)) as Hx'.
  set (row := (y - by_) / cs) in *. set (col := (x - bx) / cs) in *.
  split; [unfold inSquareRect; fold cs bx by_; lia|].
  split.
  - unfold inSquareRect. fold cs bx by_. intros row' col' [Hc Hr]. split; nia.
  - intros Hsize. rewrite inBounds_spec, Hsize. split; intros; nia.
Qed.

(** Whatever the viewport, the cell is between 35 and 85 pixels wide, the
    board is eight cells wide and (to the pixel) centred sideways, and the
    mobile board is never larger than the desktop one; a viewport of at least
    320 by 450 pixels holds the whole board with its margins. *)
Theorem layout_keeps_board_in_bounds :
  ∀ (mode : BoardMode) (width height : Z),
    let l := layoutBoard mode width height in
    35 ≤ cellSize l ≤ 85
    ∧ boardSize l = 8 * cellSize l
    ∧ (mode = Mobile → cellSize l ≤ 55)
    ∧ cellSize (layoutBoard Mobile width height)
      ≤ cellSize (layoutBoard Desktop width height)
    ∧ 0 ≤ width - boardSize l - 2 * boardX l ≤ 1
    ∧ (320 ≤ width → 450 ≤ height →
       20 ≤ boardX l ∧ boardX l + boardSize l ≤ width - 20
       ∧ 97 ≤ boardY l ∧ boardY l + boardSize l ≤ height - 73).
Proof.
  intros mode width height l. unfold l, layoutBoard. cbn [cellSize boardSize boardX boardY].
  destruct mode; split_and!; try (intros; discriminate);
    intros; Z.div_mod_to_equations; lia.
Qed.

Lemma layout_keeps_board_in_bounds_witness :
  let l := layoutBoard Desktop 1024 768 in
  35 ≤ cellSize l ≤ 85
  ∧ boardSize l = 8 * cellSize l
  ∧ (Desktop = Mobile → cellSize l ≤ 55)
  ∧ cellSize (layoutBoard Mobile 1024 768) ≤ cellSize (layoutBoard Desktop 1024 768)
  ∧ 0 ≤ 1024 - boardSize l - 2 * boardX l ≤ 1
  ∧ (320 ≤ 1024 → 450 ≤ 768 →
     20 ≤ boardX l ∧ boardX l + boardSize l ≤ 1024 - 20
     ∧ 97 ≤ boardY l ∧ boardY l + boardSize l ≤ 768 - 73).
Proof. exact (layout_keeps_board_in_bounds Desktop 1024 768). Defined.

(** After any layout a pointer on a whole pixel is taken to the square whose
    drawn rectangle contains it, and that square is on the board exactly when
    the pixel lies inside the board's rectangle. *)
Theorem pointer_finds_the_drawn_square :
  ∀ (mode : BoardMode) (width height x y : Z),
    let l := layoutBoard mode width height in
    ∃ row col,
      pointerCell l x y = Some (row, col)
      ∧ inSquareRect l row col x y
      ∧ (∀ row' col', inSquareRect l row' col' x y → row' = row ∧ col' = col)
      ∧ (inBounds row col = true
         ↔ boardX l ≤ x < boardX l + boardSize l
           ∧ boardY l ≤ y < boardY l + boardSize l).
Proof.
  intros mode width height x y l.
  destruct (layoutBoard_cellSize mode width height) as [Hcell Hsize].
  fold l in Hcell, Hsize.
  destruct (pointerCell_located l x y) as (row & col & H1 & H2 & H3 & H4); [lia|].
  exists row, col. split_and!; try done. by apply H4.
Qed.

Lemma pointer_finds_the_drawn_square_witness :
  let l := layoutBoard Desktop 1024 768 in
  ∃ row col,
    pointerCell l 500 400 = Some (row, col)
    ∧ inSquareRect l row col 500 400
    ∧ (∀ row' col', inSquareRect l row' col' 500 400 → row' = row ∧ col' = col)
    ∧ (inBounds row col = true
       ↔ boardX l ≤ 500 < boardX l + boardSize l
         ∧ boardY l ≤ 400 < boardY l + boardSize l).
Proof. exact (pointer_finds_the_drawn_square Desktop 1024 768 500 400). Defined.

(** A pointer event outside the board's rectangle clears the selection of a
    game in progress and changes nothing else. *)
Theorem pointer_off_board_deselects :
  ∀ (s : Scene) (mode : BoardMode) (width height x y : Z),
    let l := layoutBoard mode width height in
    gameState s = Active → isResolvingMove s = false →
    ¬ (boardX l ≤ x < boardX l + boardSize l
       ∧ boardY l ≤ y < boardY l + boardSize l) →
    onPointerDown s (pointerCell l x y) = Ok (withSelection s None []).
Proof.
  intros s mode width height x y l Hactive Hidle Hout.
  destruct (layoutBoard_cellSize mode width height) as [Hcell Hsize].
  fold l in Hcell, Hsize.
  destruct (pointerCell_located l x y) as (row & col & Hpc & _ & _ & Hin); [lia|].
  rewrite Hpc. unfold onPointerDown.
  rewrite Hactive, Hidle, bool_decide_eq_true_2 by done. simpl.
  destruct (inBounds row col); [|done]. exfalso. by apply Hout, Hin.
Qed.

Lemma pointer_off_board_deselects_witness :
  onPointerDown selectScene (pointerCell (layoutBoard Desktop 1024 768) 5 5)
  = Ok (withSelection selectScene None []).
Proof.
  apply (pointer_off_board_deselects selectScene Desktop 1024 768 5 5).
  - by vm_compute.
  - by vm_compute.
  - vm_compute. intros [[H _] _]. by apply H.
Defined.

(** When a game ends in checkmate the status line names as the winner the
    colour of the piece that made the last move, and the side to move is in
    check without a legal move. *)
Theorem checkmate_names_the_last_mover :
  ∀ (clicks : list (option (Z * Z))) (s : Scene),
    play resetGame clicks = Ok s → gameState s = Checkmate →
    ∃ l, lastMove s = Some l
      ∧ statusText s
        = "Checkmate " +:+ bullet +:+ " " +:+ colorName (color (lmPiece l))
          +:+ " wins"
      ∧ color (lmPiece l) ≠ turn s
      ∧ isKingInCheck (board s) (turn s) = true
      ∧ ¬ canMove (lastMove s) (board s) (turn s).
Proof.
  intros clicks s Hok%play_sceneOk Hmate.
  destruct (lastMove s) as [l|] eqn:Hl.
  2:{ exfalso. apply (ok_started s Hok); [by rewrite Hmate|done]. }
  exists l. split; [done|].
  destruct (ok_last s Hok l Hl) as [Hcol _].
  unfold statusText. rewrite Hmate, Hcol. split; [done|].
  split; [by destruct (turn s)|].
  destruct (ok_status s Hok) as (x & Hx & Hst). rewrite Hmate, Hl in *.
  pose proof (hasAnyLegalMove_spec _ _ _ _ (ok_wf s Hok) Hx) as Hspec.
  destruct x; [done|].
  destruct (isKingInCheck (board s) (turn s)); [|done].
  split; [done|]. intros Hmov. by apply Hspec in Hmov.
Qed.

Lemma checkmate_names_the_last_mover_witness :
  ∃ l, lastMove foolsMate = Some l
    ∧ statusText foolsMate
      = "Checkmate " +:+ bullet +:+ " " +:+ colorName (color (lmPiece l))
        +:+ " wins"
    ∧ color (lmPiece l) ≠ turn foolsMate
    ∧ isKingInCheck (board foolsMate) (turn foolsMate) = true
    ∧ ¬ canMove (lastMove foolsMate) (board foolsMate) (turn foolsMate).
Proof.
  apply (checkmate_names_the_last_mover foolsMateClicks foolsMate foolsMate_run).
  by vm_compute.
Defined.

Example foolsMate_statusText :
  statusText foolsMate = "Checkmate " +:+ bullet +:+ " Black wins".
Proof. by vm_compute. Qed.
